(** * modelx.io.baseio: shared-file manager, bidirectional index, path safety

    A shallow embedding of [modelx/io/baseio.py].  Python objects live in an
    arena and are referred to by handles, so that object identity ([is],
    [id(...)]) becomes handle equality and aliasing is kept.  Exceptions are
    values of [exn]; every operation returns its outcome together with the
    world it leaves behind, because a Python exception does not undo the
    mutations made before it was raised.

    What is modelled: [is_in_root], [BiDict], the methods of [IOManager]
    that create, look up, rename and retire resources and specs, and
    [BaseIOSpec.__getstate__] and [__setstate__].  The methods that the base
    classes leave to the kinds of spec and resource are parameters ([Hooks]);
    the constructors are those of the base classes.  A ghost [trace] records
    the index mutations and the hook calls, so that the order of effects can
    be stated. *)

From Stdlib Require Import ZArith Lia Ascii String.
From stdpp Require Import base option list gmap strings.

(** ** Paths

    A [pathlib.Path] is represented by its POSIX text ([as_posix()]).
    [pathlib.Path(p)] applied to a path is the identity, and two paths are
    equal when their texts are.  Only POSIX flavoured paths are modelled. *)

Definition Path := string.

Definition is_absolute (p : Path) : bool :=
  match p with
  | String c _ => Ascii.eqb c "/"%char
  | EmptyString => false
  end.

(** [str.split(sep)] for a one-character separator: the result is never
    empty and has one more segment than there are separators. *)
Fixpoint split (sep : ascii) (s : string) : list string :=
  match s with
  | EmptyString => [EmptyString]
  | String c s' =>
      if Ascii.eqb c sep then EmptyString :: split sep s'
      else match split sep s' with
           | seg :: segs => String c seg :: segs
           | [] => [String c EmptyString]
           end
  end.

Module PathSafety.

(** The [while split:] loop of [is_in_root]: [split.pop(0)] takes the head,
    [level] is the running counter, and the test after the update returns
    [False] at the first negative level. *)
Fixpoint is_in_root_loop (split : list string) (level : Z) : bool :=
  match split with
  | [] => true
  | item :: split =>
      let level :=
        if String.eqb item ".." then (level - 1)%Z
        else if String.eqb item "." then level
        else (level + 1)%Z in
      if (level <? 0)%Z then false else is_in_root_loop split level
  end.

(** [is_in_root(path)], on [pos = path.as_posix()]. *)
Definition is_in_root (pos : string) : bool :=
  is_in_root_loop (split "/"%char pos) 0.

(** The wording of the specification, kept apart from the code: a depth
    counter over the segments, and "the counter ever goes negative". *)
Definition depth_step (seg : string) : Z :=
  if decide (seg = "..") then (-1)%Z
  else if decide (seg = ".") then 0%Z
  else 1%Z.

Definition depth_after (segs : list string) : Z :=
  foldl (λ d seg, (d + depth_step seg)%Z) 0%Z segs.

Definition counter_goes_negative (pos : string) : Prop :=
  ∃ n : nat, n ≤ length (split "/"%char pos) ∧
             (depth_after (take n (split "/"%char pos)) < 0)%Z.

End PathSafety.

(** ** Exceptions and outcomes

    [HookError] tags an exception that left an extension point (a method the
    base classes leave to their subclasses); the other constructors are the
    exceptions raised by the statements of [baseio.py] themselves.  The code
    never inspects the class of an exception it catches (its only handler is
    a bare [except:] that re-raises), so the tag changes no behaviour. *)

Inductive exn : Type :=
  | ValueError (msg : string)
  | RuntimeError (msg : string)
  | KeyError
  | AttributeError
  | HookError (what : string).

Inductive result (A : Type) : Type :=
  | Ok (a : A)
  | Raise (e : exn).
Arguments Ok {A} a.
Arguments Raise {A} e.

(** ** class BiDict(dict)

    The dict itself ([items], in insertion order, as Python keeps it) and its
    [inverse] attribute.  Values are compared and hashed by identity, which
    for handles is equality. *)

Module BiDict.
Section BiDict.
Context {K V : Type} `{EqDecision K} `{Countable V}.

(** [dict.get(key)] *)
Fixpoint dict_get (key : K) (d : list (K * V)) : option V :=
  match d with
  | [] => None
  | (k, v) :: d => if decide (k = key) then Some v else dict_get key d
  end.

(** [dict.__setitem__]: an existing key keeps its position, a new key is
    appended. *)
Fixpoint dict_set (key : K) (value : V) (d : list (K * V)) : list (K * V) :=
  match d with
  | [] => [(key, value)]
  | (k, v) :: d =>
      if decide (k = key) then (k, value) :: d
      else (k, v) :: dict_set key value d
  end.

(** [dict.__delitem__] of a key that is present. *)
Definition dict_del (key : K) (d : list (K * V)) : list (K * V) :=
  filter (λ kv, kv.1 ≠ key) d.

Record BiDict : Type := mk { items : list (K * V); inverse : gmap V K }.

Definition keys (self : BiDict) : list K := (items self).*1.
Definition values (self : BiDict) : list V := (items self).*2.

Definition empty : BiDict := mk [] ∅.

(** The loop of [__init__] over [self.items()]. *)
Fixpoint init_inverse (its : list (K * V)) (inv : gmap V K)
  : result (gmap V K) :=
  match its with
  | [] => Ok inv
  | (key, value) :: its =>
      match inv !! value with
      | Some _ => Raise (ValueError "not injective mapping")
      | None => init_inverse its (<[value := key]> inv)
      end
  end.

Definition __init__ (args : list (K * V)) : result BiDict :=
  let d := foldl (λ d kv, dict_set kv.1 kv.2 d) [] args in
  match init_inverse d ∅ with
  | Ok inv => Ok (mk d inv)
  | Raise e => Raise e
  end.

Definition __setitem__ (key : K) (value : V) (self : BiDict)
  : result BiDict :=
  match dict_get key (items self) with
  | Some old =>
      if decide (value = old) then Ok self
      else match inverse self !! value with
           | None =>
               (* del self.inverse[self[key]] *)
               match inverse self !! old with
               | None => Raise KeyError
               | Some _ =>
                   Ok (mk (dict_set key value (items self))
                          (<[value := key]> (delete old (inverse self))))
               end
           | Some _ => Raise (ValueError "not injective key-value")
           end
  | None =>
      Ok (mk (dict_set key value (items self))
             (<[value := key]> (inverse self)))
  end.

Definition __delitem__ (key : K) (self : BiDict) : result BiDict :=
  match dict_get key (items self) with
  | None => Raise KeyError
  | Some v =>
      match inverse self !! v with
      | None => Raise KeyError
      | Some _ => Ok (mk (dict_del key (items self)) (delete v (inverse self)))
      end
  end.

(** The invariant the specification states for the index: reading a key
    forward and then backward gives the key again, and no value sits under
    two keys. *)
Definition round_trip (self : BiDict) : Prop :=
  ∀ k v, dict_get k (items self) = Some v → inverse self !! v = Some k.

Definition one_key_per_value (self : BiDict) : Prop :=
  ∀ k1 k2 v, dict_get k1 (items self) = Some v →
             dict_get k2 (items self) = Some v → k1 = k2.

(** Both directions agree: what the operations maintain when they are used
    as the manager uses them. *)
Definition consistent (self : BiDict) : Prop :=
  ∀ k v, dict_get k (items self) = Some v ↔ inverse self !! v = Some k.

(** A test for [consistent] that evaluates. *)
Definition consistentb (self : BiDict) : bool :=
  forallb (λ kv, bool_decide (inverse self !! kv.2 = Some kv.1)) (items self)
  && bool_decide
       (map_Forall (λ v k, dict_get k (items self) = Some v) (inverse self)).

End BiDict.
Arguments BiDict K V {_ _} : assert.
End BiDict.

(** ** Objects, the world and the effect monad *)

(** A key of the index: [(io_group or None, path)].  Groups (the model or
    space objects that own relative files), resources and specs are handles. *)
Abbreviation io_key := (option nat * Path)%type.

Section Objects.
Context {V K D : Type}.
(** [V]: the kind-specific content of a spec (its value); [K]: the extra
    arguments of an update; [D]: the kind-specific content of a resource. *)

(** The Python values that the fields written by the base classes hold. *)
Inductive pyval : Type :=
  | PyNone
  | PyBool (b : bool)
  | PyManager
  | PyIO (io_ : nat)
  | PyVal (v : V).

Record BaseSharedIO : Type := mkIO {
  _path : Path;
  _specs : list nat;          (* the keys of {id(spec): spec}, in order *)
  _load_from : option Path;
  io_data : D
}.

Record BaseIOSpec : Type := mkSpec {
  _manager : pyval;
  _io : pyval;
  _is_hidden : option pyval;  (* [None]: the attribute does not exist *)
  spec_value : V
}.

Record IOManager : Type := mkManager {
  ios : BiDict.BiDict io_key nat;
  serializing : option bool   (* True, False, or unset *)
}.

(** Ghost record of the index mutations and extension-point calls, in the
    order in which they are made. *)
Inductive event : Type :=
  | EvSetItem (key : io_key) (io_ : nat)
  | EvDelItem (key : io_key)
  | EvOnUpdatePath (io_ : nat) (path : Path)
  | EvOnLoadValue (spec : nat)
  | EvIOOnUpdateValue (io_ : nat) (value : V) (kwargs : K)
  | EvOnUpdateValue (spec : nat) (value : V) (kwargs : K).

Record World : Type := mkWorld {
  manager : IOManager;
  io_heap : gmap nat BaseSharedIO;
  spec_heap : gmap nat BaseIOSpec;
  trace : list event
}.

Definition IOManager__init__ : IOManager := mkManager BiDict.empty None.

Definition initial_world : World := mkWorld IOManager__init__ ∅ ∅ [].

Definition index (w : World) : list (io_key * nat) :=
  BiDict.items (ios (manager w)).

Definition M (A : Type) : Type := World → result A * World.

#[export] Instance M_ret : MRet M := λ A a w, (Ok a, w).
#[export] Instance M_bind : MBind M := λ A B f m w,
  match m w with
  | (Ok a, w') => f a w'
  | (Raise e, w') => (Raise e, w')
  end.

Definition raise {A} (e : exn) : M A := λ w, (Raise e, w).
Definition lift {A} (r : result A) : M A := λ w, (r, w).
Definition get_world : M World := λ w, (Ok w, w).

(** [try: body / except: handler] *)
Definition try_except {A} (body : M A) (handler : exn → M A) : M A := λ w,
  match body w with
  | (Ok a, w') => (Ok a, w')
  | (Raise e, w') => handler e w'
  end.

Definition log (ev : event) : M unit := λ w,
  (Ok tt, mkWorld (manager w) (io_heap w) (spec_heap w) (trace w ++ [ev])).

Definition set_ios (b : BiDict.BiDict io_key nat) : M unit := λ w,
  (Ok tt, mkWorld (mkManager b (serializing (manager w)))
                  (io_heap w) (spec_heap w) (trace w)).

(** [manager.serializing = mode], done by the code that saves and restores
    models around a serialization pass. *)
Definition set_serializing (mode : option bool) : M unit := λ w,
  (Ok tt, mkWorld (mkManager (ios (manager w)) mode)
                  (io_heap w) (spec_heap w) (trace w)).

(** Object creation picks a handle that no resource has yet. *)
Definition alloc_io (io : BaseSharedIO) : M nat := λ w,
  let io_ := fresh (dom (io_heap w)) in
  (Ok io_, mkWorld (manager w) (<[io_ := io]> (io_heap w))
                   (spec_heap w) (trace w)).

Definition alloc_spec (sp : BaseIOSpec) : M nat := λ w,
  let spec := fresh (dom (spec_heap w)) in
  (Ok spec, mkWorld (manager w) (io_heap w)
                    (<[spec := sp]> (spec_heap w)) (trace w)).

(** Attribute access through a handle.  A handle without an object cannot
    occur in Python; the model answers it like an attribute access on a
    value that is not an object of the class. *)
Definition deref_io (io_ : nat) : M BaseSharedIO := λ w,
  match io_heap w !! io_ with
  | Some io => (Ok io, w)
  | None => (Raise AttributeError, w)
  end.

Definition deref_spec (spec : nat) : M BaseIOSpec := λ w,
  match spec_heap w !! spec with
  | Some sp => (Ok sp, w)
  | None => (Raise AttributeError, w)
  end.

Definition assign_io (io_ : nat) (io : BaseSharedIO) : M unit := λ w,
  (Ok tt, mkWorld (manager w) (<[io_ := io]> (io_heap w))
                  (spec_heap w) (trace w)).

Definition assign_spec (spec : nat) (sp : BaseIOSpec) : M unit := λ w,
  (Ok tt, mkWorld (manager w) (io_heap w)
                  (<[spec := sp]> (spec_heap w)) (trace w)).

(** [v.specs], [v.path], ... on a field value: only a resource has them. *)
Definition as_io (v : pyval) : M nat :=
  match v with
  | PyIO io_ => mret io_
  | _ => raise AttributeError
  end.

(** [v.serializing] on a field value: only the manager has it. *)
Definition serializing_of (v : pyval) : M (option bool) :=
  match v with
  | PyManager => w ← get_world; mret (serializing (manager w))
  | _ => raise AttributeError
  end.

(** An extension point answers with its result or raises. *)
Definition call_hook {A} (r : string + A) : M A :=
  match r with
  | inl what => raise (HookError what)
  | inr a => mret a
  end.

(** The extension points that [baseio.py] leaves to the concrete kinds of
    spec and resource ([raise NotImplementedError] in the base classes).
    They are taken as parameters.  A hook sees and replaces the
    kind-specific content only, and does not call back into the manager. *)
Record Hooks : Type := mkHooks {
  (* BaseIOSpec._on_load_value, given the content of self.io and of self *)
  on_load_value : D → V → string + V;
  (* BaseIOSpec._can_update_value(value, kwargs) *)
  can_update_value : V → V → K → bool;
  (* BaseIOSpec._on_update_value(value, kwargs) *)
  on_update_value : V → V → K → string + V;
  (* BaseSharedIO._on_update_value(value, kwargs) *)
  io_on_update_value : D → V → K → string + D;
  (* c._can_add_other(spec) *)
  can_add_other : V → V → bool;
  (* BaseIOSpec._on_serialize(state) and _on_pickle(state) *)
  on_serialize : V → gmap string pyval → string + gmap string pyval;
  on_pickle : V → gmap string pyval → string + gmap string pyval;
  (* BaseIOSpec._on_unserialize(state) and _on_unpickle(state) *)
  on_unserialize : V → gmap string pyval → string + V;
  on_unpickle : V → gmap string pyval → string + V
}.

(** ** class IOManager, and the serialization methods of BaseIOSpec *)

Context (hooks : Hooks).

Definition _get_io_key (io_group : option nat) (path : Path) : io_key :=
  if is_absolute path then (None, path) else (io_group, path).

(** [self.ios.get(key, None)] *)
Definition _get_io (io_group : option nat) (path : Path) : M (option nat) :=
  w ← get_world;
  mret (BiDict.dict_get (_get_io_key io_group path) (index w)).

(** [self.ios[key] = io_] and [del self.ios[key]] *)
Definition ios_setitem (key : io_key) (io_ : nat) : M unit :=
  log (EvSetItem key io_);;
  w ← get_world;
  b ← lift (BiDict.__setitem__ key io_ (ios (manager w)));
  set_ios b.

Definition ios_delitem (key : io_key) : M unit :=
  log (EvDelItem key);;
  w ← get_world;
  b ← lift (BiDict.__delitem__ key (ios (manager w)));
  set_ios b.

(** The call of [cls] on [path, self, load_from] and [kwargs] is the
    constructor of BaseSharedIO, with the keyword arguments as the
    kind-specific content.
    A resource object is always true in a condition. *)
Definition _new_io (io_group : option nat) (path : Path)
    (load_from : option Path) (kwargs : D) : M nat :=
  a_io ← alloc_io (mkIO path [] load_from kwargs);
  io ← deref_io a_io;
  res ← _get_io io_group (_path io);
  match res with
  | None =>
      ios_setitem (_get_io_key io_group (_path io)) a_io;;
      mret a_io
  | Some _ => raise (RuntimeError "must not happen")
  end.

Definition _del_io (io_ : nat) : M unit :=
  io ← deref_io io_;
  match _specs io with
  | _ :: _ => raise (RuntimeError "specs must be deleted beforehand")
  | [] =>
      w ← get_world;
      (* next((k for k, v in self.ios.items() if v is io_), None);
         a key is a pair, which is always true in [if key:] *)
      match find (λ kv, bool_decide (kv.2 = io_)) (index w) with
      | Some (key, _) => ios_delitem key
      | None => mret tt
      end
  end.

Definition restore_io (io_group : option nat) (io_ : nat) : M unit :=
  io ← deref_io io_;
  res ← _get_io io_group (_path io);
  match res with
  | None => ios_setitem (_get_io_key io_group (_path io)) io_
  | Some _ => mret tt
  end.

Definition get_or_create_io (io_group : option nat) (path : Path)
    (load_from : option Path) (kwargs : D) : M nat :=
  a_io ← _get_io io_group path;
  match a_io with
  | Some a_io => mret a_io
  | None => _new_io io_group path load_from kwargs
  end.

(** [all(c._can_add_other(spec) for c in self._specs.values())] *)
Fixpoint _can_add_spec_loop (cs : list nat) (spec : nat) : M bool :=
  match cs with
  | [] => mret true
  | c :: cs =>
      other ← deref_spec c;
      sp ← deref_spec spec;
      if can_add_other hooks (spec_value other) (spec_value sp)
      then _can_add_spec_loop cs spec
      else mret false
  end.

Definition _can_add_spec (io_ : nat) (spec : nat) : M bool :=
  io ← deref_io io_;
  _can_add_spec_loop (_specs io) spec.

Definition add_spec (io_ : nat) (spec : nat) : M unit :=
  io ← deref_io io_;
  if bool_decide (spec ∈ _specs io) then mret tt
  else
    ok ← _can_add_spec io_ spec;
    if (ok : bool) then
      assign_io io_ (mkIO (_path io) (_specs io ++ [spec])
                          (_load_from io) (io_data io))
    else raise (ValueError "cannot add spec").

Definition _on_load_value (spec : nat) : M unit :=
  log (EvOnLoadValue spec);;
  sp ← deref_spec spec;
  io_ ← as_io (_io sp);
  io ← deref_io io_;
  v ← call_hook (on_load_value hooks (io_data io) (spec_value sp));
  assign_spec spec (mkSpec (_manager sp) (_io sp) (_is_hidden sp) v).

(** The call of [cls] on [spec_args] is the constructor of BaseIOSpec, with
    the keyword arguments as the kind-specific content. *)
Definition new_spec (io_group : option nat) (path : Path)
    (spec_args : V) (io_args : D) : M nat :=
  spec ← alloc_spec (mkSpec PyNone PyNone None spec_args);
  sp ← deref_spec spec;
  assign_spec spec (mkSpec PyManager (_io sp) (_is_hidden sp) (spec_value sp));;
  a_io ← get_or_create_io io_group path None io_args;
  sp ← deref_spec spec;
  assign_spec spec (mkSpec (_manager sp) (PyIO a_io) (_is_hidden sp)
                           (spec_value sp));;
  try_except
    (_on_load_value spec;;
     sp ← deref_spec spec;
     io_ ← as_io (_io sp);
     add_spec io_ spec)
    (λ e,
      sp ← deref_spec spec;
      io_ ← as_io (_io sp);
      io ← deref_io io_;
      match _specs io with
      | [] => ios_delitem (_get_io_key io_group (_path io))
      | _ :: _ => mret tt
      end;;
      raise e);;
  mret spec.

Definition del_spec (spec : nat) : M unit :=
  sp ← deref_spec spec;
  a_io ← as_io (_io sp);
  io ← deref_io a_io;
  if bool_decide (spec ∈ _specs io) then
    assign_io a_io (mkIO (_path io) (filter (λ c, c ≠ spec) (_specs io))
                         (_load_from io) (io_data io));;
    io ← deref_io a_io;
    match _specs io with
    | [] => _del_io a_io
    | _ :: _ => mret tt
    end
  else mret tt.

Definition io__on_update_value (io_ : nat) (value : V) (kwargs : K)
  : M unit :=
  log (EvIOOnUpdateValue io_ value kwargs);;
  io ← deref_io io_;
  d ← call_hook (io_on_update_value hooks (io_data io) value kwargs);
  assign_io io_ (mkIO (_path io) (_specs io) (_load_from io) d).

Definition _on_update_value (spec : nat) (value : V) (kwargs : K)
  : M unit :=
  log (EvOnUpdateValue spec value kwargs);;
  sp ← deref_spec spec;
  v ← call_hook (on_update_value hooks (spec_value sp) value kwargs);
  assign_spec spec (mkSpec (_manager sp) (_io sp) (_is_hidden sp) v).

Definition update_spec_value (spec : nat) (value : V) (kwargs : K)
  : M unit :=
  sp ← deref_spec spec;
  if can_update_value hooks (spec_value sp) value kwargs then
    io_ ← as_io (_io sp);
    io__on_update_value io_ value kwargs;;
    _on_update_value spec value kwargs
  else raise (ValueError "does not allow to replace its value").

(** BaseSharedIO._on_update_path: [self._path = path] *)
Definition _on_update_path (io_ : nat) (path : Path) : M unit :=
  log (EvOnUpdatePath io_ path);;
  io ← deref_io io_;
  assign_io io_ (mkIO path (_specs io) (_load_from io) (io_data io)).

Definition update_path (io_ : nat) (path : Path) : M unit :=
  w ← get_world;
  match BiDict.inverse (ios (manager w)) !! io_ with
  | None => raise KeyError
  | Some (group, path_old) =>
      if decide (path = path_old) then mret tt
      else
        let key := _get_io_key group path in
        match BiDict.dict_get key (index w) with
        | Some _ => raise (ValueError "cannot change path")
        | None =>
            ios_delitem (group, path_old);;
            _on_update_path io_ path;;
            ios_setitem key io_
        end
  end.

(** The first assertion of IOManager._check_sanity:
    [len(self.ios) == len(set(id(v) for v in self.ios.values()))]. *)
Definition _check_sanity_distinct (w : World) : bool :=
  bool_decide
    (length (index w) =
     size (list_to_set (BiDict.values (ios (manager w))) : gset nat)).

(** [state[name]] *)
Definition getitem (state : gmap string pyval) (name : string) : M pyval :=
  match state !! name with
  | Some v => mret v
  | None => raise KeyError
  end.

Definition __getstate__ (self : nat) : M (gmap string pyval) :=
  sp ← deref_spec self;
  let state : gmap string pyval :=
    <["_io" := _io sp]> (<["manager" := _manager sp]> ∅) in
  let state :=
    match _is_hidden sp with
    | Some h => <["is_hidden" := h]> state
    | None => state
    end in
  mode ← serializing_of (_manager sp);
  match mode with
  | Some true => call_hook (on_serialize hooks (spec_value sp) state)
  | Some false => call_hook (on_pickle hooks (spec_value sp) state)
  | None => raise (RuntimeError "must not happen")
  end.

Definition __setstate__ (self : nat) (state : gmap string pyval) : M unit :=
  sp ← deref_spec self;
  m ← getitem state "manager";
  assign_spec self (mkSpec m (_io sp) (_is_hidden sp) (spec_value sp));;
  io_ ← match state !! "_io" with
        | Some v => mret v
        | None => getitem state "_data"
        end;
  sp ← deref_spec self;
  assign_spec self (mkSpec (_manager sp) io_ (_is_hidden sp) (spec_value sp));;
  sp ← deref_spec self;
  assign_spec self
    (mkSpec (_manager sp) (_io sp)
            (Some match state !! "is_hidden" with
                  | Some h => h
                  | None => PyBool false
                  end)
            (spec_value sp));;
  sp ← deref_spec self;
  mode ← serializing_of (_manager sp);
  match mode with
  | Some true =>
      v ← call_hook (on_unserialize hooks (spec_value sp) state);
      assign_spec self (mkSpec (_manager sp) (_io sp) (_is_hidden sp) v);;
      a_io ← as_io (_io sp);
      add_spec a_io self
  | Some false =>
      v ← call_hook (on_unpickle hooks (spec_value sp) state);
      assign_spec self (mkSpec (_manager sp) (_io sp) (_is_hidden sp) v)
  | None =>
      (* RuntimeError("must not happen") is built and dropped *)
      mret tt
  end.

End Objects.

Arguments pyval V : clear implicits.
Arguments BaseSharedIO D : clear implicits.
Arguments BaseIOSpec V : clear implicits.
Arguments event V K : clear implicits.
Arguments World V K D : clear implicits.
Arguments Hooks V K D : clear implicits.
Arguments M V K D A : clear implicits.

(** ** Invariants and reachable states *)

Section Invariants.
Context {V K D : Type}.
Implicit Types (w : World V K D).

(** [key] is a key of the index and the resource [io_] is stored under it. *)
Definition registered w (key : io_key) (io_ : nat) : Prop :=
  BiDict.dict_get key (index w) = Some io_.

(** The index is a dict (no key twice), its two directions agree, and the
    resources in it are objects. *)
Definition index_wf w : Prop :=
  NoDup (BiDict.keys (ios (manager w)))
  ∧ BiDict.consistent (ios (manager w))
  ∧ ∀ key io_, registered w key io_ → is_Some (io_heap w !! io_).

(** A test for [index_wf] that evaluates. *)
Definition index_wfb w : bool :=
  bool_decide (NoDup (BiDict.keys (ios (manager w))))
  && BiDict.consistentb (ios (manager w))
  && forallb (λ kv, bool_decide (is_Some (io_heap w !! kv.2))) (index w).

(** No resource of the index has an empty dependent set. *)
Definition no_orphan w : Prop :=
  ∀ key io_ io, registered w key io_ → io_heap w !! io_ = Some io →
                _specs io ≠ [].

(** The operations of the manager that create, change and remove specs. *)
Inductive op : Type :=
  | NewSpec (io_group : option nat) (path : Path) (spec_args : V) (io_args : D)
  | AddSpec (io_ spec : nat)
  | DelSpec (spec : nat)
  | UpdateSpecValue (spec : nat) (value : V) (kwargs : K)
  | UpdatePath (io_ : nat) (path : Path).

(** The world after a call, whether it returned or raised. *)
Definition run (hooks : Hooks V K D) (o : op) w : World V K D :=
  match o with
  | NewSpec io_group path spec_args io_args =>
      (new_spec hooks io_group path spec_args io_args w).2
  | AddSpec io_ spec => (add_spec hooks io_ spec w).2
  | DelSpec spec => (del_spec spec w).2
  | UpdateSpecValue spec value kwargs =>
      (update_spec_value hooks spec value kwargs w).2
  | UpdatePath io_ path => (update_path io_ path w).2
  end.

Inductive reachable (hooks : Hooks V K D) : World V K D → Prop :=
  | reachable_init : reachable hooks initial_world
  | reachable_step w o :
      reachable hooks w → reachable hooks (run hooks o w).

End Invariants.

(** ** A concrete kind of spec, for evaluating the code

    Values are strings, updates carry no extra arguments and resources have
    no content of their own.  Loading fails for the value "corrupt"; a value
    "frozen" refuses updates. *)

Module Example.

Definition hooks : Hooks string unit unit :=
  {| on_load_value := λ _ v,
       if String.eqb v "corrupt" then inl "cannot load" else inr v;
     can_update_value := λ cur _ _, negb (String.eqb cur "frozen");
     on_update_value := λ _ value _, inr value;
     io_on_update_value := λ d _ _, inr d;
     can_add_other := λ _ _, true;
     on_serialize := λ _ state, inr state;
     on_pickle := λ _ state, inr state;
     on_unserialize := λ v _, inr v;
     on_unpickle := λ v _, inr v |}.

Definition W : Type := World string unit unit.

(** One spec on the relative file "x.dat" of group 1. *)
Definition one_spec : W :=
  (new_spec hooks (Some 1) "x.dat" "table" tt initial_world).2.

(** Two specs on that file. *)
Definition two_specs : W :=
  (new_spec hooks (Some 1) "x.dat" "range" tt one_spec).2.

(** A second file in the same group. *)
Definition two_files : W :=
  (new_spec hooks (Some 1) "y.dat" "table" tt one_spec).2.

End Example.

(** ** The remaining methods: queries, path properties, sanity checks *)

(** What a sanity check can end in: it passes, an [assert] fails, the
    [next(...)] without default of BaseSharedIO._check_sanity finds nothing,
    or an attribute or item access fails. *)
Inductive sanity : Type :=
  | Sane
  | AssertionError
  | StopIteration
  | Raised (e : exn).

Section Rest.
Context {V K D : Type}.
Implicit Types (w : World V K D).

(** BaseSharedIO.is_external *)
Definition is_external (io : BaseSharedIO D) : bool := is_absolute (_path io).

(** IOManager.get_ios: the dict comprehension
    [{path: ios for (group, path), ios in self.ios.items()
      if group == io_group}]. *)
Definition get_ios (io_group : option nat) w : list (Path * nat) :=
  foldl (λ d kv,
           if decide (kv.1.1 = io_group) then BiDict.dict_set kv.1.2 kv.2 d
           else d)
        [] (index w).

(** BaseIOSpec.path: [return self._io.path] *)
Definition BaseIOSpec_path (spec : nat) : M V K D Path :=
  sp ← deref_spec spec;
  io_ ← as_io (_io sp);
  io ← deref_io io_;
  mret (_path io).

(** The setter of BaseSharedIO.path: [self._manager.update_path(self, path)];
    the manager of a resource is the one manager of the world. *)
Definition BaseSharedIO_set_path (io_ : nat) (path : Path) : M V K D unit :=
  update_path io_ path.

(** The setter of BaseIOSpec.path: [self._io.path = path] *)
Definition BaseIOSpec_set_path (spec : nat) (path : Path) : M V K D unit :=
  sp ← deref_spec spec;
  io_ ← as_io (_io sp);
  BaseSharedIO_set_path io_ path.

(** BaseIOSpec._check_sanity.  The dependents of a resource are kept by
    handle, so [self._io.specs[id(self)] is self] holds when the item exists.
    The manager of a resource is the one manager of the world, so the last
    assertion holds once [self._manager.ios] could be read. *)
Definition BaseIOSpec__check_sanity (spec : nat) w : sanity :=
  match spec_heap w !! spec with
  | None => Raised AttributeError
  | Some sp =>
      match _io sp with
      | PyIO io_ =>
          match io_heap w !! io_ with
          | None => Raised AttributeError
          | Some io =>
              if bool_decide (spec ∈ _specs io) then
                match _manager sp with
                | PyManager =>
                    if bool_decide (io_ ∈ BiDict.values (ios (manager w)))
                    then Sane else AssertionError
                | _ => Raised AttributeError
                end
              else Raised KeyError
          end
      | _ => Raised AttributeError
      end
  end.

(** The loop of BaseSharedIO._check_sanity over its dependents. *)
Fixpoint _check_sanity_specs (io_ : nat) (specs : list nat) w : sanity :=
  match specs with
  | [] => Sane
  | spec :: specs =>
      match spec_heap w !! spec with
      | None => Raised AttributeError
      | Some sp =>
          match _io sp with
          | PyIO r =>
              if bool_decide (r = io_) then
                match BaseIOSpec__check_sanity spec w with
                | Sane => _check_sanity_specs io_ specs w
                | failure => failure
                end
              else AssertionError
          | _ => AssertionError
          end
      end
  end.

(** BaseSharedIO._check_sanity *)
Definition BaseSharedIO__check_sanity (io_ : nat) w : sanity :=
  match io_heap w !! io_ with
  | None => Raised AttributeError
  | Some io =>
      match find (λ kv, bool_decide (kv.2 = io_)) (index w) with
      | None => StopIteration
      | Some (key, val) =>
          if bool_decide (_path io = key.2) then
            if bool_decide (io_ = val) then
              _check_sanity_specs io_ (_specs io) w
            else AssertionError
          else AssertionError
      end
  end.

(** The loop of IOManager._check_sanity over [self.ios.values()]. *)
Fixpoint _check_sanity_ios (vals : list nat) w : sanity :=
  match vals with
  | [] => Sane
  | a_io :: vals =>
      match BaseSharedIO__check_sanity a_io w with
      | Sane => _check_sanity_ios vals w
      | failure => failure
      end
  end.

(** IOManager._check_sanity *)
Definition IOManager__check_sanity w : sanity :=
  if _check_sanity_distinct w
  then _check_sanity_ios (BiDict.values (ios (manager w))) w
  else AssertionError.

(** What the sanity check looks at, as a property of the world: the index
    is well formed, every key is a resolved key, and every resource of the
    index has the path of its key and dependents that are bound to it and
    know the manager. *)
Definition sane w : Prop :=
  index_wf w
  ∧ ∀ key io_, registered w key io_ →
      key = _get_io_key key.1 key.2
      ∧ ∃ io, io_heap w !! io_ = Some io
              ∧ _path io = key.2
              ∧ ∀ spec, spec ∈ _specs io →
                  ∃ sp, spec_heap w !! spec = Some sp
                        ∧ _io sp = PyIO io_ ∧ _manager sp = PyManager.

(** The states reached by creating, updating and removing specs and by
    renaming resources. *)
Inductive managed (hooks : Hooks V K D) : World V K D → Prop :=
  | managed_init : managed hooks initial_world
  | managed_new_spec w io_group path spec_args io_args :
      managed hooks w →
      managed hooks (new_spec hooks io_group path spec_args io_args w).2
  | managed_del_spec w spec :
      managed hooks w → managed hooks (del_spec spec w).2
  | managed_update_spec_value w spec value kwargs :
      managed hooks w →
      managed hooks (update_spec_value hooks spec value kwargs w).2
  | managed_update_path w io_ path :
      managed hooks w → managed hooks (update_path io_ path w).2.

End Rest.

(** * Theorems *)

(** ** The dict and the bidirectional dict *)

Section BiDictFacts.
Context {K V : Type} `{EqDecision K} `{Countable V}.
Implicit Types (d : list (K * V)) (self : BiDict.BiDict K V).
Import BiDict.

Lemma dict_get_set key value d k :
  dict_get k (dict_set key value d)
  = if decide (key = k) then Some value else dict_get k d.
Proof.
  induction d as [|[k0 v0] d IH]; simpl.
  - destruct (decide (key = k)); done.
  - destruct (decide (k0 = key)) as [->|Hne]; simpl.
    + destruct (decide (key = k)); done.
    + destruct (decide (k0 = k)) as [->|]; [|done].
      by rewrite decide_False by congruence.
Qed.

Lemma dict_get_del key d k :
  dict_get k (dict_del key d)
  = if decide (key = k) then None else dict_get k d.
Proof.
  unfold dict_del. induction d as [|[k0 v0] d IH]; simpl.
  - destruct (decide (key = k)); done.
  - rewrite filter_cons. simpl. destruct (decide (k0 ≠ key)) as [Hne|Heq].
    + simpl. rewrite IH. destruct (decide (k0 = k)) as [->|]; [|done].
      by rewrite decide_False by congruence.
    + apply dec_stable in Heq as ->. rewrite IH.
      destruct (decide (key = k)); done.
Qed.

Lemma dict_get_Some_elem_of d k v : dict_get k d = Some v → (k, v) ∈ d.
Proof.
  induction d as [|[k0 v0] d IH]; simpl; [done|].
  destruct (decide (k0 = k)) as [->|].
  - intros [= ->]. left.
  - intros. right. auto.
Qed.

Lemma dict_get_None_keys d k : dict_get k d = None ↔ k ∉ d.*1.
Proof.
  induction d as [|[k0 v0] d IH]; simpl.
  - split; [intros _; apply not_elem_of_nil|done].
  - rewrite not_elem_of_cons. destruct (decide (k0 = k)) as [->|Hne].
    + split; [done|]. intros [? _]. done.
    + rewrite IH. split; [intros ?; split; [congruence|done]|by intros [_ ?]].
Qed.

Lemma elem_of_dict_get d k v :
  NoDup d.*1 → (k, v) ∈ d → dict_get k d = Some v.
Proof.
  induction d as [|[k0 v0] d IH]; simpl.
  - intros _ Hin. by apply not_elem_of_nil in Hin.
  - rewrite NoDup_cons. intros [Hk0 Hnd] [[= -> ->]|Hin]%elem_of_cons.
    + by rewrite decide_True.
    + destruct (decide (k0 = k)) as [->|]; [|by apply IH].
      exfalso. apply Hk0. apply (list_elem_of_fmap_2 fst) in Hin. done.
Qed.

Lemma dict_set_keys_absent key value d :
  dict_get key d = None → (dict_set key value d).*1 = d.*1 ++ [key].
Proof.
  induction d as [|[k0 v0] d IH]; simpl; [done|].
  destruct (decide (k0 = key)); [done|]. intros Hget.
  rewrite fmap_cons. simpl. f_equal. by apply IH.
Qed.

Lemma dict_set_keys_NoDup key value d :
  dict_get key d = None → NoDup d.*1 → NoDup (dict_set key value d).*1.
Proof.
  intros Hget Hnd. rewrite dict_set_keys_absent by done.
  apply NoDup_app. split_and!; [done| |apply NoDup_singleton].
  intros k Hk ->%list_elem_of_singleton.
  by apply dict_get_None_keys in Hget.
Qed.

Lemma dict_del_keys_NoDup key d : NoDup d.*1 → NoDup (dict_del key d).*1.
Proof.
  unfold dict_del. induction d as [|[k0 v0] d IH]; simpl; [done|].
  rewrite NoDup_cons. intros [Hk0 Hnd]. rewrite filter_cons. simpl.
  destruct (decide (k0 ≠ key)); [|by apply IH].
  simpl. apply NoDup_cons. split; [|by apply IH].
  intros ([k v] & Hk & [_ Hin]%list_elem_of_filter)%list_elem_of_fmap.
  simpl in Hk. subst k. apply Hk0.
  by apply (list_elem_of_fmap_2 fst) in Hin.
Qed.

(** The first item that holds a given value, as the generator expression of
    [_del_io] finds it. *)
Lemma find_value_Some (v : V) d k v' :
  find (λ kv, bool_decide (kv.2 = v)) d = Some (k, v') →
  v' = v ∧ (k, v) ∈ d.
Proof.
  induction d as [|[k0 v0] d IH]; simpl; [done|].
  case_bool_decide as Hv; simpl in Hv.
  - intros [= -> ->]. split; [done|]. subst. left.
  - intros [-> Hin]%IH. split; [done|]. by right.
Qed.

Lemma find_value_None (v : V) d :
  find (λ kv, bool_decide (kv.2 = v)) d = None → ∀ k, dict_get k d ≠ Some v.
Proof.
  induction d as [|[k0 v0] d IH]; simpl; [done|].
  case_bool_decide as Hv; simpl in Hv; [done|].
  intros Hnone k. destruct (decide (k0 = k)); [congruence|by apply IH].
Qed.

Lemma setitem_absent key value self :
  dict_get key (items self) = None →
  __setitem__ key value self
  = Ok (mk (dict_set key value (items self))
           (<[value := key]> (inverse self))).
Proof. intros Hget. unfold __setitem__. by rewrite Hget. Qed.

Lemma consistent_round_trip self : consistent self → round_trip self.
Proof. intros Hc k v. apply Hc. Qed.

Lemma consistent_one_key self : consistent self → one_key_per_value self.
Proof.
  intros Hc k1 k2 v H1%Hc H2%Hc. congruence.
Qed.

Lemma consistent_empty : consistent (empty (K := K) (V := V)).
Proof. intros k v. simpl. by rewrite lookup_empty. Qed.

Lemma consistent_eta self :
  consistent self ↔ consistent (mk (items self) (inverse self)).
Proof. by destruct self. Qed.

(** Storing under a new key a value that the index does not hold yet. *)
Lemma consistent_set_new key value d (inv : gmap V K) :
  consistent (mk d inv) → dict_get key d = None → inv !! value = None →
  consistent (mk (dict_set key value d) (<[value := key]> inv)).
Proof.
  intros Hc Hkey Hval k v. simpl. rewrite dict_get_set, lookup_insert.
  destruct (decide (key = k)) as [->|Hk], (decide (value = v)) as [->|Hv].
  - done.
  - split; [congruence|]. intros Hinv%Hc. simpl in *. congruence.
  - split; [|congruence]. intros Hget%Hc. simpl in *. congruence.
  - apply Hc.
Qed.

Lemma consistent_del key v d (inv : gmap V K) :
  consistent (mk d inv) → dict_get key d = Some v →
  consistent (mk (dict_del key d) (delete v inv)).
Proof.
  intros Hc Hkey k v'. simpl. rewrite dict_get_del, lookup_delete.
  destruct (decide (key = k)) as [->|Hk], (decide (v = v')) as [->|Hv].
  - done.
  - split; [done|]. intros Hinv%Hc. simpl in *. congruence.
  - split; [|done]. intros Hget. apply Hc in Hget, Hkey. simpl in *.
    congruence.
  - apply Hc.
Qed.

(** Moving a value from its key to a free one, as a rename does. *)
Lemma consistent_move key_old key value d (inv : gmap V K) :
  consistent (mk d inv) → inv !! value = Some key_old →
  dict_get key d = None →
  consistent (mk (dict_set key value (dict_del key_old d))
                 (<[value := key]> (delete value inv))).
Proof.
  intros Hc Hinv Hfree.
  assert (key ≠ key_old) as Hne.
  { intros ->. apply Hc in Hinv. simpl in *. congruence. }
  apply consistent_set_new.
  - apply consistent_del; [done|]. by apply Hc.
  - rewrite dict_get_del. by destruct (decide _).
  - apply lookup_delete_eq.
Qed.

(** Replacing the value of a key by a value that the index does not hold. *)
Lemma consistent_replace key old value d (inv : gmap V K) :
  consistent (mk d inv) → dict_get key d = Some old → inv !! value = None →
  consistent (mk (dict_set key value d) (<[value := key]> (delete old inv))).
Proof.
  intros Hc Hkey Hval k v. simpl.
  rewrite dict_get_set, lookup_insert, lookup_delete.
  destruct (decide (key = k)) as [->|Hk], (decide (value = v)) as [->|Hv];
    [done| | |].
  - split; [congruence|]. destruct (decide (old = v)) as [->|Hold]; [done|].
    intros Hinv%Hc. simpl in *. congruence.
  - split; [|congruence]. intros Hget%Hc. simpl in *. congruence.
  - destruct (decide (old = v)) as [->|Hold]; [|apply Hc].
    split; [|done]. intros Hget. apply Hc in Hget, Hkey. simpl in *.
    congruence.
Qed.

(** What the guards of [__setitem__] give: the call keeps the two directions
    in agreement whenever it returns, provided the key is already there or
    the value is not yet in the index.  The remaining case, a new key for a
    value that is in the index, is not guarded. *)
Lemma setitem_consistent key value self self' :
  consistent self →
  is_Some (dict_get key (items self)) ∨ inverse self !! value = None →
  __setitem__ key value self = Ok self' → consistent self'.
Proof.
  intros Hc Hguard. unfold __setitem__.
  destruct (dict_get key (items self)) as [old|] eqn:Hget.
  - destruct (decide (value = old)) as [->|Hne]; [by intros [= <-]|].
    destruct (inverse self !! value) eqn:Hval; [done|].
    destruct (inverse self !! old); [|done]. intros [= <-].
    apply consistent_replace; [by apply consistent_eta|done..].
  - destruct Hguard as [[? [=]]|Hval]. intros [= <-].
    apply consistent_set_new; [by apply consistent_eta|done..].
Qed.

Lemma delitem_consistent key self self' :
  consistent self → __delitem__ key self = Ok self' → consistent self'.
Proof.
  intros Hc. unfold __delitem__.
  destruct (dict_get key (items self)) as [v|] eqn:Hget; [|done].
  destruct (inverse self !! v); [|done]. intros [= <-].
  apply consistent_del; [by apply consistent_eta|done].
Qed.

(** [__init__] accepts injective mappings only. *)
Lemma dict_set_keys_present key value old d :
  dict_get key d = Some old → (dict_set key value d).*1 = d.*1.
Proof.
  induction d as [|[k0 v0] d IH]; simpl; [done|].
  destruct (decide (k0 = key)); [done|]. intros Hget.
  rewrite fmap_cons. simpl. f_equal. by apply IH.
Qed.

Lemma dict_of_args_NoDup (args : list (K * V)) d :
  NoDup d.*1 → NoDup (foldl (λ d kv, dict_set kv.1 kv.2 d) d args).*1.
Proof.
  revert d. induction args as [|[k v] args IH]; intros d Hnd; [done|].
  simpl. apply IH. destruct (dict_get k d) as [old|] eqn:Hget.
  - by rewrite (dict_set_keys_present k v old).
  - by apply dict_set_keys_NoDup.
Qed.

Lemma init_inverse_Ok its (inv inv' : gmap V K) :
  init_inverse its inv = Ok inv' →
  ∀ v k, inv' !! v = Some k ↔ inv !! v = Some k ∨ (k, v) ∈ its.
Proof.
  revert inv. induction its as [|[key value] its IH]; intros inv; simpl.
  - intros [= <-] v k. rewrite elem_of_nil. tauto.
  - destruct (inv !! value) eqn:Hval; [done|]. intros Hrun v k.
    rewrite (IH _ Hrun), lookup_insert, elem_of_cons.
    destruct (decide (value = v)) as [->|Hne].
    + rewrite Hval. split.
      * intros [[= ->]|?]; [right; by left|right; by right].
      * intros [?|[[= -> ]|?]]; [done|by left|by right].
    + split.
      * intros [?|?]; [by left|right; by right].
      * intros [?|[[= -> ->]|?]]; [by left|done|by right].
Qed.

Lemma init_consistent (args : list (K * V)) self :
  __init__ args = Ok self → consistent self.
Proof.
  unfold __init__.
  destruct (init_inverse _ ∅) as [inv|] eqn:Hrun; [|done].
  intros [= <-] k v. simpl.
  rewrite (init_inverse_Ok _ _ _ Hrun), lookup_empty.
  assert (NoDup (foldl (λ d kv, dict_set kv.1 kv.2 d) [] args).*1) as Hnd.
  { apply dict_of_args_NoDup, NoDup_nil_2. }
  split.
  - intros Hget%dict_get_Some_elem_of. by right.
  - intros [?|Hin]; [done|]. by apply elem_of_dict_get.
Qed.

Lemma consistentb_sound self : consistentb self = true → consistent self.
Proof.
  unfold consistentb. rewrite andb_true_iff, forallb_forall, bool_decide_eq_true.
  intros [Hfwd Hbwd] k v. split.
  - intros Hin%dict_get_Some_elem_of%list_elem_of_In%Hfwd.
    by apply bool_decide_eq_true in Hin.
  - intros Hinv. by apply (Hbwd v k).
Qed.

End BiDictFacts.

Section PathSafetyFacts.
Import PathSafety.

Lemma split_nonempty sep s : split sep s ≠ [].
Proof.
  destruct s as [|c s]; simpl; [done|].
  destruct (Ascii.eqb c sep); [done|].
  by destruct (split sep s).
Qed.

Lemma loop_level_step item (level : Z) :
  (if String.eqb item ".." then (level - 1)%Z
   else if String.eqb item "." then level
   else (level + 1)%Z) = (level + depth_step item)%Z.
Proof.
  unfold depth_step.
  destruct (String.eqb_spec item "..") as [->|Hdd].
  - rewrite decide_True by done. lia.
  - rewrite (decide_False (P := item = "..")) by done.
    destruct (String.eqb_spec item ".") as [->|Hd].
    + rewrite decide_True by done. lia.
    + rewrite decide_False by done. lia.
Qed.

Lemma foldl_depth_shift segs (d : Z) :
  foldl (λ d seg, (d + depth_step seg)%Z) d segs = (d + depth_after segs)%Z.
Proof.
  unfold depth_after. revert d.
  induction segs as [|seg segs IH]; intros d; simpl; [lia|].
  rewrite IH, (IH (0 + depth_step seg)%Z). lia.
Qed.

Lemma depth_after_cons seg segs :
  depth_after (seg :: segs) = (depth_step seg + depth_after segs)%Z.
Proof.
  unfold depth_after at 1. simpl. rewrite foldl_depth_shift. lia.
Qed.

Lemma is_in_root_loop_false segs (level : Z) :
  (0 ≤ level)%Z →
  is_in_root_loop segs level = false ↔
  ∃ n : nat, n ≤ length segs ∧ (level + depth_after (take n segs) < 0)%Z.
Proof.
  revert level. induction segs as [|item segs IH]; intros level Hlevel.
  - simpl. split; [done|].
    intros (n & _ & Hneg). rewrite take_nil in Hneg.
    unfold depth_after in Hneg. simpl in Hneg. lia.
  - cbn [is_in_root_loop]. rewrite loop_level_step.
    destruct (Z.ltb_spec (level + depth_step item) 0) as [Hlt|Hge].
    + split; [intros _|done].
      exists 1. split; [simpl; lia|].
      rewrite firstn_cons, take_0, depth_after_cons.
      unfold depth_after at 1. simpl. lia.
    + rewrite (IH _ Hge). split.
      * intros (n & Hn & Hneg). exists (S n). split; [simpl; lia|].
        rewrite firstn_cons, depth_after_cons. lia.
      * intros (n & Hn & Hneg). destruct n as [|n].
        { rewrite take_0 in Hneg. unfold depth_after in Hneg.
          simpl in Hneg. lia. }
        exists n. split; [simpl in Hn; lia|].
        rewrite firstn_cons, depth_after_cons in Hneg. lia.
Qed.

End PathSafetyFacts.

(** C9.  [is_in_root] answers [False] exactly when the depth counter of the
    specification (".." decrements, "." leaves it, any other segment
    increments) becomes negative at some point of the left-to-right scan of
    the "/"-separated segments; the three paths named by the specification
    evaluate as stated, and so does "a", the text that pathlib keeps of
    "./a". *)
Theorem C9_is_in_root_depth_counter :
  (∀ pos : string,
      PathSafety.is_in_root pos = false ↔ PathSafety.counter_goes_negative pos)
  ∧ PathSafety.is_in_root "a/../../b" = false
  ∧ PathSafety.is_in_root "a/b/../c" = true
  ∧ PathSafety.is_in_root "./a" = true
  ∧ PathSafety.is_in_root "a" = true.
Proof.
  split; [|by vm_compute].
  intros pos. unfold PathSafety.is_in_root, PathSafety.counter_goes_negative.
  rewrite is_in_root_loop_false by done.
  split; intros (n & Hn & Hneg); exists n; (split; [done|lia]).
Qed.

Arguments _get_io_key : simpl never.
Arguments get_or_create_io : simpl never.
Arguments add_spec : simpl never.
Arguments _can_add_spec : simpl never.

(** Unfolds the plumbing of the effect monad, leaving the operations. *)
Ltac m_step :=
  unfold mbind, mret, M_bind, M_ret, raise, lift, get_world, log, set_ios,
    alloc_io, alloc_spec, deref_io, deref_spec, assign_io, assign_spec,
    try_except, call_hook, as_io, serializing_of, getitem, index; cbn.

Section ManagerFacts.
Context {V K D : Type} (hooks : Hooks V K D).
Implicit Types (w : World V K D).
Import BiDict.

Lemma index_wfb_sound w : index_wfb w = true → index_wf w.
Proof.
  unfold index_wfb. rewrite !andb_true_iff, forallb_forall, bool_decide_eq_true.
  intros [[Hnd Hc] Hheap]. split_and!; [done|by apply consistentb_sound|].
  intros key io_ Hin%dict_get_Some_elem_of%list_elem_of_In%Hheap.
  by apply bool_decide_eq_true in Hin.
Qed.

(** *** Queries leave the world as it is *)

Lemma _can_add_spec_loop_pure cs spec w :
  (_can_add_spec_loop hooks cs spec w).2 = w.
Proof.
  induction cs as [|c cs IH]; [done|].
  cbn [_can_add_spec_loop]. m_step.
  destruct (spec_heap w !! c); [|done]. cbn.
  destruct (spec_heap w !! spec); [|done]. cbn.
  destruct (can_add_other _ _ _); [apply IH|done].
Qed.

Lemma _can_add_spec_pure io_ spec w :
  (_can_add_spec hooks io_ spec w).2 = w.
Proof.
  unfold _can_add_spec. m_step.
  destruct (io_heap w !! io_); [|done]. cbn.
  apply _can_add_spec_loop_pure.
Qed.

(** *** add_spec *)

Lemma add_spec_cases io_ spec w :
  (add_spec hooks io_ spec w).2 = w
  ∨ ∃ io, io_heap w !! io_ = Some io ∧ (spec ∉ _specs io)
          ∧ (add_spec hooks io_ spec w
             = (Ok tt,
                mkWorld (manager w)
                  (<[io_ := mkIO (_path io) (_specs io ++ [spec])
                                 (_load_from io) (io_data io)]> (io_heap w))
                  (spec_heap w) (trace w))).
Proof.
  unfold add_spec. m_step.
  destruct (io_heap w !! io_) as [io|] eqn:Hio; [|by left]. cbn.
  case_bool_decide as Hin; [by left|].
  pose proof (_can_add_spec_pure io_ spec w) as Hpure.
  destruct (_can_add_spec hooks io_ spec w) as [[[|]|e] w1];
    simpl in Hpure; subst w1; cbn; [|by left|by left].
  right. exists io. done.
Qed.

Lemma add_spec_spec_heap io_ spec w :
  spec_heap (add_spec hooks io_ spec w).2 = spec_heap w.
Proof.
  destruct (add_spec_cases io_ spec w) as [->|(io & _ & _ & ->)]; done.
Qed.

(** *** The index operations, where they succeed *)

Lemma ios_setitem_absent key io_ w :
  dict_get key (index w) = None →
  ios_setitem key io_ w
  = (Ok tt,
     mkWorld
       (mkManager (mk (dict_set key io_ (index w))
                      (<[io_ := key]> (inverse (ios (manager w)))))
                  (serializing (manager w)))
       (io_heap w) (spec_heap w) (trace w ++ [EvSetItem key io_])).
Proof.
  intros Hkey. unfold ios_setitem. m_step.
  by rewrite setitem_absent.
Qed.

Lemma ios_delitem_run key io_ key' w :
  registered w key io_ → inverse (ios (manager w)) !! io_ = Some key' →
  ios_delitem key w
  = (Ok tt,
     mkWorld
       (mkManager (mk (dict_del key (index w))
                      (delete io_ (inverse (ios (manager w)))))
                  (serializing (manager w)))
       (io_heap w) (spec_heap w) (trace w ++ [EvDelItem key])).
Proof.
  intros Hreg Hinv. unfold ios_delitem, __delitem__. m_step.
  unfold registered, index in Hreg. by rewrite Hreg, Hinv.
Qed.

Lemma ios_delitem_present key io_ w :
  consistent (ios (manager w)) → registered w key io_ →
  ios_delitem key w
  = (Ok tt,
     mkWorld
       (mkManager (mk (dict_del key (index w))
                      (delete io_ (inverse (ios (manager w)))))
                  (serializing (manager w)))
       (io_heap w) (spec_heap w) (trace w ++ [EvDelItem key])).
Proof.
  intros Hc Hreg. apply (ios_delitem_run key io_ key); [done|by apply Hc].
Qed.

(** Whatever [del self.ios[key]] does, the index stays consistent and no
    resource enters it. *)
Lemma ios_delitem_cases key w :
  (∃ e, ios_delitem key w
        = (Raise e, mkWorld (manager w) (io_heap w) (spec_heap w)
                            (trace w ++ [EvDelItem key])))
  ∨ (∃ io_, registered w key io_
            ∧ ios_delitem key w
              = (Ok tt,
                 mkWorld
                   (mkManager (mk (dict_del key (index w))
                                  (delete io_ (inverse (ios (manager w)))))
                              (serializing (manager w)))
                   (io_heap w) (spec_heap w) (trace w ++ [EvDelItem key]))).
Proof.
  unfold ios_delitem, __delitem__, registered. m_step.
  destruct (dict_get key (items (ios (manager w)))) as [io_|]; cbn;
    [|left; by eexists].
  destruct (inverse (ios (manager w)) !! io_); cbn; [|left; by eexists].
  right. by exists io_.
Qed.

(** *** update_path *)

Lemma _get_io_key_path group path : (_get_io_key group path).2 = path.
Proof. unfold _get_io_key. by destruct (is_absolute path). Qed.

Lemma update_path_same io_ group path w :
  inverse (ios (manager w)) !! io_ = Some (group, path) →
  update_path io_ path w = (Ok tt, w).
Proof.
  intros Hinv. unfold update_path. m_step. rewrite Hinv.
  by rewrite decide_True.
Qed.

Lemma update_path_occupied io_ group path_old path other w :
  inverse (ios (manager w)) !! io_ = Some (group, path_old) →
  path ≠ path_old →
  registered w (_get_io_key group path) other →
  update_path io_ path w = (Raise (ValueError "cannot change path"), w).
Proof.
  intros Hinv Hne Hreg. unfold update_path. m_step. rewrite Hinv.
  rewrite decide_False by done. unfold registered, index in Hreg.
  by rewrite Hreg.
Qed.

Lemma update_path_moves io_ io group path_old path w :
  consistent (ios (manager w)) →
  inverse (ios (manager w)) !! io_ = Some (group, path_old) →
  io_heap w !! io_ = Some io →
  path ≠ path_old →
  dict_get (_get_io_key group path) (index w) = None →
  update_path io_ path w
  = (Ok tt,
     mkWorld
       (mkManager
          (mk (dict_set (_get_io_key group path) io_
                 (dict_del (group, path_old) (index w)))
              (<[io_ := _get_io_key group path]>
                 (delete io_ (inverse (ios (manager w))))))
          (serializing (manager w)))
       (<[io_ := mkIO path (_specs io) (_load_from io) (io_data io)]>
          (io_heap w))
       (spec_heap w)
       (trace w ++ [EvDelItem (group, path_old); EvOnUpdatePath io_ path;
                    EvSetItem (_get_io_key group path) io_])).
Proof.
  intros Hc Hinv Hio Hne Hfree. unfold update_path. m_step. rewrite Hinv.
  rewrite decide_False by done. unfold index in Hfree. rewrite Hfree.
  rewrite (ios_delitem_present (group, path_old) io_) by (done || by apply Hc).
  cbn. unfold _on_update_path. m_step. rewrite Hio. cbn.
  rewrite ios_setitem_absent.
  - cbn. unfold index. by rewrite <- !app_assoc.
  - unfold index. cbn. rewrite dict_get_del.
    destruct (decide _); done.
Qed.

(** *** get_or_create_io and new_spec *)

Lemma get_or_create_io_existing g p lf (a : D) w io_ :
  registered w (_get_io_key g p) io_ →
  get_or_create_io g p lf a w = (Ok io_, w).
Proof.
  intros Hreg. unfold registered, index in Hreg.
  unfold get_or_create_io, _get_io. m_step. by rewrite Hreg.
Qed.

Lemma get_or_create_io_new g p lf (a : D) w :
  dict_get (_get_io_key g p) (index w) = None →
  get_or_create_io g p lf a w
  = (Ok (fresh (dom (io_heap w))),
     mkWorld
       (mkManager
          (mk (dict_set (_get_io_key g p) (fresh (dom (io_heap w))) (index w))
              (<[fresh (dom (io_heap w)) := _get_io_key g p]>
                 (inverse (ios (manager w)))))
          (serializing (manager w)))
       (<[fresh (dom (io_heap w)) := mkIO p [] lf a]> (io_heap w))
       (spec_heap w)
       (trace w ++ [EvSetItem (_get_io_key g p) (fresh (dom (io_heap w)))])).
Proof.
  intros Hfree. unfold index in Hfree.
  unfold get_or_create_io, _get_io. m_step.
  rewrite Hfree. unfold _new_io, _get_io. m_step.
  rewrite lookup_insert_eq. cbn. rewrite Hfree.
  by rewrite ios_setitem_absent.
Qed.

(** A handle made by object creation is not in a well-formed index. *)
Lemma fresh_not_registered w key :
  index_wf w → ¬ registered w key (fresh (dom (io_heap w))).
Proof.
  intros (_ & _ & Hheap) Hreg. apply Hheap in Hreg.
  apply elem_of_dom in Hreg. by apply is_fresh in Hreg.
Qed.

Lemma fresh_not_in_inverse w :
  index_wf w → inverse (ios (manager w)) !! fresh (dom (io_heap w)) = None.
Proof.
  intros Hwf.
  destruct (inverse (ios (manager w)) !! fresh (dom (io_heap w)))
    as [key|] eqn:Hinv; [|done].
  destruct (fresh_not_registered w key Hwf).
  destruct Hwf as (_ & Hc & _). by apply Hc.
Qed.

(** The index is the same and no object has gone. *)
Lemma index_wf_ext w w' :
  ios (manager w') = ios (manager w) →
  (∀ r, is_Some (io_heap w !! r) → is_Some (io_heap w' !! r)) →
  index_wf w → index_wf w'.
Proof.
  intros Hios Hheap (Hnd & Hc & Hobj).
  split_and!; [by rewrite Hios|by rewrite Hios|].
  intros key r. unfold registered, index. rewrite Hios.
  intros Hreg. by eapply Hheap, Hobj.
Qed.

(** A world in which a new resource has been stored under a free key. *)
Lemma index_wf_created key io w w' :
  dict_get key (index w) = None →
  ios (manager w')
  = mk (dict_set key (fresh (dom (io_heap w))) (index w))
       (<[fresh (dom (io_heap w)) := key]> (inverse (ios (manager w)))) →
  io_heap w' = <[fresh (dom (io_heap w)) := io]> (io_heap w) →
  index_wf w → index_wf w'.
Proof.
  intros Hfree Hios Hheap Hwf.
  pose proof (fresh_not_in_inverse w Hwf) as Hinv.
  destruct Hwf as (Hnd & Hc & Hobj). split_and!.
  - rewrite Hios. by apply dict_set_keys_NoDup.
  - rewrite Hios. apply consistent_set_new; [by apply consistent_eta|done..].
  - intros k r. unfold registered, index. rewrite Hios, Hheap. cbn.
    rewrite dict_get_set. destruct (decide (key = k)) as [<-|Hne].
    + intros [= <-]. rewrite lookup_insert_eq. by eexists.
    + intros Hreg. apply Hobj in Hreg as [io' Hio].
      rewrite lookup_insert_ne; [by eexists|].
      intros <-. apply elem_of_dom_2 in Hio. by apply is_fresh in Hio.
Qed.

(** [get_or_create_io] always returns a resource; the resource is in the
    index under the key of the call, the index stays well formed, and what
    was in the index before still is. *)
Lemma get_or_create_io_post g p lf (a : D) w :
  index_wf w →
  ∃ io_, (get_or_create_io g p lf a w).1 = Ok io_
         ∧ index_wf (get_or_create_io g p lf a w).2
         ∧ registered (get_or_create_io g p lf a w).2 (_get_io_key g p) io_
         ∧ ∀ key r, registered w key r →
                    registered (get_or_create_io g p lf a w).2 key r.
Proof.
  intros Hwf.
  destruct (dict_get (_get_io_key g p) (index w)) as [io_|] eqn:Hget.
  - exists io_. by rewrite (get_or_create_io_existing g p lf a w io_).
  - exists (fresh (dom (io_heap w))). rewrite get_or_create_io_new by done.
    split_and!; [done|by eapply (index_wf_created (_get_io_key g p))| |].
    + unfold registered, index. cbn. rewrite dict_get_set.
      by rewrite decide_True.
    + intros key r Hreg. unfold registered, index. cbn.
      rewrite dict_get_set. destruct (decide _) as [<-|]; [|done].
      unfold registered in Hreg. congruence.
Qed.

(** The load hook fails on a resource that this call has created. *)
Lemma new_spec_load_fails_fresh g p sa ia what w :
  dict_get (_get_io_key g p) (index w) = None →
  on_load_value hooks ia sa = inl what →
  new_spec hooks g p sa ia w
  = (Raise (HookError what),
     mkWorld
       (mkManager
          (mk (dict_del (_get_io_key g p)
                 (dict_set (_get_io_key g p) (fresh (dom (io_heap w)))
                    (index w)))
              (delete (fresh (dom (io_heap w)))
                 (<[fresh (dom (io_heap w)) := _get_io_key g p]>
                    (inverse (ios (manager w))))))
          (serializing (manager w)))
       (<[fresh (dom (io_heap w)) := mkIO p [] None ia]> (io_heap w))
       (<[fresh (dom (spec_heap w))
            := mkSpec PyManager (PyIO (fresh (dom (io_heap w)))) None sa]>
          (spec_heap w))
       (trace w ++ [EvSetItem (_get_io_key g p) (fresh (dom (io_heap w)));
                    EvOnLoadValue (fresh (dom (spec_heap w)));
                    EvDelItem (_get_io_key g p)])).
Proof.
  intros Hfree Hload. unfold new_spec. m_step.
  rewrite !lookup_insert_eq. cbn.
  rewrite get_or_create_io_new by done. cbn.
  rewrite !lookup_insert_eq. cbn.
  unfold _on_load_value. m_step.
  repeat (rewrite lookup_insert_eq; cbn). rewrite Hload. cbn.
  repeat (rewrite lookup_insert_eq; cbn).
  rewrite (ios_delitem_run (_get_io_key g p) (fresh (dom (io_heap w)))
             (_get_io_key g p)).
  - cbn. unfold index. rewrite !insert_insert_eq, <- !app_assoc. done.
  - unfold registered, index. cbn. rewrite dict_get_set.
    by rewrite decide_True.
  - cbn. by rewrite lookup_insert_eq.
Qed.

(** The load hook returns on a resource that this call has created: the new
    spec becomes its only dependent. *)
Lemma new_spec_load_ok_fresh g p sa ia v w :
  dict_get (_get_io_key g p) (index w) = None →
  on_load_value hooks ia sa = inr v →
  new_spec hooks g p sa ia w
  = (Ok (fresh (dom (spec_heap w))),
     mkWorld
       (mkManager
          (mk (dict_set (_get_io_key g p) (fresh (dom (io_heap w))) (index w))
              (<[fresh (dom (io_heap w)) := _get_io_key g p]>
                 (inverse (ios (manager w)))))
          (serializing (manager w)))
       (<[fresh (dom (io_heap w))
            := mkIO p [fresh (dom (spec_heap w))] None ia]> (io_heap w))
       (<[fresh (dom (spec_heap w))
            := mkSpec PyManager (PyIO (fresh (dom (io_heap w)))) None v]>
          (spec_heap w))
       (trace w ++ [EvSetItem (_get_io_key g p) (fresh (dom (io_heap w)));
                    EvOnLoadValue (fresh (dom (spec_heap w)))])).
Proof.
  intros Hfree Hload. unfold new_spec. m_step.
  rewrite !lookup_insert_eq. cbn.
  rewrite get_or_create_io_new by done. cbn.
  rewrite !lookup_insert_eq. cbn.
  unfold _on_load_value. m_step.
  repeat (rewrite lookup_insert_eq; cbn). rewrite Hload. cbn.
  repeat (rewrite lookup_insert_eq; cbn).
  unfold add_spec, _can_add_spec. m_step.
  repeat (rewrite lookup_insert_eq; cbn).
  rewrite bool_decide_eq_false_2 by apply not_elem_of_nil. cbn.
  repeat (rewrite lookup_insert_eq; cbn).
  unfold index. rewrite !insert_insert_eq, <- !app_assoc. done.
Qed.

(** A call that finds its resource in the index either returns the new spec,
    leaving the index alone and the resource with the new spec among its
    dependents or as it was, or raises; when it raises and the resource has
    dependents, neither the index nor any resource has changed. *)
Lemma new_spec_existing g p sa ia io_ io w :
  registered w (_get_io_key g p) io_ → io_heap w !! io_ = Some io →
  ((new_spec hooks g p sa ia w).1 = Ok (fresh (dom (spec_heap w)))
   ∧ manager (new_spec hooks g p sa ia w).2 = manager w
   ∧ (io_heap (new_spec hooks g p sa ia w).2 = io_heap w
      ∨ io_heap (new_spec hooks g p sa ia w).2
        = <[io_ := mkIO (_path io) (_specs io ++ [fresh (dom (spec_heap w))])
                        (_load_from io) (io_data io)]> (io_heap w))
   ∧ ∃ v, spec_heap (new_spec hooks g p sa ia w).2
          = <[fresh (dom (spec_heap w)) := mkSpec PyManager (PyIO io_) None v]>
              (spec_heap w))
  ∨ ((∃ e, (new_spec hooks g p sa ia w).1 = Raise e)
     ∧ (_specs io ≠ [] →
        manager (new_spec hooks g p sa ia w).2 = manager w
        ∧ io_heap (new_spec hooks g p sa ia w).2 = io_heap w)).
Proof.
  intros Hreg Hio. unfold new_spec. m_step.
  rewrite !lookup_insert_eq. cbn.
  rewrite (get_or_create_io_existing g p None ia _ io_) by exact Hreg. cbn.
  rewrite !lookup_insert_eq. cbn.
  unfold _on_load_value. m_step.
  repeat (rewrite lookup_insert_eq; cbn). rewrite Hio. cbn.
  destruct (on_load_value hooks (io_data io) sa) as [what|v]; cbn;
    repeat (rewrite lookup_insert_eq; cbn).
  - right. rewrite Hio. cbn. destruct (_specs io) as [|c cs]; cbn.
    + split; [|done].
      destruct (ios_delitem _ _) as [[[]|e] w4]; cbn; by eexists.
    + split; [by eexists|done].
  - match goal with
    | |- context [add_spec hooks ?a ?b ?W] =>
        destruct (add_spec_cases a b W) as [Hsame|(io' & Hio' & _ & Hrun)]
    end.
    + destruct (add_spec hooks _ _ _) as [[[]|e] w4]; simpl in Hsame;
        subst w4; cbn; repeat (rewrite lookup_insert_eq; cbn).
      * left. rewrite !insert_insert_eq.
        split_and!; [done|done|by left|by eexists].
      * right. rewrite Hio. cbn. destruct (_specs io) as [|c cs]; cbn.
        -- split; [|done].
           destruct (ios_delitem _ _) as [[[]|e'] w4]; cbn; by eexists.
        -- split; [by eexists|done].
    + left. rewrite Hrun. cbn. cbn in Hio'. rewrite Hio in Hio'.
      injection Hio' as <-. rewrite !insert_insert_eq.
      split_and!; [done|done|by right|by eexists].
Qed.

(** A call that returns: the new spec is bound to a resource of the index
    under the key of the call, the index is well formed, and what was in
    the index before still is. *)
Lemma new_spec_ok g p sa ia spec w :
  index_wf w → (new_spec hooks g p sa ia w).1 = Ok spec →
  index_wf (new_spec hooks g p sa ia w).2
  ∧ (∀ key r, registered w key r →
              registered (new_spec hooks g p sa ia w).2 key r)
  ∧ (∀ s0 sp0, spec_heap w !! s0 = Some sp0 →
               spec_heap (new_spec hooks g p sa ia w).2 !! s0 = Some sp0)
  ∧ ∃ sp io_, spec_heap (new_spec hooks g p sa ia w).2 !! spec = Some sp
              ∧ _io sp = PyIO io_
              ∧ registered (new_spec hooks g p sa ia w).2 (_get_io_key g p) io_.
Proof.
  intros Hwf Hok.
  assert (∀ s0 sp0 sp, spec_heap w !! s0 = Some sp0 →
            <[fresh (dom (spec_heap w)) := sp]> (spec_heap w) !! s0 = Some sp0)
    as Hold.
  { intros s0 sp0 sp Hs0. rewrite lookup_insert_ne; [done|].
    intros <-. apply elem_of_dom_2 in Hs0. by apply is_fresh in Hs0. }
  destruct (dict_get (_get_io_key g p) (index w)) as [io_|] eqn:Hget.
  - pose proof Hwf as (_ & _ & Hobj). destruct (Hobj _ _ Hget) as [io Hio].
    destruct (new_spec_existing g p sa ia io_ io w Hget Hio)
      as [(Hres & Hm & Hheap & v & Hsh)|[[e He] _]]; [|congruence].
    assert (spec = fresh (dom (spec_heap w))) as -> by congruence.
    assert (∀ key r, registered w key r →
                     registered (new_spec hooks g p sa ia w).2 key r) as Hkeep.
    { intros key r. unfold registered, index. by rewrite Hm. }
    split_and!; [|done| |].
    + apply (index_wf_ext w); [by rewrite Hm| |done].
      intros r Hr. destruct Hheap as [->| ->]; [done|].
      by apply lookup_insert_is_Some'; right.
    + intros s0 sp0 Hs0. rewrite Hsh. by apply Hold.
    + eexists _, io_. rewrite Hsh, lookup_insert_eq.
      split_and!; [done|done|by apply Hkeep].
  - destruct (on_load_value hooks ia sa) as [what|v] eqn:Hload.
    { by rewrite (new_spec_load_fails_fresh g p sa ia what) in Hok. }
    rewrite (new_spec_load_ok_fresh g p sa ia v) in Hok |- * by done.
    injection Hok as <-. split_and!.
    + by eapply (index_wf_created (_get_io_key g p)).
    + intros key r Hreg. unfold registered, index. cbn.
      rewrite dict_get_set. destruct (decide _) as [<-|]; [|done].
      unfold registered in Hreg. congruence.
    + intros s0 sp0 Hs0. cbn. by apply Hold.
    + eexists _, (fresh (dom (io_heap w))). cbn. rewrite lookup_insert_eq.
      split_and!; [done|done|].
      unfold registered, index. cbn. rewrite dict_get_set.
      by rewrite decide_True.
Qed.

(** *** restore_io *)

(** [restore_io] of a resource that the index does not hold, which is how
    [restore_state] uses it, keeps the index well formed. *)
Lemma restore_io_unregistered g io_ io w :
  index_wf w → io_heap w !! io_ = Some io →
  inverse (ios (manager w)) !! io_ = None →
  (restore_io g io_ w).1 = Ok tt ∧ index_wf (restore_io g io_ w).2.
Proof.
  intros Hwf Hio Hinv. unfold restore_io, _get_io. m_step.
  rewrite Hio. cbn.
  destruct (dict_get (_get_io_key g (_path io)) (items (ios (manager w))))
    as [other|] eqn:Hget; cbn; [done|].
  rewrite ios_setitem_absent by done. split; [done|].
  destruct Hwf as (Hnd & Hc & Hobj). split_and!.
  - by apply dict_set_keys_NoDup.
  - lazy beta iota delta [snd manager ios].
    apply consistent_set_new; [by apply consistent_eta|done..].
  - intros key r. unfold registered, index. cbn. rewrite dict_get_set.
    destruct (decide _) as [<-|]; [|by apply Hobj].
    intros [= <-]. by eexists.
Qed.

(** *** del_spec *)

(** The key that the scan of [_del_io] finds is the key of the resource. *)
Lemma find_registered key io_ w :
  NoDup (keys (ios (manager w))) → consistent (ios (manager w)) →
  registered w key io_ →
  find (λ kv, bool_decide (kv.2 = io_)) (index w) = Some (key, io_).
Proof.
  intros Hnd Hc Hreg.
  destruct (find _ (index w)) as [[k v]|] eqn:Hfind.
  - apply find_value_Some in Hfind as [-> Hin].
    apply elem_of_dict_get in Hin; [|done].
    apply Hc in Hin. apply Hc in Hreg. congruence.
  - by apply find_value_None with (k := key) in Hfind.
Qed.

Lemma del_spec_remaining spec sp io_ io w :
  spec_heap w !! spec = Some sp → _io sp = PyIO io_ →
  io_heap w !! io_ = Some io → spec ∈ _specs io →
  filter (λ c, c ≠ spec) (_specs io) ≠ [] →
  del_spec spec w
  = (Ok tt,
     mkWorld (manager w)
       (<[io_ := mkIO (_path io) (filter (λ c, c ≠ spec) (_specs io))
                      (_load_from io) (io_data io)]> (io_heap w))
       (spec_heap w) (trace w)).
Proof.
  intros Hsp Hio Hheap Hin Hrest. unfold del_spec. m_step.
  rewrite Hsp. cbn. rewrite Hio. m_step. rewrite Hheap. cbn.
  rewrite bool_decide_eq_true_2 by done. cbn.
  rewrite lookup_insert_eq. cbn.
  by destruct (filter _ (_specs io)).
Qed.

Lemma del_spec_last spec sp io_ io key w :
  spec_heap w !! spec = Some sp → _io sp = PyIO io_ →
  io_heap w !! io_ = Some io → spec ∈ _specs io →
  filter (λ c, c ≠ spec) (_specs io) = [] →
  index_wf w → registered w key io_ →
  del_spec spec w
  = (Ok tt,
     mkWorld
       (mkManager (mk (dict_del key (index w))
                      (delete io_ (inverse (ios (manager w)))))
                  (serializing (manager w)))
       (<[io_ := mkIO (_path io) [] (_load_from io) (io_data io)]> (io_heap w))
       (spec_heap w) (trace w ++ [EvDelItem key])).
Proof.
  intros Hsp Hio Hheap Hin Hrest (Hnd & Hc & _) Hreg. unfold del_spec. m_step.
  rewrite Hsp. cbn. rewrite Hio. m_step. rewrite Hheap. cbn.
  rewrite bool_decide_eq_true_2 by done. cbn.
  rewrite lookup_insert_eq. cbn. rewrite Hrest.
  unfold _del_io. m_step. rewrite lookup_insert_eq. cbn.
  pose proof (find_registered key io_ w Hnd Hc Hreg) as Hfind.
  unfold index in Hfind. rewrite Hfind.
  by rewrite (ios_delitem_present key io_).
Qed.

(** *** How the invariants survive the changes that the operations make *)

(** The index is the same, and every resource in it is still an object with
    dependents. *)
Lemma invariants_frame w w' :
  ios (manager w') = ios (manager w) →
  (∀ key r io, registered w key r → io_heap w !! r = Some io → _specs io ≠ [] →
     ∃ io', io_heap w' !! r = Some io' ∧ _specs io' ≠ []) →
  index_wf w → no_orphan w → index_wf w' ∧ no_orphan w'.
Proof.
  intros Hios Hheap (Hnd & Hc & Hobj) Hno.
  assert (∀ key r, registered w' key r → registered w key r) as Hreg.
  { intros key r. unfold registered, index. by rewrite Hios. }
  split.
  - split_and!; [by rewrite Hios|by rewrite Hios|].
    intros key r Hr%Hreg. destruct (Hobj key r Hr) as [io Hio].
    destruct (Hheap key r io Hr Hio (Hno key r io Hr Hio)) as (io' & -> & _).
    by eexists.
  - intros key r io' Hr%Hreg Hio'. destruct (Hobj key r Hr) as [io Hio].
    destruct (Hheap key r io Hr Hio (Hno key r io Hr Hio)) as (io'' & Hio'' & ?).
    congruence.
Qed.

(** A new resource with dependents has been stored under a free key. *)
Lemma invariants_created key io w w' :
  dict_get key (index w) = None →
  ios (manager w')
  = mk (dict_set key (fresh (dom (io_heap w))) (index w))
       (<[fresh (dom (io_heap w)) := key]> (inverse (ios (manager w)))) →
  io_heap w' = <[fresh (dom (io_heap w)) := io]> (io_heap w) →
  _specs io ≠ [] →
  index_wf w → no_orphan w → index_wf w' ∧ no_orphan w'.
Proof.
  intros Hfree Hios Hheap Hspecs Hwf Hno.
  pose proof (fresh_not_in_inverse w Hwf) as Hinv.
  destruct Hwf as (Hnd & Hc & Hobj).
  assert (∀ k r, registered w' k r →
            (k = key ∧ r = fresh (dom (io_heap w)))
            ∨ (r ≠ fresh (dom (io_heap w)) ∧ registered w k r)) as Hreg.
  { intros k r. unfold registered, index. rewrite Hios. cbn.
    rewrite dict_get_set. destruct (decide (key = k)) as [<-|].
    - intros [= <-]. by left.
    - intros Hr. right. split; [|done]. intros ->.
      apply Hobj in Hr. apply elem_of_dom in Hr. by apply is_fresh in Hr. }
  split.
  - split_and!.
    + rewrite Hios. by apply dict_set_keys_NoDup.
    + rewrite Hios. apply consistent_set_new; [by apply consistent_eta|done..].
    + intros k r [[-> ->]|[Hne Hr]]%Hreg; rewrite Hheap.
      * rewrite lookup_insert_eq. by eexists.
      * rewrite lookup_insert_ne by done. by eapply Hobj.
  - intros k r io' [[-> ->]|[Hne Hr]]%Hreg; rewrite Hheap.
    + rewrite lookup_insert_eq. by intros [= <-].
    + rewrite lookup_insert_ne by done. by eapply Hno.
Qed.

(** A new resource has been stored under a free key and deleted again. *)
Lemma invariants_rolled_back key io w w' :
  dict_get key (index w) = None →
  ios (manager w')
  = mk (dict_del key (dict_set key (fresh (dom (io_heap w))) (index w)))
       (delete (fresh (dom (io_heap w)))
          (<[fresh (dom (io_heap w)) := key]> (inverse (ios (manager w))))) →
  io_heap w' = <[fresh (dom (io_heap w)) := io]> (io_heap w) →
  index_wf w → no_orphan w → index_wf w' ∧ no_orphan w'.
Proof.
  intros Hfree Hios Hheap Hwf Hno.
  pose proof (fresh_not_in_inverse w Hwf) as Hinv.
  destruct Hwf as (Hnd & Hc & Hobj).
  assert (∀ k r, registered w' k r →
            r ≠ fresh (dom (io_heap w)) ∧ registered w k r) as Hreg.
  { intros k r. unfold registered, index. rewrite Hios. cbn.
    rewrite dict_get_del, dict_get_set.
    destruct (decide (key = k)) as [<-|]; [done|].
    intros Hr. split; [|done]. intros ->.
    apply Hobj in Hr. apply elem_of_dom in Hr. by apply is_fresh in Hr. }
  split.
  - split_and!.
    + rewrite Hios. by apply dict_del_keys_NoDup, dict_set_keys_NoDup.
    + rewrite Hios. apply consistent_del.
      * apply consistent_set_new; [by apply consistent_eta|done..].
      * rewrite dict_get_set. by rewrite decide_True.
    + intros k r [Hne Hr]%Hreg. rewrite Hheap.
      rewrite lookup_insert_ne by done. by eapply Hobj.
  - intros k r io' [Hne Hr]%Hreg. rewrite Hheap.
    rewrite lookup_insert_ne by done. by eapply Hno.
Qed.

(** The key of a resource has been deleted. *)
Lemma invariants_retired key r io w w' :
  registered w key r →
  ios (manager w')
  = mk (dict_del key (index w)) (delete r (inverse (ios (manager w)))) →
  io_heap w' = <[r := io]> (io_heap w) →
  index_wf w → no_orphan w → index_wf w' ∧ no_orphan w'.
Proof.
  intros Hkey Hios Hheap (Hnd & Hc & Hobj) Hno.
  assert (∀ k r', registered w' k r' → r' ≠ r ∧ registered w k r') as Hreg.
  { intros k r'. unfold registered, index. rewrite Hios. cbn.
    rewrite dict_get_del. destruct (decide (key = k)) as [<-|Hne]; [done|].
    intros Hr. split; [|done]. intros ->.
    apply Hc in Hr, Hkey. congruence. }
  split.
  - split_and!.
    + rewrite Hios. by apply dict_del_keys_NoDup.
    + rewrite Hios. apply consistent_del; [by apply consistent_eta|done].
    + intros k r' [Hne Hr]%Hreg. rewrite Hheap.
      rewrite lookup_insert_ne by done. by eapply Hobj.
  - intros k r' io' [Hne Hr]%Hreg. rewrite Hheap.
    rewrite lookup_insert_ne by done. by eapply Hno.
Qed.

(** A resource has moved to a free key and kept its dependents. *)
Lemma invariants_moved key_old key r io io' w w' :
  inverse (ios (manager w)) !! r = Some key_old →
  dict_get key (index w) = None →
  io_heap w !! r = Some io → _specs io' = _specs io →
  ios (manager w')
  = mk (dict_set key r (dict_del key_old (index w)))
       (<[r := key]> (delete r (inverse (ios (manager w))))) →
  io_heap w' = <[r := io']> (io_heap w) →
  index_wf w → no_orphan w → index_wf w' ∧ no_orphan w'.
Proof.
  intros Hinv Hfree Hio Hspecs Hios Hheap (Hnd & Hc & Hobj) Hno.
  assert (registered w key_old r) as Hold by by apply Hc.
  assert (key ≠ key_old) as Hkey.
  { intros ->. unfold registered in Hold. congruence. }
  assert (∀ k r', registered w' k r' →
            (k = key ∧ r' = r) ∨ (r' ≠ r ∧ registered w k r')) as Hreg.
  { intros k r'. unfold registered, index. rewrite Hios. cbn.
    rewrite dict_get_set, dict_get_del.
    destruct (decide (key = k)) as [<-|]; [intros [= <-]; by left|].
    destruct (decide (key_old = k)) as [<-|Hne]; [done|].
    intros Hr. right. split; [|done]. intros ->.
    apply Hc in Hr. congruence. }
  split.
  - split_and!.
    + rewrite Hios. apply dict_set_keys_NoDup.
      * rewrite dict_get_del. by destruct (decide _).
      * by apply dict_del_keys_NoDup.
    + rewrite Hios. apply (consistent_move key_old);
        [by apply consistent_eta|done..].
    + intros k r' [[-> ->]|[Hne Hr]]%Hreg; rewrite Hheap.
      * rewrite lookup_insert_eq. by eexists.
      * rewrite lookup_insert_ne by done. by eapply Hobj.
  - intros k r' io'' [[-> ->]|[Hne Hr]]%Hreg; rewrite Hheap.
    + rewrite lookup_insert_eq. intros [= <-]. rewrite Hspecs.
      by eapply Hno.
    + rewrite lookup_insert_ne by done. by eapply Hno.
Qed.

Lemma invariants_same w w' :
  manager w' = manager w → io_heap w' = io_heap w →
  index_wf w → no_orphan w → index_wf w' ∧ no_orphan w'.
Proof.
  intros Hm Hheap. apply invariants_frame; [by rewrite Hm|].
  intros key r io _ Hio Hspecs. exists io. by rewrite Hheap.
Qed.

(** One resource has been replaced, and has dependents if it had. *)
Lemma invariants_io_updated r io io' w w' :
  manager w' = manager w → io_heap w !! r = Some io →
  io_heap w' = <[r := io']> (io_heap w) →
  (_specs io ≠ [] → _specs io' ≠ []) →
  index_wf w → no_orphan w → index_wf w' ∧ no_orphan w'.
Proof.
  intros Hm Hio Hheap Hspecs. apply invariants_frame; [by rewrite Hm|].
  intros key r0 io0 _ Hio0 Hspecs0. rewrite Hheap.
  destruct (decide (r = r0)) as [<-|Hne].
  - exists io'. rewrite lookup_insert_eq. split; [done|].
    apply Hspecs. congruence.
  - exists io0. by rewrite lookup_insert_ne.
Qed.

(** *** Every operation on specs keeps the invariants *)

Lemma add_spec_preserves io_ spec w :
  index_wf w → no_orphan w →
  index_wf (add_spec hooks io_ spec w).2 ∧ no_orphan (add_spec hooks io_ spec w).2.
Proof.
  intros Hwf Hno.
  destruct (add_spec_cases io_ spec w) as [->|(io & Hio & _ & ->)]; [done|].
  apply (invariants_io_updated io_ io
           (mkIO (_path io) (_specs io ++ [spec]) (_load_from io) (io_data io)) w);
    try done.
  intros _. cbn. by destruct (_specs io).
Qed.

Lemma new_spec_preserves g p sa ia w :
  index_wf w → no_orphan w →
  index_wf (new_spec hooks g p sa ia w).2
  ∧ no_orphan (new_spec hooks g p sa ia w).2.
Proof.
  intros Hwf Hno.
  destruct (dict_get (_get_io_key g p) (index w)) as [io_|] eqn:Hget.
  - destruct Hwf as (Hnd & Hc & Hobj).
    destruct (Hobj _ _ Hget) as [io Hio].
    pose proof (Hno _ _ _ Hget Hio) as Hspecs.
    destruct (new_spec_existing g p sa ia io_ io w Hget Hio)
      as [(_ & Hm & [Hheap|Hheap] & _)|[_ Hsame]].
    + by apply (invariants_same w).
    + apply (invariants_io_updated io_ io
               (mkIO (_path io) (_specs io ++ [fresh (dom (spec_heap w))])
                     (_load_from io) (io_data io)) w); try done.
      intros _. cbn. by destruct (_specs io).
    + destruct (Hsame Hspecs). by apply (invariants_same w).
  - destruct (on_load_value hooks ia sa) as [what|v] eqn:Hload.
    + rewrite (new_spec_load_fails_fresh g p sa ia what) by done.
      by eapply (invariants_rolled_back (_get_io_key g p)).
    + rewrite (new_spec_load_ok_fresh g p sa ia v) by done.
      by eapply (invariants_created (_get_io_key g p)).
Qed.

Lemma update_path_preserves io_ path w :
  index_wf w → no_orphan w →
  index_wf (update_path io_ path w).2 ∧ no_orphan (update_path io_ path w).2.
Proof.
  intros Hwf Hno.
  destruct (inverse (ios (manager w)) !! io_) as [[group path_old]|] eqn:Hinv.
  - destruct (decide (path = path_old)) as [->|Hne].
    { by rewrite (update_path_same io_ group path_old). }
    destruct (dict_get (_get_io_key group path) (index w)) as [other|] eqn:Hget.
    { by rewrite (update_path_occupied io_ group path_old path other). }
    pose proof Hwf as (Hnd & Hc & Hobj).
    destruct (Hobj (group, path_old) io_) as [io Hio]; [by apply Hc|].
    rewrite (update_path_moves io_ io group path_old path) by done.
    apply (invariants_moved (group, path_old) (_get_io_key group path)
             io_ io (mkIO path (_specs io) (_load_from io) (io_data io)) w);
      try done.
  - unfold update_path. m_step. by rewrite Hinv.
Qed.

Lemma update_spec_value_preserves spec value kwargs w :
  index_wf w → no_orphan w →
  index_wf (update_spec_value hooks spec value kwargs w).2
  ∧ no_orphan (update_spec_value hooks spec value kwargs w).2.
Proof.
  intros Hwf Hno. unfold update_spec_value. m_step.
  destruct (spec_heap w !! spec) as [sp|] eqn:Hsp; cbn; [|done].
  destruct (can_update_value _ _ _ _); cbn; [|done].
  unfold io__on_update_value, _on_update_value.
  destruct (_io sp) as [| | |io_|]; m_step; try done.
  destruct (io_heap w !! io_) as [io|] eqn:Hio; m_step;
    [|by apply (invariants_same w)].
  destruct (io_on_update_value _ _ _ _) as [what|d]; m_step;
    [by apply (invariants_same w)|].
  rewrite Hsp. cbn.
  destruct (on_update_value _ _ _ _); cbn;
    by apply (invariants_io_updated io_ io
                (mkIO (_path io) (_specs io) (_load_from io) d) w).
Qed.

Lemma del_spec_preserves spec w :
  index_wf w → no_orphan w →
  index_wf (del_spec spec w).2 ∧ no_orphan (del_spec spec w).2.
Proof.
  intros Hwf Hno.
  destruct (spec_heap w !! spec) as [sp|] eqn:Hsp;
    [|unfold del_spec; m_step; by rewrite Hsp].
  destruct (_io sp) as [| | |io_|] eqn:Hsio;
    try (unfold del_spec; m_step; rewrite Hsp; cbn; by rewrite Hsio).
  destruct (io_heap w !! io_) as [io|] eqn:Hio;
    [|unfold del_spec; m_step; rewrite Hsp; cbn; rewrite Hsio; m_step;
      by rewrite Hio].
  destruct (decide (spec ∈ _specs io)) as [Hin|Hin];
    [|unfold del_spec; m_step; rewrite Hsp; cbn; rewrite Hsio; m_step;
      rewrite Hio; cbn; by rewrite bool_decide_eq_false_2].
  destruct (filter (λ c, c ≠ spec) (_specs io)) as [|c cs] eqn:Hrest.
  - destruct (find (λ kv, bool_decide (kv.2 = io_)) (index w))
      as [[key v]|] eqn:Hfind.
    + pose proof Hwf as (Hnd & Hc & _).
      apply find_value_Some in Hfind as [-> Hkey].
      apply elem_of_dict_get in Hkey; [|done].
      rewrite (del_spec_last spec sp io_ io key) by done.
      by eapply (invariants_retired key io_).
    + unfold del_spec. m_step. rewrite Hsp. cbn. rewrite Hsio. m_step.
      rewrite Hio. cbn. rewrite bool_decide_eq_true_2 by done. cbn.
      rewrite lookup_insert_eq. cbn. rewrite Hrest.
      unfold _del_io. m_step. rewrite lookup_insert_eq. cbn.
      unfold index in Hfind. rewrite Hfind. cbn.
      apply (invariants_frame w); [done| |done|done].
      intros key r io0 Hreg Hio0 Hspecs. cbn.
      rewrite lookup_insert_ne; [by exists io0|].
      intros <-. by apply (find_value_None io_ _ Hfind key).
  - rewrite (del_spec_remaining spec sp io_ io) by (done || by rewrite Hrest).
    apply (invariants_io_updated io_ io
             (mkIO (_path io) (filter (λ c, c ≠ spec) (_specs io))
                   (_load_from io) (io_data io)) w); try done.
    intros _. cbn. by rewrite Hrest.
Qed.

Lemma index_wf_initial : index_wf (initial_world (V := V) (K := K) (D := D)).
Proof.
  split_and!.
  - apply NoDup_nil_2.
  - apply consistent_empty.
  - intros key io_ Hreg. done.
Qed.

(** The states that the operations on specs reach from the new manager. *)
Lemma reachable_invariants w :
  reachable hooks w → index_wf w ∧ no_orphan w.
Proof.
  induction 1 as [|w o _ [Hwf Hno]].
  - split; [apply index_wf_initial|]. intros key io_ io Hreg. done.
  - destruct o; cbn.
    + by apply new_spec_preserves.
    + by apply add_spec_preserves.
    + by apply del_spec_preserves.
    + by apply update_spec_value_preserves.
    + by apply update_path_preserves.
Qed.

(** *** __setstate__: the fields written by the base class *)

Lemma setstate_fields self state w sp m d :
  spec_heap w !! self = Some sp →
  state !! "manager" = Some m →
  match state !! "_io" with Some v => Some v | None => state !! "_data" end
    = Some d →
  ∃ v, spec_heap (__setstate__ hooks self state w).2 !! self
       = Some (mkSpec m d
                 (Some match state !! "is_hidden" with
                       | Some h => h
                       | None => PyBool false
                       end) v).
Proof.
  intros Hsp Hm Hd. unfold __setstate__. m_step.
  rewrite Hsp, Hm. cbn.
  assert (∀ w0 : World V K D,
    (match state !! "_io" with
     | Some v => λ w1, (Ok v, w1)
     | None => match state !! "_data" with
               | Some v => λ w1, (Ok v, w1)
               | None => λ w1, (Raise KeyError, w1)
               end
     end) w0 = (Ok d, w0)) as Hread.
  { intros w0. destruct (state !! "_io"); [by injection Hd as ->|].
    by rewrite Hd. }
  rewrite Hread. cbn. rewrite !lookup_insert_eq. cbn.
  destruct m; m_step; try (rewrite lookup_insert_eq; by eexists).
  destruct (serializing (manager w)) as [[|]|]; m_step.
  - destruct (on_unserialize _ _ _); m_step;
      [rewrite lookup_insert_eq; by eexists|].
    destruct d; m_step; try (rewrite lookup_insert_eq; by eexists).
    rewrite add_spec_spec_heap. cbn. rewrite lookup_insert_eq. by eexists.
  - destruct (on_unpickle _ _ _); m_step; rewrite lookup_insert_eq; by eexists.
  - rewrite lookup_insert_eq; by eexists.
Qed.

End ManagerFacts.

(** ** Serialization of specs *)

Section SerializationFacts.
Context {V K D : Type} (hooks : Hooks V K D).
Implicit Types (w : World V K D).

Lemma getstate_unset_raises self sp w :
  spec_heap w !! self = Some sp → _manager sp = PyManager →
  serializing (manager w) = None →
  __getstate__ hooks self w = (Raise (RuntimeError "must not happen"), w).
Proof.
  intros Hsp Hm Hmode. unfold __getstate__. m_step.
  rewrite Hsp. cbn. rewrite Hm. m_step. by rewrite Hmode.
Qed.

Lemma setstate_unset_returns self sp state v w :
  spec_heap w !! self = Some sp →
  state !! "manager" = Some PyManager →
  state !! "_io" = Some v →
  serializing (manager w) = None →
  (__setstate__ hooks self state w).1 = Ok tt.
Proof.
  intros Hsp Hm Hio Hmode. unfold __setstate__. m_step.
  rewrite Hsp, Hm. cbn. rewrite Hio. cbn.
  rewrite !lookup_insert_eq. m_step. by rewrite Hmode.
Qed.

(** In portable mode [__setstate__] puts the spec among the dependents of the
    resource named by the state; in snapshot mode it does not touch them. *)
Lemma setstate_portable_registers self sp state io_ io v w :
  spec_heap w !! self = Some sp →
  state !! "manager" = Some PyManager → state !! "_io" = Some (PyIO io_) →
  serializing (manager w) = Some true →
  on_unserialize hooks (spec_value sp) state = inr v →
  io_heap w !! io_ = Some io → _specs io = [] →
  __setstate__ hooks self state w
  = (Ok tt,
     mkWorld (manager w)
       (<[io_ := mkIO (_path io) [self] (_load_from io) (io_data io)]>
          (io_heap w))
       (<[self := mkSpec PyManager (PyIO io_)
                    (Some match state !! "is_hidden" with
                          | Some h => h
                          | None => PyBool false
                          end) v]> (spec_heap w))
       (trace w)).
Proof.
  intros Hsp Hm Hio Hmode Hhook Hheap Hspecs. unfold __setstate__. m_step.
  rewrite Hsp, Hm. cbn. rewrite Hio. cbn.
  repeat (rewrite lookup_insert_eq; cbn). m_step. rewrite Hmode, Hhook. cbn.
  unfold add_spec, _can_add_spec. m_step. rewrite Hheap. cbn.
  rewrite Hspecs. rewrite bool_decide_eq_false_2 by apply not_elem_of_nil.
  cbn. rewrite Hheap. cbn. rewrite Hspecs. cbn.
  by rewrite !insert_insert_eq.
Qed.

Lemma setstate_snapshot_keeps_dependents self sp state d w :
  spec_heap w !! self = Some sp →
  state !! "manager" = Some PyManager → state !! "_io" = Some d →
  serializing (manager w) = Some false →
  io_heap (__setstate__ hooks self state w).2 = io_heap w
  ∧ manager (__setstate__ hooks self state w).2 = manager w.
Proof.
  intros Hsp Hm Hio Hmode. unfold __setstate__. m_step.
  rewrite Hsp, Hm. cbn. rewrite Hio. cbn.
  repeat (rewrite lookup_insert_eq; cbn). m_step. rewrite Hmode.
  by destruct (on_unpickle _ _ _).
Qed.

End SerializationFacts.

(** C10.  A state without the "_io" field gives the bound resource from the
    older "_data" field, and a state without the "is_hidden" field gives
    the hidden flag False; both hold whatever the mode and whatever the
    hooks that run afterwards do.  Without either resource field the read of
    "_data" fails with KeyError. *)
Theorem C10_setstate_legacy_state {V K D : Type} (hooks : Hooks V K D)
    (w : World V K D) (self : nat) (sp : BaseIOSpec V)
    (state : gmap string (pyval V)) (m : pyval V) :
  spec_heap w !! self = Some sp →
  state !! "manager" = Some m →
  (state !! "_io" = None →
     (∀ d, state !! "_data" = Some d →
        ∃ sp', spec_heap (__setstate__ hooks self state w).2 !! self = Some sp'
               ∧ _io sp' = d)
     ∧ (state !! "_data" = None →
        (__setstate__ hooks self state w).1 = Raise KeyError))
  ∧ (state !! "is_hidden" = None →
     is_Some (state !! "_io") ∨ is_Some (state !! "_data") →
     ∃ sp', spec_heap (__setstate__ hooks self state w).2 !! self = Some sp'
            ∧ _is_hidden sp' = Some (PyBool false)).
Proof.
  intros Hsp Hm. split.
  - intros Hio. split.
    + intros d Hd.
      destruct (setstate_fields hooks self state w sp m d) as [v Hv];
        [done|done|by rewrite Hio|].
      rewrite Hv. by eexists.
    + intros Hd. unfold __setstate__. m_step.
      rewrite Hsp, Hm. cbn. by rewrite Hio, Hd.
  - intros Hh Hsrc.
    assert (∃ d, match state !! "_io" with
                 | Some v => Some v
                 | None => state !! "_data"
                 end = Some d) as [d Hd].
    { destruct (state !! "_io") as [v|]; [by exists v|].
      destruct Hsrc as [[? [=]]|[d ->]]. by exists d. }
    destruct (setstate_fields hooks self state w sp m d) as [v Hv];
      [done..|].
    rewrite Hv, Hh. by eexists.
Qed.

Lemma C10_setstate_legacy_state_witness :
  let state : gmap string (pyval string) :=
    <["_data" := PyIO 0]> (<["manager" := PyManager]> ∅) in
  ∃ sp', spec_heap (__setstate__ Example.hooks 0 state Example.one_spec).2 !! 0
         = Some sp'
         ∧ _is_hidden sp' = Some (PyBool false).
Proof.
  intros state.
  refine (proj2 (C10_setstate_legacy_state Example.hooks Example.one_spec 0
                   (mkSpec PyManager (PyIO 0) None "table") state PyManager
                   _ _) _ _).
  - reflexivity.
  - reflexivity.
  - reflexivity.
  - right. exists (PyIO 0). reflexivity.
Defined.

(** C5.  With the mode unset, [__getstate__] raises, but [__setstate__]
    does not: it builds the RuntimeError without raising it and returns,
    with the fields of the spec already overwritten from the state. *)
Theorem C5_setstate_unset_mode_completes :
  let state : gmap string (pyval string) :=
    <["_io" := PyIO 0]> (<["manager" := PyManager]> ∅) in
  serializing (manager Example.one_spec) = None
  ∧ (__getstate__ Example.hooks 0 Example.one_spec).1
    = Raise (RuntimeError "must not happen")
  ∧ (__setstate__ Example.hooks 0 state Example.one_spec).1 = Ok tt
  ∧ spec_heap (__setstate__ Example.hooks 0 state Example.one_spec).2 !! 0
    = Some (mkSpec PyManager (PyIO 0) (Some (PyBool false)) "table").
Proof. vm_compute. done. Qed.

(** C8.  [update_spec_value] raises its rejection exactly when the spec's
    can-update predicate answers false, and then the world, including the
    record of calls, is the one before the call.  When the predicate holds
    and the spec is bound to a resource, the update hook of the resource is
    called first; the hook of the spec is called after it has returned, and
    not at all when it raised. *)
Theorem C8_update_spec_value_gate {V K D : Type} (hooks : Hooks V K D)
    (w : World V K D) (spec : nat) (sp : BaseIOSpec V) (value : V) (kwargs : K) :
  spec_heap w !! spec = Some sp →
  ((update_spec_value hooks spec value kwargs w).1
     = Raise (ValueError "does not allow to replace its value")
   ↔ can_update_value hooks (spec_value sp) value kwargs = false)
  ∧ (can_update_value hooks (spec_value sp) value kwargs = false →
     (update_spec_value hooks spec value kwargs w).2 = w)
  ∧ (can_update_value hooks (spec_value sp) value kwargs = true →
     ∀ io_ io, _io sp = PyIO io_ → io_heap w !! io_ = Some io →
       match io_on_update_value hooks (io_data io) value kwargs with
       | inl what =>
           update_spec_value hooks spec value kwargs w
           = (Raise (HookError what),
              mkWorld (manager w) (io_heap w) (spec_heap w)
                      (trace w ++ [EvIOOnUpdateValue io_ value kwargs]))
       | inr d =>
           trace (update_spec_value hooks spec value kwargs w).2
           = trace w ++ [EvIOOnUpdateValue io_ value kwargs;
                         EvOnUpdateValue spec value kwargs]
           ∧ io_heap (update_spec_value hooks spec value kwargs w).2
             = <[io_ := mkIO (_path io) (_specs io) (_load_from io) d]>
                 (io_heap w)
           ∧ match on_update_value hooks (spec_value sp) value kwargs with
             | inl what =>
                 (update_spec_value hooks spec value kwargs w).1
                 = Raise (HookError what)
                 ∧ spec_heap (update_spec_value hooks spec value kwargs w).2
                   = spec_heap w
             | inr v =>
                 (update_spec_value hooks spec value kwargs w).1 = Ok tt
                 ∧ spec_heap (update_spec_value hooks spec value kwargs w).2
                   = <[spec := mkSpec (_manager sp) (_io sp) (_is_hidden sp) v]>
                       (spec_heap w)
             end
       end).
Proof.
  intros Hsp. unfold update_spec_value. m_step. rewrite Hsp. cbn.
  destruct (can_update_value hooks (spec_value sp) value kwargs) eqn:Hcan.
  - split_and!; [|done|].
    + split; [|done]. unfold io__on_update_value, _on_update_value.
      destruct (_io sp) as [| | |io_|]; m_step; try done.
      destruct (io_heap w !! io_) as [io|]; m_step; [|done].
      destruct (io_on_update_value _ _ _ _); m_step; [done|].
      rewrite Hsp. cbn.
      by destruct (on_update_value _ _ _ _).
    + intros _ io_ io Hio Hheap. rewrite Hio.
      unfold io__on_update_value, _on_update_value. m_step.
      rewrite Hheap. cbn.
      destruct (io_on_update_value _ _ _ _); m_step; [done|].
      rewrite Hsp. cbn.
      destruct (on_update_value _ _ _ _); cbn; rewrite <- app_assoc.
      all: repeat split; rewrite ?Hio; reflexivity.
  - cbn. done.
Qed.

Lemma C8_update_spec_value_gate_witness :
  (update_spec_value Example.hooks 0 "new" tt Example.one_spec).1 = Ok tt
  ∧ trace (update_spec_value Example.hooks 0 "new" tt Example.one_spec).2
    = trace Example.one_spec
      ++ [EvIOOnUpdateValue 0 "new" tt; EvOnUpdateValue 0 "new" tt].
Proof.
  pose proof (C8_update_spec_value_gate Example.hooks Example.one_spec 0
                (mkSpec PyManager (PyIO 0) None "table") "new" tt eq_refl)
    as (_ & _ & Horder).
  specialize (Horder eq_refl 0 (mkIO "x.dat" [0] None tt) eq_refl eq_refl).
  cbn in Horder. destruct Horder as (Htrace & _ & Hres & _).
  split; [exact Hres|exact Htrace].
Defined.

(** ** Renaming a resource *)

(** C4.  For a resource that the index holds under [(group, path_old)]:
    with the same path the call changes nothing; with a different path whose
    key another resource occupies the call raises and changes nothing;
    otherwise the old key is deleted, then the resource is told its path,
    then the new key is stored, in this order, and the index agrees in both
    directions afterwards. *)
Theorem C4_update_path_rename {V K D : Type} (w : World V K D)
    (io_ : nat) (io : BaseSharedIO D) (group : option nat)
    (path_old path : Path) :
  BiDict.consistent (ios (manager w)) →
  BiDict.inverse (ios (manager w)) !! io_ = Some (group, path_old) →
  io_heap w !! io_ = Some io →
  (path = path_old → update_path io_ path w = (Ok tt, w))
  ∧ (path ≠ path_old →
     ∀ other, registered w (_get_io_key group path) other → other ≠ io_ →
       update_path io_ path w = (Raise (ValueError "cannot change path"), w))
  ∧ (path ≠ path_old →
     (¬ ∃ other, registered w (_get_io_key group path) other ∧ other ≠ io_) →
     (update_path io_ path w).1 = Ok tt
     ∧ trace (update_path io_ path w).2
       = trace w ++ [EvDelItem (group, path_old); EvOnUpdatePath io_ path;
                     EvSetItem (_get_io_key group path) io_]
     ∧ registered (update_path io_ path w).2 (_get_io_key group path) io_
     ∧ BiDict.inverse (ios (manager (update_path io_ path w).2)) !! io_
       = Some (_get_io_key group path)
     ∧ BiDict.dict_get (group, path_old) (index (update_path io_ path w).2)
       = None
     ∧ (∀ k, k ≠ _get_io_key group path → k ≠ (group, path_old) →
          BiDict.dict_get k (index (update_path io_ path w).2)
          = BiDict.dict_get k (index w))
     ∧ io_heap (update_path io_ path w).2
       = <[io_ := mkIO path (_specs io) (_load_from io) (io_data io)]>
           (io_heap w)
     ∧ BiDict.consistent (ios (manager (update_path io_ path w).2))).
Proof.
  intros Hc Hinv Hio. split_and!.
  - intros ->. by eapply update_path_same.
  - intros Hne other Hreg _. by eapply update_path_occupied.
  - intros Hne Hfree.
    assert (_get_io_key group path ≠ (group, path_old)) as Hkey.
    { intros Heq. apply Hne. by rewrite <- (_get_io_key_path group path), Heq. }
    assert (BiDict.dict_get (_get_io_key group path) (index w) = None)
      as Hnone.
    { destruct (BiDict.dict_get _ (index w)) as [other|] eqn:Hget; [|done].
      destruct (decide (other = io_)) as [->|Hother].
      - apply Hc in Hget. congruence.
      - exfalso. apply Hfree. by exists other. }
    rewrite (update_path_moves io_ io group path_old path) by done.
    split_and!; [done|done| | | | |done|].
    + unfold registered, index. cbn. rewrite dict_get_set.
      by rewrite decide_True.
    + cbn. by rewrite lookup_insert_eq.
    + unfold index. cbn.
      rewrite dict_get_set, decide_False, dict_get_del by done.
      by rewrite decide_True.
    + intros k Hk1 Hk2. unfold index. cbn.
      rewrite dict_get_set, decide_False, dict_get_del by done.
      by rewrite decide_False.
    + lazy beta iota delta [snd manager ios].
      apply (consistent_move (group, path_old)); [|done|done].
      by apply consistent_eta.
Qed.

Lemma C4_update_path_rename_witness :
  (update_path 0 "z.dat" Example.two_files).1 = Ok tt
  ∧ update_path 0 "y.dat" Example.two_files
    = (Raise (ValueError "cannot change path"), Example.two_files).
Proof.
  pose proof (C4_update_path_rename Example.two_files 0
                (mkIO "x.dat" [0] None tt) (Some 1) "x.dat") as Hrename.
  split.
  - refine (proj1 (proj2 (proj2 (Hrename "z.dat" _ eq_refl eq_refl)) _ _)).
    + apply consistentb_sound. vm_compute. reflexivity.
    + discriminate.
    + intros (other & Hreg & _). vm_compute in Hreg. discriminate.
  - refine (proj1 (proj2 (Hrename "y.dat" _ eq_refl eq_refl)) _ 1 _ _).
    + apply consistentb_sound. vm_compute. reflexivity.
    + discriminate.
    + reflexivity.
    + discriminate.
Defined.

(** ** Removing a spec *)

(** C6.  [del_spec] of a spec that is among the dependents of its resource
    leaves the resource with the other dependents.  If some remain, nothing
    else changes: the index is untouched.  If none remains and the resource
    is in the index under [key], the same call deletes the key in both
    directions, so that no key leads to the resource any more. *)
Theorem C6_del_spec_reclaims {V K D : Type} (w : World V K D)
    (spec io_ : nat) (sp : BaseIOSpec V) (io : BaseSharedIO D) :
  spec_heap w !! spec = Some sp → _io sp = PyIO io_ →
  io_heap w !! io_ = Some io → spec ∈ _specs io →
  (filter (λ c, c ≠ spec) (_specs io) ≠ [] →
     del_spec spec w
     = (Ok tt,
        mkWorld (manager w)
          (<[io_ := mkIO (_path io) (filter (λ c, c ≠ spec) (_specs io))
                         (_load_from io) (io_data io)]> (io_heap w))
          (spec_heap w) (trace w))
     ∧ ∀ c, c ∈ filter (λ c, c ≠ spec) (_specs io) ↔ c ∈ _specs io ∧ c ≠ spec)
  ∧ (filter (λ c, c ≠ spec) (_specs io) = [] →
     index_wf w → ∀ key, registered w key io_ →
     (del_spec spec w).1 = Ok tt
     ∧ io_heap (del_spec spec w).2 !! io_
       = Some (mkIO (_path io) [] (_load_from io) (io_data io))
     ∧ BiDict.dict_get key (index (del_spec spec w).2) = None
     ∧ BiDict.inverse (ios (manager (del_spec spec w).2)) !! io_ = None
     ∧ (∀ k, ¬ registered (del_spec spec w).2 k io_)
     ∧ (∀ k, k ≠ key →
          BiDict.dict_get k (index (del_spec spec w).2)
          = BiDict.dict_get k (index w))
     ∧ trace (del_spec spec w).2 = trace w ++ [EvDelItem key]).
Proof.
  intros Hsp Hio Hheap Hin. split.
  - intros Hrest. split; [by eapply del_spec_remaining|].
    intros c. rewrite list_elem_of_filter. tauto.
  - intros Hrest Hwf key Hreg.
    rewrite (del_spec_last spec sp io_ io key) by done.
    destruct Hwf as (Hnd & Hc & _).
    split_and!; [done| | | | | |done].
    + cbn. by rewrite lookup_insert_eq.
    + unfold index. cbn. rewrite dict_get_del. by rewrite decide_True.
    + lazy beta iota delta [snd manager ios BiDict.inverse].
      apply lookup_delete_eq.
    + intros k. unfold registered, index. cbn. rewrite dict_get_del.
      destruct (decide (key = k)) as [->|Hk]; [done|].
      intros Hk'. apply Hc in Hk', Hreg. congruence.
    + intros k Hk. unfold index. cbn. rewrite dict_get_del.
      by rewrite decide_False.
Qed.

Lemma C6_del_spec_reclaims_witness :
  BiDict.dict_get (Some 1, "x.dat") (index (del_spec 0 Example.one_spec).2)
    = None
  ∧ del_spec 0 Example.two_specs
    = (Ok tt,
       mkWorld (manager Example.two_specs)
         (<[0 := mkIO "x.dat" [1] None tt]> (io_heap Example.two_specs))
         (spec_heap Example.two_specs) (trace Example.two_specs)).
Proof.
  split.
  - refine (proj1 (proj2 (proj2
      (proj2 (C6_del_spec_reclaims Example.one_spec 0 0
                (mkSpec PyManager (PyIO 0) None "table")
                (mkIO "x.dat" [0] None tt) eq_refl eq_refl eq_refl _)
         eq_refl _ (Some 1, "x.dat") eq_refl)))).
    + by apply (bool_decide_unpack _).
    + apply index_wfb_sound. vm_compute. reflexivity.
  - refine (proj1
      (proj1 (C6_del_spec_reclaims Example.two_specs 0 0
                (mkSpec PyManager (PyIO 0) None "table")
                (mkIO "x.dat" [0; 1] None tt) eq_refl eq_refl eq_refl _) _)).
    + by apply (bool_decide_unpack _).
    + discriminate.
Defined.

(** ** Creating a spec *)

(** C3.  When no resource is in the index under the key of the call, so that
    [new_spec] creates one, and the load hook of the new spec raises, the
    call propagates that exception; afterwards the key is absent and every
    key reads as before the call, the new resource has no dependent and is
    not in the inverse map, and no other resource has changed. *)
Theorem C3_new_spec_rollback {V K D : Type} (hooks : Hooks V K D)
    (w : World V K D) (io_group : option nat) (path : Path)
    (spec_args : V) (io_args : D) (what : string) :
  BiDict.dict_get (_get_io_key io_group path) (index w) = None →
  on_load_value hooks io_args spec_args = inl what →
  (new_spec hooks io_group path spec_args io_args w).1
    = Raise (HookError what)
  ∧ BiDict.dict_get (_get_io_key io_group path)
      (index (new_spec hooks io_group path spec_args io_args w).2) = None
  ∧ (∀ k, BiDict.dict_get k
            (index (new_spec hooks io_group path spec_args io_args w).2)
          = BiDict.dict_get k (index w))
  ∧ BiDict.inverse
      (ios (manager (new_spec hooks io_group path spec_args io_args w).2))
      !! fresh (dom (io_heap w)) = None
  ∧ io_heap (new_spec hooks io_group path spec_args io_args w).2
    = <[fresh (dom (io_heap w)) := mkIO path [] None io_args]> (io_heap w)
  ∧ spec_heap (new_spec hooks io_group path spec_args io_args w).2
      !! fresh (dom (spec_heap w))
    = Some (mkSpec PyManager (PyIO (fresh (dom (io_heap w)))) None spec_args)
  ∧ trace (new_spec hooks io_group path spec_args io_args w).2
    = trace w ++ [EvSetItem (_get_io_key io_group path) (fresh (dom (io_heap w)));
                  EvOnLoadValue (fresh (dom (spec_heap w)));
                  EvDelItem (_get_io_key io_group path)].
Proof.
  intros Hfree Hload.
  rewrite (new_spec_load_fails_fresh hooks io_group path spec_args io_args what)
    by done.
  assert (∀ k, BiDict.dict_get k
                 (BiDict.dict_del (_get_io_key io_group path)
                    (BiDict.dict_set (_get_io_key io_group path)
                       (fresh (dom (io_heap w))) (index w)))
               = BiDict.dict_get k (index w)) as Hsame.
  { intros k. rewrite dict_get_del, dict_get_set.
    destruct (decide (_get_io_key io_group path = k)) as [<-|]; done. }
  split_and!; [done| | | |done| |done].
  - unfold index at 1. cbn. by rewrite Hsame.
  - intros k. unfold index at 1. cbn. apply Hsame.
  - lazy beta iota delta [snd manager ios BiDict.inverse].
    apply lookup_delete_eq.
  - cbn. by rewrite lookup_insert_eq.
Qed.

Lemma C3_new_spec_rollback_witness :
  (new_spec Example.hooks (Some 1) "x.dat" "corrupt" tt initial_world).1
    = Raise (HookError "cannot load")
  ∧ BiDict.dict_get (Some 1, "x.dat")
      (index (new_spec Example.hooks (Some 1) "x.dat" "corrupt" tt
                initial_world).2) = None.
Proof.
  pose proof (C3_new_spec_rollback Example.hooks initial_world (Some 1)
                "x.dat" "corrupt" tt "cannot load" eq_refl eq_refl)
    as (Hres & Hkey & _).
  split; [exact Hres|exact Hkey].
Defined.

(** ** The index invariant *)

(** C1.  [BiDict.__setitem__] tests whether the value is already in the
    inverse map only when the key exists: a new key for a value that is
    there is stored without complaint.  So, from the manager with one spec on
    "x.dat" of group 1, whose index agrees in both directions, [restore_io]
    of that same resource for group 2 stores it under a second key.  After
    the call the first key no longer reads back, the resource sits under two
    keys, and the first assertion of [IOManager._check_sanity] is false. *)
Theorem C1_restore_io_breaks_index :
  BiDict.__setitem__ "b" 1 (BiDict.mk [("a", 1)] {[1 := "a"]})
    = Ok (BiDict.mk [("a", 1); ("b", 1)] {[1 := "b"]})
  ∧ BiDict.consistent (ios (manager Example.one_spec))
  ∧ (restore_io (Some 2) 0 Example.one_spec).1 = Ok tt
  ∧ index (restore_io (Some 2) 0 Example.one_spec).2
    = [((Some 1, "x.dat"), 0); ((Some 2, "x.dat"), 0)]
  ∧ BiDict.inverse (ios (manager (restore_io (Some 2) 0 Example.one_spec).2))
      !! 0 = Some (Some 2, "x.dat")
  ∧ ¬ BiDict.round_trip (ios (manager (restore_io (Some 2) 0 Example.one_spec).2))
  ∧ ¬ BiDict.one_key_per_value
        (ios (manager (restore_io (Some 2) 0 Example.one_spec).2))
  ∧ _check_sanity_distinct (restore_io (Some 2) 0 Example.one_spec).2 = false.
Proof.
  split_and!.
  - vm_compute. reflexivity.
  - apply consistentb_sound. vm_compute. reflexivity.
  - vm_compute. reflexivity.
  - vm_compute. reflexivity.
  - vm_compute. reflexivity.
  - intros Hrt. specialize (Hrt (Some 1, "x.dat") 0 eq_refl).
    vm_compute in Hrt. discriminate.
  - intros Hone.
    specialize (Hone (Some 1, "x.dat") (Some 2, "x.dat") 0 eq_refl eq_refl).
    discriminate.
  - vm_compute. reflexivity.
Qed.

(** ** Key resolution and sharing *)

Section SharingFacts.
Context {V K D : Type} (hooks : Hooks V K D).
Implicit Types (w : World V K D).
Import BiDict.

(** A call of [new_spec] that finds its resource in the index with one
    dependent, whose load hook returns and whose newcomer the dependent
    accepts: the new spec is appended to the dependents. *)
Lemma new_spec_joins g p sa ia io_ io c other v w :
  registered w (_get_io_key g p) io_ → io_heap w !! io_ = Some io →
  _specs io = [c] → spec_heap w !! c = Some other →
  on_load_value hooks (io_data io) sa = inr v →
  can_add_other hooks (spec_value other) v = true →
  new_spec hooks g p sa ia w
  = (Ok (fresh (dom (spec_heap w))),
     mkWorld (manager w)
       (<[io_ := mkIO (_path io) [c; fresh (dom (spec_heap w))]
                      (_load_from io) (io_data io)]> (io_heap w))
       (<[fresh (dom (spec_heap w)) := mkSpec PyManager (PyIO io_) None v]>
          (spec_heap w))
       (trace w ++ [EvOnLoadValue (fresh (dom (spec_heap w)))])).
Proof.
  intros Hreg Hio Hspecs Hc Hload Hcan.
  assert (c ≠ fresh (dom (spec_heap w))) as Hne.
  { intros ->. apply elem_of_dom_2 in Hc. by apply is_fresh in Hc. }
  unfold new_spec. m_step.
  rewrite !lookup_insert_eq. cbn.
  rewrite (get_or_create_io_existing g p None ia _ io_) by exact Hreg. cbn.
  rewrite !lookup_insert_eq. cbn.
  unfold _on_load_value. m_step.
  repeat (rewrite lookup_insert_eq; cbn). rewrite Hio. cbn.
  rewrite Hload. cbn. repeat (rewrite lookup_insert_eq; cbn).
  unfold add_spec, _can_add_spec. m_step. rewrite Hio. cbn. rewrite Hspecs.
  rewrite bool_decide_eq_false_2
    by (intros Hin%list_elem_of_singleton; congruence).
  cbn. rewrite Hio. cbn. rewrite Hspecs. cbn. m_step.
  rewrite !insert_insert_eq.
  rewrite lookup_insert_ne by done. rewrite Hc. cbn.
  rewrite lookup_insert_eq. cbn. by rewrite Hcan.
Qed.

(** Two groups create a spec each on the same absolute path, which no
    resource has yet: both calls return, and the two specs are the
    dependents, in this order, of the one resource that the first call has
    created and stored under [(None, path)]. *)
Lemma new_spec_twice_shared g1 g2 path v1 v2 v1' v2' a1 a2 w :
  is_absolute path = true →
  dict_get (_get_io_key g1 path) (index w) = None →
  on_load_value hooks a1 v1 = inr v1' →
  on_load_value hooks a1 v2 = inr v2' →
  can_add_other hooks v1' v2' = true →
  ∃ s1 s2 r,
    (new_spec hooks g1 path v1 a1 w).1 = Ok s1
    ∧ (new_spec hooks g2 path v2 a2 (new_spec hooks g1 path v1 a1 w).2).1
      = Ok s2
    ∧ s1 ≠ s2
    ∧ spec_heap (new_spec hooks g2 path v2 a2
                   (new_spec hooks g1 path v1 a1 w).2).2 !! s1
      = Some (mkSpec PyManager (PyIO r) None v1')
    ∧ spec_heap (new_spec hooks g2 path v2 a2
                   (new_spec hooks g1 path v1 a1 w).2).2 !! s2
      = Some (mkSpec PyManager (PyIO r) None v2')
    ∧ registered (new_spec hooks g2 path v2 a2
                    (new_spec hooks g1 path v1 a1 w).2).2 (None, path) r
    ∧ io_heap (new_spec hooks g2 path v2 a2
                 (new_spec hooks g1 path v1 a1 w).2).2 !! r
      = Some (mkIO path [s1; s2] None a1).
Proof.
  intros Habs Hfree Hload1 Hload2 Hcan.
  assert (∀ g, _get_io_key g path = (None, path)) as Hkey.
  { intros g. unfold _get_io_key. by rewrite Habs. }
  rewrite (new_spec_load_ok_fresh hooks g1 path v1 a1 v1') by done.
  cbn [fst snd]. set (r := fresh (dom (io_heap w))). set (s1 := fresh (dom (spec_heap w))).
  set (sp1 := mkSpec PyManager (PyIO r) None v1').
  set (w1 := mkWorld _ _ _ _).
  assert (new_spec hooks g2 path v2 a2 w1
          = (Ok (fresh (dom (spec_heap w1))),
             mkWorld (manager w1)
               (<[r := mkIO path [s1; fresh (dom (spec_heap w1))] None a1]>
                  (io_heap w1))
               (<[fresh (dom (spec_heap w1))
                    := mkSpec PyManager (PyIO r) None v2']> (spec_heap w1))
               (trace w1 ++ [EvOnLoadValue (fresh (dom (spec_heap w1)))])))
    as Hrun.
  { apply (new_spec_joins g2 path v2 a2 r (mkIO path [s1] None a1) s1 sp1 v2').
    - unfold registered, index, w1.
      lazy beta iota delta [manager ios items]. rewrite dict_get_set.
      rewrite decide_True; [done|]. by rewrite !Hkey.
    - apply lookup_insert_eq.
    - done.
    - apply lookup_insert_eq.
    - done.
    - done. }
  exists s1, (fresh (dom (spec_heap w1))), r. rewrite Hrun.
  assert (s1 ≠ fresh (dom (spec_heap w1))) as Hne.
  { intros Heq. apply (is_fresh (dom (spec_heap w1))). rewrite <- Heq.
    apply elem_of_dom. exists sp1. apply lookup_insert_eq. }
  split_and!; [done|done|done|..].
  - lazy beta iota delta [snd spec_heap].
    rewrite lookup_insert_ne by done. apply lookup_insert_eq.
  - lazy beta iota delta [snd spec_heap]. apply lookup_insert_eq.
  - unfold registered, index, w1.
    lazy beta iota delta [snd manager ios items]. rewrite dict_get_set.
    rewrite decide_True; [done|]. by rewrite Hkey.
  - lazy beta iota delta [snd io_heap]. apply lookup_insert_eq.
Qed.

(** Two different groups create a spec each on the same relative path, which
    neither has a resource for yet: both calls return, each creates its own
    resource under the key of its group, and each spec is the one dependent
    of the resource of its group. *)
Lemma new_spec_twice_apart g1 g2 path v1 v2 v1' v2' a1 a2 w :
  is_absolute path = false → g1 ≠ g2 →
  dict_get (_get_io_key g1 path) (index w) = None →
  dict_get (_get_io_key g2 path) (index w) = None →
  on_load_value hooks a1 v1 = inr v1' →
  on_load_value hooks a2 v2 = inr v2' →
  ∃ s1 s2 r1 r2,
    (new_spec hooks g1 path v1 a1 w).1 = Ok s1
    ∧ (new_spec hooks g2 path v2 a2 (new_spec hooks g1 path v1 a1 w).2).1
      = Ok s2
    ∧ s1 ≠ s2 ∧ r1 ≠ r2
    ∧ spec_heap (new_spec hooks g2 path v2 a2
                   (new_spec hooks g1 path v1 a1 w).2).2 !! s1
      = Some (mkSpec PyManager (PyIO r1) None v1')
    ∧ spec_heap (new_spec hooks g2 path v2 a2
                   (new_spec hooks g1 path v1 a1 w).2).2 !! s2
      = Some (mkSpec PyManager (PyIO r2) None v2')
    ∧ registered (new_spec hooks g2 path v2 a2
                    (new_spec hooks g1 path v1 a1 w).2).2 (g1, path) r1
    ∧ registered (new_spec hooks g2 path v2 a2
                    (new_spec hooks g1 path v1 a1 w).2).2 (g2, path) r2
    ∧ io_heap (new_spec hooks g2 path v2 a2
                 (new_spec hooks g1 path v1 a1 w).2).2 !! r1
      = Some (mkIO path [s1] None a1)
    ∧ io_heap (new_spec hooks g2 path v2 a2
                 (new_spec hooks g1 path v1 a1 w).2).2 !! r2
      = Some (mkIO path [s2] None a2).
Proof.
  intros Hrel Hg Hfree1 Hfree2 Hload1 Hload2.
  assert (∀ g, _get_io_key g path = (g, path)) as Hkey.
  { intros g. unfold _get_io_key. by rewrite Hrel. }
  rewrite (new_spec_load_ok_fresh hooks g1 path v1 a1 v1') by done.
  cbn [fst snd]. set (r1 := fresh (dom (io_heap w))). set (s1 := fresh (dom (spec_heap w))).
  set (sp1 := mkSpec PyManager (PyIO r1) None v1').
  set (w1 := mkWorld _ _ _ _).
  rewrite (new_spec_load_ok_fresh hooks g2 path v2 a2 v2' w1); [|..|done].
  2:{ unfold index, w1. lazy beta iota delta [manager ios items].
      rewrite dict_get_set. rewrite decide_False; [done|].
      rewrite !Hkey. congruence. }
  exists s1, (fresh (dom (spec_heap w1))), r1, (fresh (dom (io_heap w1))).
  assert (s1 ≠ fresh (dom (spec_heap w1))) as Hs.
  { intros Heq. apply (is_fresh (dom (spec_heap w1))). rewrite <- Heq.
    apply elem_of_dom. exists sp1. apply lookup_insert_eq. }
  assert (r1 ≠ fresh (dom (io_heap w1))) as Hr.
  { intros Heq. apply (is_fresh (dom (io_heap w1))). rewrite <- Heq.
    apply elem_of_dom. eexists. apply lookup_insert_eq. }
  split_and!; [done|done|done|done|..].
  - lazy beta iota delta [snd spec_heap].
    rewrite lookup_insert_ne by done. apply lookup_insert_eq.
  - lazy beta iota delta [snd spec_heap]. apply lookup_insert_eq.
  - unfold registered, index, w1.
    lazy beta iota delta [snd manager ios items]. rewrite !dict_get_set.
    rewrite !Hkey. rewrite decide_False by congruence.
    by rewrite decide_True.
  - unfold registered, index, w1.
    lazy beta iota delta [snd manager ios items]. rewrite dict_get_set.
    rewrite decide_True; [done|]. by rewrite Hkey.
  - lazy beta iota delta [snd io_heap].
    rewrite lookup_insert_ne by done. apply lookup_insert_eq.
  - lazy beta iota delta [snd io_heap]. apply lookup_insert_eq.
Qed.

End SharingFacts.

(** C7.  An absolute path resolves to the key [(None, path)] whatever the
    group, a relative path to [(group, path)].

    From a well-formed index, two successive [get_or_create_io] calls with
    the same path both return a resource: an object of the heap that is then
    in the index under the resolved key of its call.  The first call returns
    the resource that was under its key and changes nothing, or, if the key
    was free, a new object with the path of the call and no dependents.  For
    an absolute path the two calls return the same resource and the second
    changes nothing; for a relative path and two different groups the
    resources differ.

    The same holds for the resources to which two successive [new_spec]
    calls that return have bound their specs.  And the calls do return in
    the scenario of the specification: on a path that has no resource yet,
    with load hooks that return (and, for the shared resource, a first spec
    that accepts the second), the two specs of an absolute path are the two
    dependents of one resource under [(None, path)], and the two specs of a
    relative path in different groups are each the one dependent of the
    resource of its own group. *)
Theorem C7_key_resolution_sharing {V K D : Type} (hooks : Hooks V K D)
    (w : World V K D) (g1 g2 : option nat) (path : Path)
    (lf1 lf2 : option Path) (a1 a2 : D) :
  index_wf w →
  (is_absolute path = true → _get_io_key g1 path = (None, path))
  ∧ (is_absolute path = false → _get_io_key g1 path = (g1, path))
  ∧ (∃ r1 r2,
      (get_or_create_io g1 path lf1 a1 w).1 = Ok r1
      ∧ (get_or_create_io g2 path lf2 a2
           (get_or_create_io g1 path lf1 a1 w).2).1 = Ok r2
      ∧ registered (get_or_create_io g2 path lf2 a2
                      (get_or_create_io g1 path lf1 a1 w).2).2
          (_get_io_key g1 path) r1
      ∧ registered (get_or_create_io g2 path lf2 a2
                      (get_or_create_io g1 path lf1 a1 w).2).2
          (_get_io_key g2 path) r2
      ∧ is_Some (io_heap (get_or_create_io g2 path lf2 a2
                            (get_or_create_io g1 path lf1 a1 w).2).2 !! r1)
      ∧ is_Some (io_heap (get_or_create_io g2 path lf2 a2
                            (get_or_create_io g1 path lf1 a1 w).2).2 !! r2)
      ∧ (∀ r, registered w (_get_io_key g1 path) r →
              r1 = r ∧ (get_or_create_io g1 path lf1 a1 w).2 = w)
      ∧ (BiDict.dict_get (_get_io_key g1 path) (index w) = None →
         (r1 ∉ dom (io_heap w))
         ∧ io_heap (get_or_create_io g1 path lf1 a1 w).2 !! r1
           = Some (mkIO path [] lf1 a1))
      ∧ (is_absolute path = true →
         r1 = r2
         ∧ (get_or_create_io g2 path lf2 a2
              (get_or_create_io g1 path lf1 a1 w).2).2
           = (get_or_create_io g1 path lf1 a1 w).2)
      ∧ (is_absolute path = false → g1 ≠ g2 → r1 ≠ r2))
  ∧ (∀ v1 v2 s1 s2,
      (new_spec hooks g1 path v1 a1 w).1 = Ok s1 →
      (new_spec hooks g2 path v2 a2 (new_spec hooks g1 path v1 a1 w).2).1
        = Ok s2 →
      ∃ sp1 sp2 r1 r2,
        spec_heap (new_spec hooks g2 path v2 a2
                     (new_spec hooks g1 path v1 a1 w).2).2 !! s1 = Some sp1
        ∧ spec_heap (new_spec hooks g2 path v2 a2
                       (new_spec hooks g1 path v1 a1 w).2).2 !! s2 = Some sp2
        ∧ _io sp1 = PyIO r1 ∧ _io sp2 = PyIO r2
        ∧ registered (new_spec hooks g2 path v2 a2
                        (new_spec hooks g1 path v1 a1 w).2).2
            (_get_io_key g1 path) r1
        ∧ registered (new_spec hooks g2 path v2 a2
                        (new_spec hooks g1 path v1 a1 w).2).2
            (_get_io_key g2 path) r2
        ∧ is_Some (io_heap (new_spec hooks g2 path v2 a2
                              (new_spec hooks g1 path v1 a1 w).2).2 !! r1)
        ∧ is_Some (io_heap (new_spec hooks g2 path v2 a2
                              (new_spec hooks g1 path v1 a1 w).2).2 !! r2)
        ∧ (is_absolute path = true → r1 = r2)
        ∧ (is_absolute path = false → g1 ≠ g2 → r1 ≠ r2))
  ∧ (∀ v1 v2 v1' v2',
      is_absolute path = true →
      BiDict.dict_get (_get_io_key g1 path) (index w) = None →
      on_load_value hooks a1 v1 = inr v1' →
      on_load_value hooks a1 v2 = inr v2' →
      can_add_other hooks v1' v2' = true →
      ∃ s1 s2 r,
        (new_spec hooks g1 path v1 a1 w).1 = Ok s1
        ∧ (new_spec hooks g2 path v2 a2 (new_spec hooks g1 path v1 a1 w).2).1
          = Ok s2
        ∧ s1 ≠ s2
        ∧ spec_heap (new_spec hooks g2 path v2 a2
                       (new_spec hooks g1 path v1 a1 w).2).2 !! s1
          = Some (mkSpec PyManager (PyIO r) None v1')
        ∧ spec_heap (new_spec hooks g2 path v2 a2
                       (new_spec hooks g1 path v1 a1 w).2).2 !! s2
          = Some (mkSpec PyManager (PyIO r) None v2')
        ∧ registered (new_spec hooks g2 path v2 a2
                        (new_spec hooks g1 path v1 a1 w).2).2 (None, path) r
        ∧ io_heap (new_spec hooks g2 path v2 a2
                     (new_spec hooks g1 path v1 a1 w).2).2 !! r
          = Some (mkIO path [s1; s2] None a1))
  ∧ (∀ v1 v2 v1' v2',
      is_absolute path = false → g1 ≠ g2 →
      BiDict.dict_get (_get_io_key g1 path) (index w) = None →
      BiDict.dict_get (_get_io_key g2 path) (index w) = None →
      on_load_value hooks a1 v1 = inr v1' →
      on_load_value hooks a2 v2 = inr v2' →
      ∃ s1 s2 r1 r2,
        (new_spec hooks g1 path v1 a1 w).1 = Ok s1
        ∧ (new_spec hooks g2 path v2 a2 (new_spec hooks g1 path v1 a1 w).2).1
          = Ok s2
        ∧ s1 ≠ s2 ∧ r1 ≠ r2
        ∧ spec_heap (new_spec hooks g2 path v2 a2
                       (new_spec hooks g1 path v1 a1 w).2).2 !! s1
          = Some (mkSpec PyManager (PyIO r1) None v1')
        ∧ spec_heap (new_spec hooks g2 path v2 a2
                       (new_spec hooks g1 path v1 a1 w).2).2 !! s2
          = Some (mkSpec PyManager (PyIO r2) None v2')
        ∧ registered (new_spec hooks g2 path v2 a2
                        (new_spec hooks g1 path v1 a1 w).2).2 (g1, path) r1
        ∧ registered (new_spec hooks g2 path v2 a2
                        (new_spec hooks g1 path v1 a1 w).2).2 (g2, path) r2
        ∧ io_heap (new_spec hooks g2 path v2 a2
                     (new_spec hooks g1 path v1 a1 w).2).2 !! r1
          = Some (mkIO path [s1] None a1)
        ∧ io_heap (new_spec hooks g2 path v2 a2
                     (new_spec hooks g1 path v1 a1 w).2).2 !! r2
          = Some (mkIO path [s2] None a2)).
Proof.
  intros Hwf.
  assert (is_absolute path = true → _get_io_key g2 path = _get_io_key g1 path)
    as Hshared.
  { intros Habs. unfold _get_io_key. by rewrite Habs. }
  assert (is_absolute path = false → g1 ≠ g2 →
          _get_io_key g1 path ≠ _get_io_key g2 path) as Hapart.
  { intros Hrel Hg. unfold _get_io_key. rewrite Hrel. congruence. }
  split_and!.
  - intros Habs. unfold _get_io_key. by rewrite Habs.
  - intros Hrel. unfold _get_io_key. by rewrite Hrel.
  - destruct (get_or_create_io_post g1 path lf1 a1 w Hwf)
      as (r1 & Hr1 & Hwf1 & Hreg1 & _).
    destruct (get_or_create_io_post g2 path lf2 a2 _ Hwf1)
      as (r2 & Hr2 & Hwf2 & Hreg2 & Hkeep).
    pose proof Hwf2 as (_ & Hc2 & Hobj2).
    exists r1, r2.
    split_and!; [done|done|by apply Hkeep|done|by eapply Hobj2, Hkeep
                |by eapply Hobj2|..].
    + intros r Hr.
      rewrite (get_or_create_io_existing g1 path lf1 a1 w r Hr) in Hr1 |- *.
      by injection Hr1 as <-.
    + intros Hfree. rewrite get_or_create_io_new in Hr1 |- * by done.
      injection Hr1 as <-. split; [apply is_fresh|].
      lazy beta iota delta [snd io_heap]. apply lookup_insert_eq.
    + intros Habs.
      rewrite (get_or_create_io_existing g2 path lf2 a2 _ r1) in Hr2 |- *
        by (by rewrite Hshared).
      by injection Hr2.
    + intros Hrel Hg ->. apply Hkeep in Hreg1.
      apply Hc2 in Hreg1, Hreg2. rewrite Hreg1 in Hreg2.
      apply (Hapart Hrel Hg). congruence.
  - intros v1 v2 s1 s2 Hs1 Hs2.
    destruct (new_spec_ok hooks g1 path v1 a1 s1 w Hwf Hs1)
      as (Hwf1 & _ & _ & sp1 & r1 & Hsp1 & Hio1 & Hreg1).
    destruct (new_spec_ok hooks g2 path v2 a2 s2 _ Hwf1 Hs2)
      as (Hwf2 & Hkeep & Hspecs & sp2 & r2 & Hsp2 & Hio2 & Hreg2).
    pose proof Hwf2 as (_ & Hc2 & Hobj2).
    exists sp1, sp2, r1, r2.
    split_and!; [by apply Hspecs|done|done|done|by apply Hkeep|done
                |by eapply Hobj2, Hkeep|by eapply Hobj2| |].
    + intros Habs. apply Hkeep in Hreg1. rewrite Hshared in Hreg2 by done.
      unfold registered in *. congruence.
    + intros Hrel Hg ->. apply Hkeep in Hreg1.
      apply Hc2 in Hreg1, Hreg2. rewrite Hreg1 in Hreg2.
      apply (Hapart Hrel Hg). congruence.
  - intros v1 v2 v1' v2'. apply new_spec_twice_shared.
  - intros v1 v2 v1' v2'. apply new_spec_twice_apart.
Qed.

Lemma C7_key_resolution_sharing_witness :
  (∃ r1 r2,
     (get_or_create_io (Some 1) "/tmp/x" None tt Example.one_spec).1 = Ok r1
     ∧ (get_or_create_io (Some 2) "/tmp/x" None tt
          (get_or_create_io (Some 1) "/tmp/x" None tt Example.one_spec).2).1
       = Ok r2
     ∧ r1 = r2)
  ∧ (∃ r1 r2,
     (get_or_create_io (Some 1) "x.dat" None tt Example.one_spec).1 = Ok r1
     ∧ (get_or_create_io (Some 2) "x.dat" None tt
          (get_or_create_io (Some 1) "x.dat" None tt Example.one_spec).2).1
       = Ok r2
     ∧ r1 ≠ r2)
  ∧ (∃ s1 s2 r,
     (new_spec Example.hooks (Some 1) "/tmp/x" "table" tt Example.one_spec).1
       = Ok s1
     ∧ (new_spec Example.hooks (Some 2) "/tmp/x" "range" tt
          (new_spec Example.hooks (Some 1) "/tmp/x" "table" tt
             Example.one_spec).2).1 = Ok s2
     ∧ s1 ≠ s2
     ∧ registered
         (new_spec Example.hooks (Some 2) "/tmp/x" "range" tt
            (new_spec Example.hooks (Some 1) "/tmp/x" "table" tt
               Example.one_spec).2).2 (None, "/tmp/x") r
     ∧ io_heap
         (new_spec Example.hooks (Some 2) "/tmp/x" "range" tt
            (new_spec Example.hooks (Some 1) "/tmp/x" "table" tt
               Example.one_spec).2).2 !! r
       = Some (mkIO "/tmp/x" [s1; s2] None tt))
  ∧ (∃ s1 s2 r1 r2,
     (new_spec Example.hooks (Some 1) "y.dat" "table" tt Example.one_spec).1
       = Ok s1
     ∧ (new_spec Example.hooks (Some 2) "y.dat" "range" tt
          (new_spec Example.hooks (Some 1) "y.dat" "table" tt
             Example.one_spec).2).1 = Ok s2
     ∧ r1 ≠ r2
     ∧ io_heap
         (new_spec Example.hooks (Some 2) "y.dat" "range" tt
            (new_spec Example.hooks (Some 1) "y.dat" "table" tt
               Example.one_spec).2).2 !! r1
       = Some (mkIO "y.dat" [s1] None tt)
     ∧ io_heap
         (new_spec Example.hooks (Some 2) "y.dat" "range" tt
            (new_spec Example.hooks (Some 1) "y.dat" "table" tt
               Example.one_spec).2).2 !! r2
       = Some (mkIO "y.dat" [s2] None tt)).
Proof.
  assert (index_wf Example.one_spec) as Hwf.
  { apply index_wfb_sound. vm_compute. reflexivity. }
  split_and!.
  - destruct (C7_key_resolution_sharing Example.hooks Example.one_spec
                (Some 1) (Some 2) "/tmp/x" None None tt tt Hwf)
      as (_ & _ & (r1 & r2 & H1 & H2 & _ & _ & _ & _ & _ & _ & Habs & _) & _).
    exists r1, r2. split_and!; [exact H1|exact H2|exact (proj1 (Habs eq_refl))].
  - destruct (C7_key_resolution_sharing Example.hooks Example.one_spec
                (Some 1) (Some 2) "x.dat" None None tt tt Hwf)
      as (_ & _ & (r1 & r2 & H1 & H2 & _ & _ & _ & _ & _ & _ & _ & Hrel) & _).
    exists r1, r2. split_and!; [exact H1|exact H2|].
    apply Hrel; [reflexivity|discriminate].
  - destruct (C7_key_resolution_sharing Example.hooks Example.one_spec
                (Some 1) (Some 2) "/tmp/x" None None tt tt Hwf)
      as (_ & _ & _ & _ & Hshared & _).
    destruct (Hshared "table" "range" "table" "range"
                eq_refl eq_refl eq_refl eq_refl eq_refl)
      as (s1 & s2 & r & H1 & H2 & Hne & _ & _ & Hreg & Hio).
    exists s1, s2, r. split_and!; assumption.
  - destruct (C7_key_resolution_sharing Example.hooks Example.one_spec
                (Some 1) (Some 2) "y.dat" None None tt tt Hwf)
      as (_ & _ & _ & _ & _ & Hapart).
    destruct (Hapart "table" "range" "table" "range" eq_refl)
      as (s1 & s2 & r1 & r2 & H1 & H2 & _ & Hne & _ & _ & _ & _ & Hio1 & Hio2);
      [discriminate|reflexivity|reflexivity|reflexivity|reflexivity|].
    exists s1, s2, r1, r2. split_and!; assumption.
Defined.


(** ** Resources without dependents *)

(** C2, as the specification states it, fails: [get_or_create_io] is a
    complete public call, and it leaves the resource that it creates in the
    index with no dependent; so does [restore_io] of a resource whose last
    spec has been removed. *)
Lemma C2_get_or_create_io_registers_orphan :
  (get_or_create_io (Some 1) "x.dat" None tt
     (initial_world (V := string) (K := unit))).1 = Ok 0
  ∧ ¬ no_orphan
        (get_or_create_io (Some 1) "x.dat" None tt
           (initial_world (V := string) (K := unit))).2
  ∧ ¬ no_orphan (restore_io (Some 1) 0 (del_spec 0 Example.one_spec).2).2.
Proof.
  split_and!.
  - vm_compute. reflexivity.
  - intros Hno.
    apply (Hno (Some 1, "x.dat") 0 (mkIO "x.dat" [] None tt));
      vm_compute; reflexivity.
  - intros Hno.
    apply (Hno (Some 1, "x.dat") 0 (mkIO "x.dat" [] None tt));
      vm_compute; reflexivity.
Qed.

(** C2, amended.  In every state that [new_spec], [add_spec], [del_spec],
    [update_spec_value] and [update_path] calls reach from a new manager,
    whether the calls returned or raised, every resource of the index is an
    object with at least one dependent. *)
Theorem C2_no_orphan_after_spec_operations {V K D : Type}
    (hooks : Hooks V K D) (w : World V K D) :
  reachable hooks w →
  ∀ key io_, registered w key io_ →
    ∃ io, io_heap w !! io_ = Some io ∧ _specs io ≠ [].
Proof.
  intros [(_ & _ & Hobj) Hno]%reachable_invariants key io_ Hreg.
  destruct (Hobj key io_ Hreg) as [io Hio].
  exists io. split; [done|]. by eapply Hno.
Qed.

Lemma C2_no_orphan_after_spec_operations_witness :
  ∃ io, io_heap (del_spec 0 Example.two_specs).2 !! 0 = Some io
        ∧ _specs io ≠ [].
Proof.
  apply (C2_no_orphan_after_spec_operations Example.hooks
           (del_spec 0 Example.two_specs).2) with (key := (Some 1, "x.dat")).
  - exact (reachable_step Example.hooks _ (DelSpec 0)
             (reachable_step Example.hooks _ (NewSpec (Some 1) "x.dat" "range" tt)
                (reachable_step Example.hooks _
                   (NewSpec (Some 1) "x.dat" "table" tt)
                   (reachable_init Example.hooks)))).
  - vm_compute. reflexivity.
Defined.

(** * Further properties of the code *)

Arguments BiDict.dict_del : simpl never.

(** ** BiDict *)

Section BiDictMore.
Context {K V : Type} `{EqDecision K} `{Countable V}.
Implicit Types (d : list (K * V)) (self : BiDict.BiDict K V).
Import BiDict.

Lemma dict_del_absent key d : dict_get key d = None → dict_del key d = d.
Proof.
  unfold dict_del. induction d as [|[k0 v0] d IH]; simpl; [done|].
  destruct (decide (k0 = key)); [done|]. intros Hget.
  rewrite filter_cons_True by done. by rewrite IH.
Qed.

Lemma dict_del_set_absent key value d :
  dict_get key d = None → dict_del key (dict_set key value d) = d.
Proof.
  unfold dict_del. induction d as [|[k0 v0] d IH]; simpl.
  - intros _. by rewrite filter_cons_False, filter_nil by (simpl; tauto).
  - destruct (decide (k0 = key)); [done|]. intros Hget.
    rewrite filter_cons_True by done. by rewrite IH.
Qed.

(** The loop of [__init__] returns exactly when no value occurs twice and
    none is in the inverse map yet. *)
Lemma init_inverse_Ok_iff its (inv : gmap V K) :
  (∃ inv', init_inverse its inv = Ok inv')
  ↔ NoDup its.*2 ∧ ∀ v, v ∈ its.*2 → inv !! v = None.
Proof.
  revert inv. induction its as [|[key value] its IH]; intros inv; simpl.
  - split; [|by eexists]. intros _. split; [apply NoDup_nil_2|].
    intros v Hv. by apply elem_of_nil in Hv.
  - destruct (inv !! value) eqn:Hval.
    + split; [by intros [? ?]|]. intros [_ Hnone].
      rewrite Hnone in Hval by left. done.
    + rewrite IH, NoDup_cons. split.
      * intros [Hnd Hnone]. split_and!; [|done|].
        -- intros Hin. apply Hnone in Hin. by rewrite lookup_insert_eq in Hin.
        -- intros v [->|Hin]%elem_of_cons; [done|].
           apply Hnone in Hin. rewrite lookup_insert in Hin.
           by destruct (decide (value = v)).
      * intros [[Hnotin Hnd] Hnone]. split; [done|]. intros v Hin.
        rewrite lookup_insert_ne; [apply Hnone; by right|].
        by intros ->.
Qed.

Lemma init_inverse_Raise its (inv : gmap V K) e :
  init_inverse its inv = Raise e → e = ValueError "not injective mapping".
Proof.
  revert inv. induction its as [|[key value] its IH]; intros inv; simpl;
    [done|].
  destruct (inv !! value); [by intros [= <-]|]. apply IH.
Qed.

End BiDictMore.

(** X1.  [BiDict(args)] returns exactly when the dict made of [args] holds
    no value twice; it is then that dict with an inverse map that agrees
    with it.  Otherwise it raises its ValueError. *)
Theorem X1_bidict_init_injective {K V : Type} `{EqDecision K} `{Countable V}
    (args : list (K * V)) :
  match BiDict.__init__ args with
  | Ok self =>
      BiDict.items self
      = foldl (λ d kv, BiDict.dict_set kv.1 kv.2 d) [] args
      ∧ NoDup (BiDict.values self)
      ∧ NoDup (BiDict.keys self)
      ∧ BiDict.consistent self
  | Raise e =>
      e = ValueError "not injective mapping"
      ∧ ¬ NoDup (foldl (λ d kv, BiDict.dict_set kv.1 kv.2 d) [] args).*2
  end.
Proof.
  destruct (BiDict.__init__ args) as [self|e] eqn:Hrun.
  - pose proof (init_consistent args self Hrun) as Hc.
    unfold BiDict.__init__ in Hrun.
    destruct (BiDict.init_inverse _ ∅) as [inv|] eqn:Hinv; [|done].
    injection Hrun as <-. split_and!; [done| | |done].
    + unfold BiDict.values. simpl.
      by apply (proj1 (init_inverse_Ok_iff _ ∅)); eexists.
    + apply dict_of_args_NoDup, NoDup_nil_2.
  - unfold BiDict.__init__ in Hrun.
    destruct (BiDict.init_inverse _ ∅) as [inv|e'] eqn:Hinv; [done|].
    injection Hrun as <-. split; [by eapply init_inverse_Raise|].
    intros Hnd.
    destruct (proj2 (init_inverse_Ok_iff
                       (foldl (λ d kv, BiDict.dict_set kv.1 kv.2 d) [] args) ∅))
      as [inv Hok]; [|congruence].
    split; [done|]. intros v _. apply lookup_empty.
Qed.

(** X2.  When [self[key] = value] returns on a dict whose directions agree,
    and the key was there or the value was not, the directions still agree,
    the key reads [value], the value reads back [key], and every other key
    reads as before. *)
Theorem X2_bidict_setitem_post {K V : Type} `{EqDecision K} `{Countable V}
    (key : K) (value : V) (self self' : BiDict.BiDict K V) :
  BiDict.consistent self →
  is_Some (BiDict.dict_get key (BiDict.items self))
    ∨ BiDict.inverse self !! value = None →
  BiDict.__setitem__ key value self = Ok self' →
  BiDict.consistent self'
  ∧ BiDict.dict_get key (BiDict.items self') = Some value
  ∧ BiDict.inverse self' !! value = Some key
  ∧ ∀ k, k ≠ key →
      BiDict.dict_get k (BiDict.items self')
      = BiDict.dict_get k (BiDict.items self).
Proof.
  intros Hc Hguard Hrun.
  pose proof (setitem_consistent key value self self' Hc Hguard Hrun) as Hc'.
  assert (BiDict.dict_get key (BiDict.items self') = Some value
          ∧ ∀ k, k ≠ key → BiDict.dict_get k (BiDict.items self')
                           = BiDict.dict_get k (BiDict.items self))
    as [Hkey Hother].
  { unfold BiDict.__setitem__ in Hrun.
    destruct (BiDict.dict_get key (BiDict.items self)) as [old|] eqn:Hget.
    - destruct (decide (value = old)) as [->|Hne].
      { injection Hrun as <-. by split. }
      destruct (BiDict.inverse self !! value); [done|].
      destruct (BiDict.inverse self !! old) as [key'|]; [|done].
      injection Hrun as <-. simpl. split.
      + rewrite dict_get_set. by rewrite decide_True.
      + intros k Hk. rewrite dict_get_set. by rewrite decide_False.
    - injection Hrun as <-. simpl. split.
      + rewrite dict_get_set. by rewrite decide_True.
      + intros k Hk. rewrite dict_get_set. by rewrite decide_False. }
  split_and!; [done|done|by apply Hc'|done].
Qed.

Lemma X2_bidict_setitem_post_witness :
  BiDict.dict_get "a" [("a", 2); ("b", 3)] = Some 2
  ∧ BiDict.consistent (BiDict.mk [("a", 2); ("b", 3)] {[2 := "a"; 3 := "b"]}).
Proof.
  assert (BiDict.consistent (BiDict.mk [("a", 1); ("b", 3)] {[1 := "a"; 3 := "b"]}))
    as Hc by (apply consistentb_sound; vm_compute; reflexivity).
  destruct (X2_bidict_setitem_post "a" 2
              (BiDict.mk [("a", 1); ("b", 3)] {[1 := "a"; 3 := "b"]})
              (BiDict.mk [("a", 2); ("b", 3)] {[2 := "a"; 3 := "b"]}) Hc)
    as (Hc' & Hkey & _).
  - left. by eexists.
  - vm_compute. reflexivity.
  - split; [exact Hkey|exact Hc'].
Defined.

(** X3.  On a dict whose directions agree, [self[key] = value] raises only
    its ValueError, and exactly when the key holds another value while
    [value] is already in the inverse map; the KeyError of the inner [del]
    does not occur. *)
Theorem X3_bidict_setitem_raises {K V : Type} `{EqDecision K} `{Countable V}
    (key : K) (value : V) (self : BiDict.BiDict K V) (e : exn) :
  BiDict.consistent self →
  BiDict.__setitem__ key value self = Raise e
  ↔ e = ValueError "not injective key-value"
    ∧ ∃ old, BiDict.dict_get key (BiDict.items self) = Some old
             ∧ old ≠ value ∧ is_Some (BiDict.inverse self !! value).
Proof.
  intros Hc. unfold BiDict.__setitem__.
  destruct (BiDict.dict_get key (BiDict.items self)) as [old|] eqn:Hget.
  - destruct (decide (value = old)) as [->|Hne].
    { split; [done|]. by intros (_ & old' & [= <-] & ? & _). }
    destruct (BiDict.inverse self !! value) as [k|] eqn:Hval.
    + split.
      * intros [= <-]. split; [done|]. exists old. by split_and!.
      * by intros [-> _].
    + apply Hc in Hget. rewrite Hget. split; [done|].
      by intros (_ & old' & _ & _ & [? [=]]).
  - split; [done|]. by intros (_ & old & [=] & _).
Qed.

Lemma X3_bidict_setitem_raises_witness :
  BiDict.__setitem__ "a" 3 (BiDict.mk [("a", 1); ("b", 3)] {[1 := "a"; 3 := "b"]})
  = Raise (ValueError "not injective key-value").
Proof.
  apply (X3_bidict_setitem_raises "a" 3
           (BiDict.mk [("a", 1); ("b", 3)] {[1 := "a"; 3 := "b"]})).
  - apply consistentb_sound. vm_compute. reflexivity.
  - split; [reflexivity|]. exists 1. split_and!.
    + reflexivity.
    + discriminate.
    + exists "b". reflexivity.
Defined.

(** X4.  On a dict whose directions agree, [del self[key]] raises KeyError
    exactly when the key is missing; otherwise the key and the inverse entry
    of its value are gone, every other key reads as before, and the
    directions still agree. *)
Theorem X4_bidict_delitem {K V : Type} `{EqDecision K} `{Countable V}
    (key : K) (self : BiDict.BiDict K V) :
  BiDict.consistent self →
  match BiDict.dict_get key (BiDict.items self) with
  | None => BiDict.__delitem__ key self = Raise KeyError
  | Some v =>
      ∃ self', BiDict.__delitem__ key self = Ok self'
               ∧ BiDict.dict_get key (BiDict.items self') = None
               ∧ BiDict.inverse self' !! v = None
               ∧ (∀ k, k ≠ key →
                    BiDict.dict_get k (BiDict.items self')
                    = BiDict.dict_get k (BiDict.items self))
               ∧ BiDict.consistent self'
  end.
Proof.
  intros Hc. unfold BiDict.__delitem__.
  destruct (BiDict.dict_get key (BiDict.items self)) as [v|] eqn:Hget; [|done].
  pose proof Hget as Hinv. apply Hc in Hinv. rewrite Hinv.
  eexists. split; [done|]. simpl. split_and!.
  - rewrite dict_get_del. by rewrite decide_True.
  - apply lookup_delete_eq.
  - intros k Hk. rewrite dict_get_del. by rewrite decide_False.
  - apply consistent_del; [by apply consistent_eta|done].
Qed.

Lemma X4_bidict_delitem_witness :
  BiDict.__delitem__ "c" (BiDict.mk [("a", 1); ("b", 3)] {[1 := "a"; 3 := "b"]})
  = Raise KeyError.
Proof.
  assert (BiDict.consistent
            (BiDict.mk [("a", 1); ("b", 3)] {[1 := "a"; 3 := "b"]})) as Hc.
  { apply consistentb_sound. vm_compute. reflexivity. }
  exact (X4_bidict_delitem "c"
           (BiDict.mk [("a", 1); ("b", 3)] {[1 := "a"; 3 := "b"]}) Hc).
Defined.

(** X5.  Storing a value that is not in the inverse map under a key that is
    not in the dict, and deleting the key again, gives back the very same
    dict and inverse map. *)
Theorem X5_bidict_set_del_round_trip {K V : Type} `{EqDecision K}
    `{Countable V} (key : K) (value : V) (self : BiDict.BiDict K V) :
  BiDict.dict_get key (BiDict.items self) = None →
  BiDict.inverse self !! value = None →
  ∃ self', BiDict.__setitem__ key value self = Ok self'
           ∧ BiDict.__delitem__ key self' = Ok self.
Proof.
  intros Hkey Hval. eexists. split; [by apply setitem_absent|].
  unfold BiDict.__delitem__. simpl.
  rewrite dict_get_set, decide_True, lookup_insert_eq by done.
  rewrite dict_del_set_absent, delete_insert_id by done.
  by destruct self.
Qed.

Lemma X5_bidict_set_del_round_trip_witness :
  ∃ self', BiDict.__setitem__ "c" 5 (BiDict.mk [("a", 1)] {[1 := "a"]})
           = Ok self'
           ∧ BiDict.__delitem__ "c" self' = Ok (BiDict.mk [("a", 1)] {[1 := "a"]}).
Proof.
  apply (X5_bidict_set_del_round_trip "c" 5 (BiDict.mk [("a", 1)] {[1 := "a"]}));
    reflexivity.
Defined.

(** ** The manager *)

Section ManagerMore.
Context {V K D : Type} (hooks : Hooks V K D).
Implicit Types (w : World V K D).
Import BiDict.

(** The loop of [_can_add_spec], when the specs it looks at are objects. *)
Lemma _can_add_spec_loop_run cs spec sp w :
  spec_heap w !! spec = Some sp →
  (∀ c, c ∈ cs → is_Some (spec_heap w !! c)) →
  _can_add_spec_loop hooks cs spec w
  = (Ok (forallb (λ c, match spec_heap w !! c with
                       | Some other =>
                           can_add_other hooks (spec_value other) (spec_value sp)
                       | None => true
                       end) cs), w).
Proof.
  intros Hsp. induction cs as [|c cs IH]; intros Hcs; [done|].
  cbn [_can_add_spec_loop forallb]. m_step.
  destruct (Hcs c) as [other Hother]; [by left|]. rewrite Hother. cbn.
  rewrite Hsp. cbn.
  destruct (can_add_other _ _ _); cbn; [|done].
  apply IH. intros c' Hc'. apply Hcs. by right.
Qed.

(** Every outcome of [del_spec]. *)
Lemma del_spec_cases spec w :
  del_spec spec w = (Raise AttributeError, w)
  ∨ del_spec spec w = (Ok tt, w)
    ∧ (∀ sp io_ io, spec_heap w !! spec = Some sp → _io sp = PyIO io_ →
         io_heap w !! io_ = Some io → spec ∉ _specs io)
  ∨ ∃ sp io_ io,
      spec_heap w !! spec = Some sp ∧ _io sp = PyIO io_
      ∧ io_heap w !! io_ = Some io ∧ spec ∈ _specs io
      ∧ spec_heap (del_spec spec w).2 = spec_heap w
      ∧ io_heap (del_spec spec w).2
        = <[io_ := mkIO (_path io) (filter (λ c, c ≠ spec) (_specs io))
                        (_load_from io) (io_data io)]> (io_heap w)
      ∧ ((del_spec spec w).1 = Ok tt ∨ (del_spec spec w).1 = Raise KeyError).
Proof.
  unfold del_spec. m_step.
  destruct (spec_heap w !! spec) as [sp|] eqn:Hsp; cbn; [|by left].
  destruct (_io sp) as [| | |io_|] eqn:Hsio; m_step; try by left.
  destruct (io_heap w !! io_) as [io|] eqn:Hio; cbn; [|by left].
  case_bool_decide as Hin; cbn.
  2:{ right. left. split; [done|]. intros sp' io_' io' [= <-] Hsio'.
      rewrite Hsio in Hsio'. injection Hsio' as <-.
      rewrite Hio. by intros [= <-]. }
  right. right. exists sp, io_, io. rewrite lookup_insert_eq. cbn.
  split_and!; [done..| | |].
  - destruct (filter _ (_specs io)); cbn; [|done].
    unfold _del_io. m_step. rewrite lookup_insert_eq. cbn.
    destruct (find _ _) as [[key v]|]; cbn; [|done].
    match goal with
    | |- context [ios_delitem ?k ?W] =>
        destruct (ios_delitem_cases k W) as [[e ->]|(r & _ & ->)]
    end; done.
  - destruct (filter _ (_specs io)) eqn:Hrest; cbn; [|done].
    unfold _del_io. m_step. rewrite lookup_insert_eq. cbn.
    destruct (find _ _) as [[key v]|]; cbn; [|done].
    match goal with
    | |- context [ios_delitem ?k ?W] =>
        destruct (ios_delitem_cases k W) as [[e ->]|(r & _ & ->)]
    end; done.
  - destruct (filter _ (_specs io)); cbn; [|by left].
    unfold _del_io. m_step. rewrite lookup_insert_eq. cbn.
    destruct (find _ _) as [[key v]|] eqn:Hfind; cbn; [|by left].
    unfold ios_delitem, __delitem__. m_step.
    destruct (dict_get key _); cbn; [|by right].
    destruct (inverse _ !! _); cbn; [by left|by right].
Qed.

End ManagerMore.

(** X6.  [get_or_create_io] always returns a resource, which is then in the
    index under the key of the call; the RuntimeError of [_new_io] is never
    reached.  A second call for the same group and path returns the same
    resource and changes nothing, whatever its other arguments. *)
Theorem X6_get_or_create_io_idempotent {V K D : Type} (w : World V K D)
    (io_group : option nat) (path : Path) (lf lf' : option Path) (a a' : D) :
  ∃ io_, (get_or_create_io io_group path lf a w).1 = Ok io_
         ∧ registered (get_or_create_io io_group path lf a w).2
             (_get_io_key io_group path) io_
         ∧ get_or_create_io io_group path lf' a'
             (get_or_create_io io_group path lf a w).2
           = (Ok io_, (get_or_create_io io_group path lf a w).2).
Proof.
  destruct (BiDict.dict_get (_get_io_key io_group path) (index w))
    as [io_|] eqn:Hget.
  - exists io_. rewrite (get_or_create_io_existing io_group path lf a w io_)
      by done.
    split_and!; [done|done|]. by apply get_or_create_io_existing.
  - exists (fresh (dom (io_heap w))). rewrite get_or_create_io_new by done.
    assert (registered
              (get_or_create_io io_group path lf a w).2
              (_get_io_key io_group path) (fresh (dom (io_heap w)))) as Hreg.
    { rewrite get_or_create_io_new by done. unfold registered, index. cbn.
      rewrite dict_get_set. by rewrite decide_True. }
    rewrite get_or_create_io_new in Hreg by done.
    split_and!; [done|done|]. by apply get_or_create_io_existing.
Qed.

(** X7.  When [add_spec] returns, the spec is among the dependents of the
    resource, and adding it again returns and changes nothing. *)
Theorem X7_add_spec_idempotent {V K D : Type} (hooks : Hooks V K D)
    (w : World V K D) (io_ spec : nat) :
  (add_spec hooks io_ spec w).1 = Ok tt →
  (∃ io, io_heap (add_spec hooks io_ spec w).2 !! io_ = Some io
         ∧ spec ∈ _specs io)
  ∧ add_spec hooks io_ spec (add_spec hooks io_ spec w).2
    = (Ok tt, (add_spec hooks io_ spec w).2).
Proof.
  intros Hok.
  assert (∃ io, io_heap (add_spec hooks io_ spec w).2 !! io_ = Some io
                ∧ spec ∈ _specs io) as (io & Hio & Hin).
  { destruct (add_spec_cases hooks io_ spec w) as [Hsame|(io & Hio & _ & Hrun)].
    - revert Hok Hsame. unfold add_spec. m_step.
      destruct (io_heap w !! io_) as [io|] eqn:Hio; cbn; [|done].
      case_bool_decide as Hin; cbn.
      + intros _ _. by exists io.
      + pose proof (_can_add_spec_pure hooks io_ spec w) as Hpure.
        destruct (_can_add_spec hooks io_ spec w) as [[[|]|e] w1];
          simpl in Hpure; subst w1; cbn; [|done|done].
        intros _ Hsame. exists io. rewrite <- Hsame in Hio at 1.
        cbn in Hio. rewrite lookup_insert_eq in Hio.
        injection Hio as Hio. rewrite <- Hio in Hin. cbn in Hin.
        destruct Hin. apply elem_of_app. right. by left.
    - rewrite Hrun. cbn. rewrite lookup_insert_eq. eexists. split; [done|].
      cbn. apply elem_of_app. right. by left. }
  split; [by exists io|].
  unfold add_spec at 1. m_step. rewrite Hio. cbn.
  by rewrite bool_decide_eq_true_2.
Qed.

Lemma X7_add_spec_idempotent_witness :
  add_spec Example.hooks 0 0 (add_spec Example.hooks 0 0 Example.one_spec).2
  = (Ok tt, (add_spec Example.hooks 0 0 Example.one_spec).2).
Proof.
  exact (proj2 (X7_add_spec_idempotent Example.hooks Example.one_spec 0 0
                  eq_refl)).
Defined.

(** X8.  For a spec that is not yet a dependent, [add_spec] asks every
    dependent of the resource whether it accepts the newcomer.  If all do,
    the spec is appended after the others and nothing else changes; if one
    does not, the call raises its ValueError and changes nothing. *)
Theorem X8_add_spec_verdict {V K D : Type} (hooks : Hooks V K D)
    (w : World V K D) (io_ spec : nat) (io : BaseSharedIO D)
    (sp : BaseIOSpec V) :
  io_heap w !! io_ = Some io → spec_heap w !! spec = Some sp →
  spec ∉ _specs io →
  (∀ c, c ∈ _specs io → is_Some (spec_heap w !! c)) →
  add_spec hooks io_ spec w
  = if forallb (λ c, match spec_heap w !! c with
                     | Some other =>
                         can_add_other hooks (spec_value other) (spec_value sp)
                     | None => true
                     end) (_specs io)
    then (Ok tt,
          mkWorld (manager w)
            (<[io_ := mkIO (_path io) (_specs io ++ [spec])
                           (_load_from io) (io_data io)]> (io_heap w))
            (spec_heap w) (trace w))
    else (Raise (ValueError "cannot add spec"), w).
Proof.
  intros Hio Hsp Hin Hobj. unfold add_spec, _can_add_spec. m_step.
  rewrite Hio. cbn. rewrite bool_decide_eq_false_2 by done. cbn.
  rewrite Hio. cbn.
  rewrite (_can_add_spec_loop_run hooks (_specs io) spec sp w) by done.
  cbn. by destruct (forallb _ _).
Qed.

Lemma X8_add_spec_verdict_witness :
  add_spec Example.hooks 0 1 Example.two_files
  = (Ok tt,
     mkWorld (manager Example.two_files)
       (<[0 := mkIO "x.dat" [0; 1] None tt]> (io_heap Example.two_files))
       (spec_heap Example.two_files) (trace Example.two_files)).
Proof.
  refine (X8_add_spec_verdict Example.hooks Example.two_files 0 1
            (mkIO "x.dat" [0] None tt) (mkSpec PyManager (PyIO 1) None "table")
            eq_refl eq_refl _ _).
  - by apply (bool_decide_unpack _).
  - intros c ->%list_elem_of_singleton. by eexists.
Defined.

(** X9.  [del_spec] returns, or fails on an attribute of something that is
    not an object, or with the KeyError of a dict deletion.  It never raises
    the RuntimeError with which [_del_io] refuses a resource that still has
    dependents. *)
Theorem X9_del_spec_outcomes {V K D : Type} (w : World V K D) (spec : nat) :
  (del_spec spec w).1 = Ok tt
  ∨ (del_spec spec w).1 = Raise AttributeError
  ∨ (del_spec spec w).1 = Raise KeyError.
Proof.
  destruct (del_spec_cases spec w)
    as [->|[[-> _]|(sp & io_ & io & _ & _ & _ & _ & _ & _ & [->| ->])]];
    auto.
Qed.

Section DelSpecMore.
Context {V K D : Type}.
Implicit Types (w : World V K D).

Lemma del_spec_not_dependent spec sp io_ io w :
  spec_heap w !! spec = Some sp → _io sp = PyIO io_ →
  io_heap w !! io_ = Some io → spec ∉ _specs io →
  del_spec spec w = (Ok tt, w).
Proof.
  intros Hsp Hsio Hio Hin. unfold del_spec. m_step.
  rewrite Hsp. cbn. rewrite Hsio. m_step. rewrite Hio. cbn.
  by rewrite bool_decide_eq_false_2.
Qed.

(** The resource has lost its last dependent and is not in the index. *)
Lemma del_spec_last_unregistered spec sp io_ io w :
  spec_heap w !! spec = Some sp → _io sp = PyIO io_ →
  io_heap w !! io_ = Some io → spec ∈ _specs io →
  filter (λ c, c ≠ spec) (_specs io) = [] →
  find (λ kv, bool_decide (kv.2 = io_)) (index w) = None →
  del_spec spec w
  = (Ok tt,
     mkWorld (manager w)
       (<[io_ := mkIO (_path io) [] (_load_from io) (io_data io)]> (io_heap w))
       (spec_heap w) (trace w)).
Proof.
  intros Hsp Hsio Hio Hin Hrest Hfind. unfold del_spec. m_step.
  rewrite Hsp. cbn. rewrite Hsio. m_step. rewrite Hio. cbn.
  rewrite bool_decide_eq_true_2 by done. cbn.
  rewrite lookup_insert_eq. cbn. rewrite Hrest.
  unfold _del_io. m_step. rewrite lookup_insert_eq. cbn.
  unfold index in Hfind. by rewrite Hfind.
Qed.

(** With a well-formed index, [del_spec] of a spec bound to a resource
    returns, and the resource is left with the other dependents. *)
Lemma del_spec_returns spec sp io_ io w :
  index_wf w →
  spec_heap w !! spec = Some sp → _io sp = PyIO io_ →
  io_heap w !! io_ = Some io →
  (del_spec spec w).1 = Ok tt
  ∧ spec_heap (del_spec spec w).2 = spec_heap w
  ∧ ((del_spec spec w).2 = w ∧ spec ∉ _specs io
     ∨ io_heap (del_spec spec w).2
       = <[io_ := mkIO (_path io) (filter (λ c, c ≠ spec) (_specs io))
                       (_load_from io) (io_data io)]> (io_heap w)).
Proof.
  intros Hwf Hsp Hsio Hio.
  destruct (decide (spec ∈ _specs io)) as [Hin|Hin].
  2:{ rewrite (del_spec_not_dependent spec sp io_ io) by done. auto. }
  destruct (filter (λ c, c ≠ spec) (_specs io)) as [|c cs] eqn:Hrest.
  - destruct (find (λ kv, bool_decide (kv.2 = io_)) (index w))
      as [[key v]|] eqn:Hfind.
    + pose proof Hwf as (Hnd & Hc & _).
      apply find_value_Some in Hfind as [-> Hkey].
      apply elem_of_dict_get in Hkey; [|done].
      rewrite (del_spec_last spec sp io_ io key) by done.
      split_and!; [done|done|]. by right.
    + rewrite (del_spec_last_unregistered spec sp io_ io) by done.
      split_and!; [done|done|]. by right.
  - rewrite (del_spec_remaining spec sp io_ io) by (done || by rewrite Hrest).
    split_and!; [done|done|]. right. cbn. by rewrite Hrest.
Qed.

End DelSpecMore.

(** X10.  With a well-formed index, [del_spec] of a spec that is bound to a
    resource returns; afterwards the spec is not a dependent of the resource,
    the other dependents are the same, and a second [del_spec] returns and
    changes nothing. *)
Theorem X10_del_spec_idempotent {V K D : Type} (w : World V K D)
    (spec io_ : nat) (sp : BaseIOSpec V) (io : BaseSharedIO D) :
  index_wf w →
  spec_heap w !! spec = Some sp → _io sp = PyIO io_ →
  io_heap w !! io_ = Some io →
  (del_spec spec w).1 = Ok tt
  ∧ (∃ io', io_heap (del_spec spec w).2 !! io_ = Some io'
            ∧ (spec ∉ _specs io')
            ∧ ∀ c, c ≠ spec → (c ∈ _specs io' ↔ c ∈ _specs io))
  ∧ del_spec spec (del_spec spec w).2 = (Ok tt, (del_spec spec w).2).
Proof.
  intros Hwf Hsp Hsio Hio.
  destruct (del_spec_returns spec sp io_ io w Hwf Hsp Hsio Hio)
    as (Hres & Hsh & Hheap).
  assert (∃ io', io_heap (del_spec spec w).2 !! io_ = Some io'
                 ∧ (spec ∉ _specs io')
                 ∧ ∀ c, c ≠ spec → (c ∈ _specs io' ↔ c ∈ _specs io))
    as (io' & Hio' & Hout & Hsame).
  { destruct Hheap as [[-> Hin]| ->].
    - exists io. by split_and!.
    - eexists. rewrite lookup_insert_eq. split; [done|]. cbn. split.
      + rewrite list_elem_of_filter. tauto.
      + intros c Hc. rewrite list_elem_of_filter. tauto. }
  split_and!; [done|by exists io'|].
  apply (del_spec_not_dependent spec sp io_ io'); [by rewrite Hsh|done..].
Qed.

Lemma X10_del_spec_idempotent_witness :
  del_spec 0 (del_spec 0 Example.two_specs).2
  = (Ok tt, (del_spec 0 Example.two_specs).2).
Proof.
  refine (proj2 (proj2 (X10_del_spec_idempotent Example.two_specs 0 0
            (mkSpec PyManager (PyIO 0) None "table")
            (mkIO "x.dat" [0; 1] None tt) _ eq_refl eq_refl eq_refl))).
  apply index_wfb_sound. vm_compute. reflexivity.
Defined.

(** ** Creating and removing specs *)

(** X11.  From a well-formed index, creating a spec on a file that has no
    resource yet and deleting that spec again gives back the manager as it
    was: the same dict, the same inverse map, the same mode. *)
Theorem X11_new_spec_del_spec_round_trip {V K D : Type} (hooks : Hooks V K D)
    (w : World V K D) (io_group : option nat) (path : Path)
    (spec_args v : V) (io_args : D) :
  index_wf w →
  BiDict.dict_get (_get_io_key io_group path) (index w) = None →
  on_load_value hooks io_args spec_args = inr v →
  ∃ spec,
    (new_spec hooks io_group path spec_args io_args w).1 = Ok spec
    ∧ (del_spec spec (new_spec hooks io_group path spec_args io_args w).2).1
      = Ok tt
    ∧ manager
        (del_spec spec (new_spec hooks io_group path spec_args io_args w).2).2
      = manager w.
Proof.
  intros Hwf Hfree Hload. exists (fresh (dom (spec_heap w))).
  rewrite (new_spec_load_ok_fresh hooks io_group path spec_args io_args v)
    by done.
  split; [done|]. cbn [snd].
  erewrite (del_spec_last (fresh (dom (spec_heap w))) _
              (fresh (dom (io_heap w))) _ (_get_io_key io_group path)).
  - split; [done|].
    lazy beta iota delta [snd manager ios index BiDict.items BiDict.inverse].
    fold (manager w). fold (ios (manager w)).
    fold (BiDict.items (ios (manager w))).
    fold (BiDict.inverse (ios (manager w))).
    rewrite dict_del_set_absent by done.
    rewrite delete_insert_id by by apply fresh_not_in_inverse.
    by destruct (manager w) as [[its inv] mode].
  - cbn. by rewrite lookup_insert_eq.
  - done.
  - cbn. by rewrite lookup_insert_eq.
  - cbn. left.
  - lazy beta iota delta [_specs].
    rewrite filter_cons_False, filter_nil; [done|]. by intros ?.
  - by eapply (index_wf_created (_get_io_key io_group path)).
  - unfold registered, index. cbn. rewrite dict_get_set.
    by rewrite decide_True.
Qed.

Lemma X11_new_spec_del_spec_round_trip_witness :
  ∃ spec,
    (new_spec Example.hooks (Some 1) "y.dat" "table" tt Example.one_spec).1
      = Ok spec
    ∧ (del_spec spec
         (new_spec Example.hooks (Some 1) "y.dat" "table" tt
            Example.one_spec).2).1 = Ok tt
    ∧ manager
        (del_spec spec
           (new_spec Example.hooks (Some 1) "y.dat" "table" tt
              Example.one_spec).2).2
      = manager Example.one_spec.
Proof.
  apply (X11_new_spec_del_spec_round_trip Example.hooks Example.one_spec
           (Some 1) "y.dat" "table" "table" tt).
  - apply index_wfb_sound. vm_compute. reflexivity.
  - reflexivity.
  - reflexivity.
Defined.

(** X12.  When [new_spec] fails on a resource that is already in the index
    and has dependents, whether in the load hook or because a dependent
    refuses the newcomer, the index and every resource are as before. *)
Theorem X12_new_spec_failure_on_shared_resource {V K D : Type}
    (hooks : Hooks V K D) (w : World V K D) (io_group : option nat)
    (path : Path) (spec_args : V) (io_args : D) (io_ : nat)
    (io : BaseSharedIO D) (e : exn) :
  registered w (_get_io_key io_group path) io_ →
  io_heap w !! io_ = Some io → _specs io ≠ [] →
  (new_spec hooks io_group path spec_args io_args w).1 = Raise e →
  manager (new_spec hooks io_group path spec_args io_args w).2 = manager w
  ∧ io_heap (new_spec hooks io_group path spec_args io_args w).2 = io_heap w.
Proof.
  intros Hreg Hio Hspecs Hres.
  destruct (new_spec_existing hooks io_group path spec_args io_args io_ io w
              Hreg Hio) as [(Hok & _)|[_ Hsame]]; [congruence|].
  by apply Hsame.
Qed.

Lemma X12_new_spec_failure_on_shared_resource_witness :
  manager (new_spec Example.hooks (Some 1) "x.dat" "corrupt" tt
             Example.one_spec).2 = manager Example.one_spec
  ∧ io_heap (new_spec Example.hooks (Some 1) "x.dat" "corrupt" tt
               Example.one_spec).2 = io_heap Example.one_spec.
Proof.
  apply (X12_new_spec_failure_on_shared_resource Example.hooks Example.one_spec
           (Some 1) "x.dat" "corrupt" tt 0 (mkIO "x.dat" [0] None tt)
           (HookError "cannot load")).
  - reflexivity.
  - reflexivity.
  - discriminate.
  - reflexivity.
Defined.

(** X13.  The rollback of [new_spec] does not ask whether the resource was
    made by the call: when the load hook fails on a resource that was in the
    index before, with no dependents and with the path of its key, the call
    deletes its key all the same. *)
Theorem X13_new_spec_retires_earlier_orphan {V K D : Type}
    (hooks : Hooks V K D) (w : World V K D) (io_group : option nat)
    (path : Path) (spec_args : V) (io_args : D) (io_ : nat)
    (io : BaseSharedIO D) (what : string) :
  BiDict.consistent (ios (manager w)) →
  registered w (_get_io_key io_group path) io_ →
  io_heap w !! io_ = Some io → _specs io = [] → _path io = path →
  on_load_value hooks (io_data io) spec_args = inl what →
  (new_spec hooks io_group path spec_args io_args w).1
    = Raise (HookError what)
  ∧ BiDict.dict_get (_get_io_key io_group path)
      (index (new_spec hooks io_group path spec_args io_args w).2) = None
  ∧ BiDict.inverse
      (ios (manager (new_spec hooks io_group path spec_args io_args w).2))
      !! io_ = None.
Proof.
  intros Hc Hreg Hio Hspecs Hpath Hload. unfold new_spec. m_step.
  rewrite !lookup_insert_eq. cbn.
  rewrite (get_or_create_io_existing io_group path None io_args _ io_)
    by exact Hreg.
  cbn. rewrite !lookup_insert_eq. cbn.
  unfold _on_load_value. m_step.
  repeat (rewrite lookup_insert_eq; cbn). rewrite Hio. cbn.
  rewrite Hload. cbn. repeat (rewrite lookup_insert_eq; cbn).
  rewrite Hio. cbn. rewrite Hspecs, Hpath.
  rewrite (ios_delitem_present (_get_io_key io_group path) io_) by done.
  cbn. split_and!; [done| |].
  - unfold index. cbn. rewrite dict_get_del. by rewrite decide_True.
  - lazy beta iota delta [BiDict.inverse]. apply lookup_delete_eq.
Qed.

Lemma X13_new_spec_retires_earlier_orphan_witness :
  BiDict.dict_get (Some 1, "x.dat")
    (index (new_spec Example.hooks (Some 1) "x.dat" "corrupt" tt
              (get_or_create_io (Some 1) "x.dat" None tt
                 (initial_world (V := string) (K := unit))).2).2) = None.
Proof.
  refine (proj1 (proj2
    (X13_new_spec_retires_earlier_orphan Example.hooks
       (get_or_create_io (Some 1) "x.dat" None tt
          (initial_world (V := string) (K := unit))).2
       (Some 1) "x.dat" "corrupt" tt 0 (mkIO "x.dat" [] None tt)
       "cannot load" _ eq_refl eq_refl eq_refl eq_refl eq_refl))).
  apply consistentb_sound. vm_compute. reflexivity.
Defined.

(** ** Renaming *)

(** X14.  Renaming a resource to a free path and back again restores the
    index: every key reads as before and the inverse map is the same, and
    the resource has its old path and its dependents.  This is for paths
    that stay in the namespace of the key: [(group, path)] resolves to
    itself for both paths. *)
Theorem X14_update_path_round_trip {V K D : Type} (w : World V K D)
    (io_ : nat) (io : BaseSharedIO D) (group : option nat) (p q : Path) :
  BiDict.consistent (ios (manager w)) →
  BiDict.inverse (ios (manager w)) !! io_ = Some (group, p) →
  io_heap w !! io_ = Some io →
  q ≠ p →
  BiDict.dict_get (group, q) (index w) = None →
  _get_io_key group q = (group, q) → _get_io_key group p = (group, p) →
  (update_path io_ q w).1 = Ok tt
  ∧ (update_path io_ p (update_path io_ q w).2).1 = Ok tt
  ∧ (∀ k, BiDict.dict_get k
            (index (update_path io_ p (update_path io_ q w).2).2)
          = BiDict.dict_get k (index w))
  ∧ BiDict.inverse
      (ios (manager (update_path io_ p (update_path io_ q w).2).2))
    = BiDict.inverse (ios (manager w))
  ∧ io_heap (update_path io_ p (update_path io_ q w).2).2
    = <[io_ := mkIO p (_specs io) (_load_from io) (io_data io)]> (io_heap w).
Proof.
  intros Hc Hinv Hio Hne Hfree Hq Hp.
  assert (BiDict.dict_get (group, p) (index w) = Some io_) as Hold
    by by apply Hc.
  rewrite (update_path_moves io_ io group p q) by (done || by rewrite Hq).
  rewrite Hq. split; [done|]. cbn [snd].
  rewrite (update_path_moves io_
             (mkIO q (_specs io) (_load_from io) (io_data io)) group q p).
  - rewrite Hp. split; [done|]. split_and!.
    + intros k. unfold index in *. cbn.
      rewrite !dict_get_set, !dict_get_del, dict_get_set, dict_get_del.
      destruct (decide ((group, p) = k)) as [<-|Hkp].
      * by rewrite Hold.
      * destruct (decide ((group, q) = k)) as [<-|Hkq]; [by rewrite Hfree|].
        done.
    + lazy beta iota delta [snd manager ios BiDict.inverse].
      fold (manager w). fold (ios (manager w)).
      fold (BiDict.inverse (ios (manager w))).
      apply map_eq. intros i. rewrite lookup_insert, lookup_delete.
      destruct (decide (io_ = i)) as [<-|Hi]; [by rewrite Hinv|].
      by rewrite lookup_insert_ne, lookup_delete_ne.
    + cbn. by rewrite insert_insert_eq.
  - lazy beta iota delta [manager ios].
    apply (consistent_move (group, p)); [by apply consistent_eta|done|done].
  - lazy beta iota delta [manager ios BiDict.inverse].
    by rewrite lookup_insert_eq.
  - lazy beta iota delta [io_heap]. apply lookup_insert_eq.
  - done.
  - rewrite Hp. unfold index. cbn.
    rewrite dict_get_set, decide_False, dict_get_del by congruence.
    by rewrite decide_True.
Qed.

Lemma X14_update_path_round_trip_witness :
  BiDict.inverse
    (ios (manager (update_path 0 "x.dat"
                     (update_path 0 "z.dat" Example.two_files).2).2))
  = BiDict.inverse (ios (manager Example.two_files)).
Proof.
  refine (proj1 (proj2 (proj2 (proj2
    (X14_update_path_round_trip Example.two_files 0
       (mkIO "x.dat" [0] None tt) (Some 1) "x.dat" "z.dat"
       _ eq_refl eq_refl _ eq_refl eq_refl eq_refl))))).
  - apply consistentb_sound. vm_compute. reflexivity.
  - discriminate.
Defined.

(** X15.  A rename takes the group from the current key and resolves the new
    path with it, so a relative resource that is renamed to an absolute path
    gets the key [(None, path)], and renamed back to its relative path it is
    under [(None, path)], not in its group again. *)
Theorem X15_update_path_absolute_leaves_group {V K D : Type}
    (w : World V K D) (io_ : nat) (io : BaseSharedIO D) (g : nat)
    (p q : Path) :
  BiDict.consistent (ios (manager w)) →
  BiDict.inverse (ios (manager w)) !! io_ = Some (Some g, p) →
  io_heap w !! io_ = Some io →
  is_absolute p = false → is_absolute q = true →
  BiDict.dict_get (None, q) (index w) = None →
  BiDict.dict_get (None, p) (index w) = None →
  (update_path io_ q w).1 = Ok tt
  ∧ registered (update_path io_ q w).2 (None, q) io_
  ∧ (update_path io_ p (update_path io_ q w).2).1 = Ok tt
  ∧ registered (update_path io_ p (update_path io_ q w).2).2 (None, p) io_
  ∧ BiDict.dict_get (Some g, p)
      (index (update_path io_ p (update_path io_ q w).2).2) = None
  ∧ BiDict.inverse
      (ios (manager (update_path io_ p (update_path io_ q w).2).2)) !! io_
    = Some (None, p).
Proof.
  intros Hc Hinv Hio Hp Hq Hfreeq Hfreep.
  assert (q ≠ p) as Hne by (intros ->; congruence).
  assert (∀ group, _get_io_key group q = (None, q)) as Hkq.
  { intros group. unfold _get_io_key. by rewrite Hq. }
  assert (∀ group, _get_io_key group p = (group, p)) as Hkp.
  { intros group. unfold _get_io_key. by rewrite Hp. }
  rewrite (update_path_moves io_ io (Some g) p q) by (done || by rewrite Hkq).
  rewrite Hkq. split; [done|]. split.
  { unfold registered, index. cbn. rewrite dict_get_set.
    by rewrite decide_True. }
  cbn [snd].
  rewrite (update_path_moves io_
             (mkIO q (_specs io) (_load_from io) (io_data io)) None q p).
  - rewrite Hkp. split; [done|]. split_and!.
    + unfold registered, index. cbn. rewrite dict_get_set.
      by rewrite decide_True.
    + unfold index. cbn.
      rewrite dict_get_set, dict_get_del, dict_get_set, dict_get_del.
      repeat case_decide; congruence.
    + lazy beta iota delta [snd manager ios BiDict.inverse].
      by rewrite lookup_insert_eq.
  - lazy beta iota delta [manager ios].
    apply (consistent_move (Some g, p)); [by apply consistent_eta|done|done].
  - lazy beta iota delta [manager ios BiDict.inverse].
    by rewrite lookup_insert_eq.
  - lazy beta iota delta [io_heap]. apply lookup_insert_eq.
  - done.
  - rewrite Hkp. unfold index. cbn.
    rewrite dict_get_set, decide_False, dict_get_del by congruence.
    by rewrite decide_False.
Qed.

Lemma X15_update_path_absolute_leaves_group_witness :
  registered (update_path 0 "x.dat"
                (update_path 0 "/tmp/x" Example.one_spec).2).2
    (None, "x.dat") 0.
Proof.
  refine (proj1 (proj2 (proj2 (proj2
    (X15_update_path_absolute_leaves_group Example.one_spec 0
       (mkIO "x.dat" [0] None tt) 1 "x.dat" "/tmp/x"
       _ eq_refl eq_refl eq_refl eq_refl eq_refl eq_refl))))).
  apply consistentb_sound. vm_compute. reflexivity.
Defined.

(** X16.  A path set through one spec is the path that every spec bound to
    the same resource reads: when the setter of [BaseIOSpec.path] returns,
    for a resource that is in the index with the path of its key, the getter
    gives the new path on each of them. *)
Theorem X16_path_setter_is_shared {V K D : Type} (w : World V K D)
    (s1 s2 io_ : nat) (sp1 sp2 : BaseIOSpec V) (io : BaseSharedIO D)
    (group : option nat) (path : Path) :
  BiDict.consistent (ios (manager w)) →
  BiDict.inverse (ios (manager w)) !! io_ = Some (group, _path io) →
  io_heap w !! io_ = Some io →
  spec_heap w !! s1 = Some sp1 → _io sp1 = PyIO io_ →
  spec_heap w !! s2 = Some sp2 → _io sp2 = PyIO io_ →
  (BaseIOSpec_set_path s1 path w).1 = Ok tt →
  (BaseIOSpec_path s1 (BaseIOSpec_set_path s1 path w).2).1 = Ok path
  ∧ (BaseIOSpec_path s2 (BaseIOSpec_set_path s1 path w).2).1 = Ok path.
Proof.
  intros Hc Hinv Hio Hs1 Hio1 Hs2 Hio2.
  assert (BaseIOSpec_set_path s1 path w = update_path io_ path w) as ->.
  { unfold BaseIOSpec_set_path, BaseSharedIO_set_path. m_step.
    rewrite Hs1. cbn. by rewrite Hio1. }
  assert (∀ s (sp : BaseIOSpec V) (w' : World V K D),
            spec_heap w' !! s = Some sp → _io sp = PyIO io_ →
            ∀ io' : BaseSharedIO D, io_heap w' !! io_ = Some io' →
            (BaseIOSpec_path s w').1 = Ok (_path io')) as Hget.
  { intros s sp w' Hs Hsio io' Hio'. unfold BaseIOSpec_path. m_step.
    rewrite Hs. cbn. rewrite Hsio. m_step. by rewrite Hio'. }
  destruct (decide (path = _path io)) as [->|Hne].
  - rewrite (update_path_same io_ group (_path io)) by done. intros _.
    split; by eapply Hget.
  - destruct (BiDict.dict_get (_get_io_key group path) (index w))
      as [other|] eqn:Hkey.
    + by rewrite (update_path_occupied io_ group (_path io) path other).
    + rewrite (update_path_moves io_ io group (_path io) path) by done.
      intros _.
      split.
      * refine (Hget s1 sp1 _ _ Hio1
                  (mkIO path (_specs io) (_load_from io) (io_data io)) _).
        { exact Hs1. }
        lazy beta iota delta [io_heap snd]. apply lookup_insert_eq.
      * refine (Hget s2 sp2 _ _ Hio2
                  (mkIO path (_specs io) (_load_from io) (io_data io)) _).
        { exact Hs2. }
        lazy beta iota delta [io_heap snd]. apply lookup_insert_eq.
Qed.

Lemma X16_path_setter_is_shared_witness :
  (BaseIOSpec_path 1 (BaseIOSpec_set_path 0 "z.dat" Example.two_specs).2).1
  = Ok "z.dat".
Proof.
  refine (proj2
    (X16_path_setter_is_shared Example.two_specs 0 1 0
       (mkSpec PyManager (PyIO 0) None "table")
       (mkSpec PyManager (PyIO 0) None "range")
       (mkIO "x.dat" [0; 1] None tt) (Some 1) "z.dat"
       _ eq_refl eq_refl eq_refl eq_refl eq_refl eq_refl eq_refl)).
  apply consistentb_sound. vm_compute. reflexivity.
Defined.

(** ** The sanity checks *)

Section DictValues.
Context {K V : Type} `{EqDecision K} `{Countable V}.
Implicit Types (d : list (K * V)).
Import BiDict.

(** A dict in which no value sits under two keys has pairwise different
    values. *)
Lemma values_NoDup d :
  NoDup d.*1 →
  (∀ k1 k2 v, dict_get k1 d = Some v → dict_get k2 d = Some v → k1 = k2) →
  NoDup d.*2.
Proof.
  induction d as [|[k0 v0] d IH]; [intros; apply NoDup_nil_2|].
  rewrite !fmap_cons, NoDup_cons. simpl. intros [Hk0 Hnd] Hone.
  assert (∀ k v, dict_get k d = Some v → k0 ≠ k) as Hother.
  { intros k v Hget%dict_get_Some_elem_of ->. apply Hk0.
    by apply (list_elem_of_fmap_2 fst) in Hget. }
  apply NoDup_cons. split.
  - intros ([k v] & Hv & Hin)%list_elem_of_fmap. simpl in Hv. subst v.
    apply elem_of_dict_get in Hin; [|done].
    apply (Hother k v0 Hin). apply (Hone k0 k v0).
    + by rewrite decide_True.
    + rewrite decide_False; [done|by eapply Hother].
  - apply IH; [done|]. intros k1 k2 v H1 H2. apply (Hone k1 k2 v).
    + rewrite decide_False; [done|by eapply Hother].
    + rewrite decide_False; [done|by eapply Hother].
Qed.

Lemma size_list_to_set_le (l : list V) :
  size (list_to_set l : gset V) ≤ length l.
Proof.
  induction l as [|x l IH]; [by rewrite list_to_set_nil, size_empty|].
  rewrite list_to_set_cons, length_cons, size_union_alt, size_singleton.
  assert (size (list_to_set l ∖ {[x]} : gset V) ≤ size (list_to_set l : gset V)).
  { apply subseteq_size. intros y [Hy _]%elem_of_difference. exact Hy. }
  lia.
Qed.

(** The comparison of [len(d)] with the number of different values passes
    only when the values are pairwise different. *)
Lemma size_list_to_set_NoDup (l : list V) :
  size (list_to_set l : gset V) = length l → NoDup l.
Proof.
  induction l as [|x l IH]; [intros; apply NoDup_nil_2|].
  rewrite list_to_set_cons, length_cons.
  intros Hsize. destruct (decide (x ∈ l)) as [Hin|Hin].
  - pose proof (size_list_to_set_le l) as Hle.
    assert ({[x]} ∪ list_to_set l = (list_to_set l : gset V)) as Heq
      by by apply subseteq_union_1_L, singleton_subseteq_l, elem_of_list_to_set.
    rewrite Heq in Hsize. lia.
  - apply NoDup_cons. split; [done|]. apply IH.
    rewrite size_union in Hsize
      by by rewrite disjoint_singleton_l, elem_of_list_to_set.
    rewrite size_singleton in Hsize. lia.
Qed.

(** With pairwise different values, the scan for a value finds the item
    that holds it. *)
Lemma find_value_NoDup (v : V) d k :
  NoDup d.*2 → (k, v) ∈ d →
  find (λ kv, bool_decide (kv.2 = v)) d = Some (k, v).
Proof.
  induction d as [|[k0 v0] d IH]; simpl.
  - intros _ Hin. by apply not_elem_of_nil in Hin.
  - rewrite NoDup_cons. intros [Hv0 Hnd] [[= -> ->]|Hin]%elem_of_cons.
    + by rewrite bool_decide_eq_true_2.
    + rewrite bool_decide_eq_false_2; [by apply IH|].
      simpl. intros ->. apply Hv0.
      by apply (list_elem_of_fmap_2 snd) in Hin.
Qed.

End DictValues.

Section SanityFacts.
Context {V K D : Type}.
Implicit Types (w : World V K D).
Import BiDict.

Lemma index_values_NoDup w : index_wf w → NoDup (values (ios (manager w))).
Proof.
  intros (Hnd & Hc & _). apply values_NoDup; [done|].
  by apply consistent_one_key.
Qed.

Lemma _check_sanity_distinct_true w :
  _check_sanity_distinct w = true ↔ NoDup (values (ios (manager w))).
Proof.
  unfold _check_sanity_distinct, index, values.
  rewrite bool_decide_eq_true. split.
  - intros Hlen. apply size_list_to_set_NoDup.
    by rewrite length_fmap, <- Hlen.
  - intros Hnd. by rewrite size_list_to_set, length_fmap.
Qed.

(** What each check asks for, read off its assertions. *)
Lemma BaseIOSpec__check_sanity_Sane spec w :
  BaseIOSpec__check_sanity spec w = Sane ↔
  ∃ sp io_ io, spec_heap w !! spec = Some sp ∧ _io sp = PyIO io_
               ∧ io_heap w !! io_ = Some io ∧ spec ∈ _specs io
               ∧ _manager sp = PyManager
               ∧ io_ ∈ values (ios (manager w)).
Proof.
  unfold BaseIOSpec__check_sanity. split.
  - destruct (spec_heap w !! spec) as [sp|]; [|done].
    destruct (_io sp) as [| | |io_|] eqn:Hsio; try done.
    destruct (io_heap w !! io_) as [io|] eqn:Hio; [|done].
    case_bool_decide as Hin; [|done].
    destruct (_manager sp) eqn:Hm; try done.
    case_bool_decide as Hval; [|done]. intros _.
    by exists sp, io_, io.
  - intros (sp & io_ & io & -> & -> & -> & Hin & -> & Hval).
    by rewrite !bool_decide_eq_true_2.
Qed.

Lemma _check_sanity_specs_Sane io_ specs w :
  _check_sanity_specs io_ specs w = Sane ↔
  ∀ spec, spec ∈ specs →
    ∃ sp, spec_heap w !! spec = Some sp ∧ _io sp = PyIO io_
          ∧ BaseIOSpec__check_sanity spec w = Sane.
Proof.
  induction specs as [|s specs IH]; cbn [_check_sanity_specs].
  - split; [|done]. intros _ spec Hin. by apply not_elem_of_nil in Hin.
  - split.
    + destruct (spec_heap w !! s) as [sp|] eqn:Hsp; [|done].
      destruct (_io sp) as [| | |r|] eqn:Hsio; try done.
      case_bool_decide as Hr; [subst r|done].
      destruct (BaseIOSpec__check_sanity s w) eqn:Hcheck; try done.
      intros Hrest spec [->|Hin]%elem_of_cons.
      * by exists sp.
      * by apply IH.
    + intros Hall. destruct (Hall s) as (sp & -> & -> & ->); [by left|].
      rewrite bool_decide_eq_true_2 by done.
      apply IH. intros spec Hin. apply Hall. by right.
Qed.

Lemma BaseSharedIO__check_sanity_Sane io_ w :
  BaseSharedIO__check_sanity io_ w = Sane ↔
  ∃ io key, io_heap w !! io_ = Some io
            ∧ find (λ kv, bool_decide (kv.2 = io_)) (index w) = Some (key, io_)
            ∧ _path io = key.2
            ∧ _check_sanity_specs io_ (_specs io) w = Sane.
Proof.
  unfold BaseSharedIO__check_sanity. split.
  - destruct (io_heap w !! io_) as [io|]; [|done].
    destruct (find _ (index w)) as [[key val]|]; [|done].
    case_bool_decide as Hpath; [|done].
    case_bool_decide as Hval; [subst val|done].
    intros Hspecs. by exists io, key.
  - intros (io & key & -> & -> & Hpath & Hspecs).
    by rewrite !bool_decide_eq_true_2.
Qed.

Lemma _check_sanity_ios_Sane vals w :
  _check_sanity_ios vals w = Sane ↔
  ∀ a_io, a_io ∈ vals → BaseSharedIO__check_sanity a_io w = Sane.
Proof.
  induction vals as [|a vals IH]; cbn [_check_sanity_ios].
  - split; [|done]. intros _ a_io Hin. by apply not_elem_of_nil in Hin.
  - split.
    + destruct (BaseSharedIO__check_sanity a w) eqn:Hcheck; try done.
      intros Hrest a_io [->|Hin]%elem_of_cons; [done|by apply IH].
    + intros Hall. rewrite (Hall a) by by left.
      apply IH. intros a_io Hin. apply Hall. by right.
Qed.

(** The check passes on a world that is sane. *)
Lemma sane_check_sanity w : sane w → IOManager__check_sanity w = Sane.
Proof.
  intros [Hwf Hbound]. unfold IOManager__check_sanity.
  pose proof (index_values_NoDup w Hwf) as Hvals.
  rewrite (proj2 (_check_sanity_distinct_true w) Hvals).
  apply _check_sanity_ios_Sane. intros a_io Hin.
  assert (a_io ∈ values (ios (manager w))) as Hval by done.
  apply list_elem_of_fmap in Hin as ([key r] & -> & Hin). simpl in *.
  pose proof Hwf as (Hnd & Hc & _).
  assert (registered w key r) as Hreg by by apply elem_of_dict_get.
  destruct (Hbound key r Hreg) as (_ & io & Hio & Hpath & Hspecs).
  apply BaseSharedIO__check_sanity_Sane. exists io, key.
  split_and!; [done|by apply find_registered|done|].
  apply _check_sanity_specs_Sane. intros spec Hspec.
  destruct (Hspecs spec Hspec) as (sp & Hsp & Hsio & Hm).
  exists sp. split_and!; [done..|].
  apply BaseIOSpec__check_sanity_Sane. by exists sp, r, io.
Qed.

(** What a passing check establishes. *)
Lemma check_sanity_Sane w :
  IOManager__check_sanity w = Sane →
  NoDup (values (ios (manager w)))
  ∧ ∀ key io_, (key, io_) ∈ index w →
      ∃ io, io_heap w !! io_ = Some io ∧ _path io = key.2
            ∧ ∀ spec, spec ∈ _specs io →
                ∃ sp, spec_heap w !! spec = Some sp ∧ _io sp = PyIO io_
                      ∧ _manager sp = PyManager.
Proof.
  unfold IOManager__check_sanity.
  destruct (_check_sanity_distinct w) eqn:Hdistinct; [|done].
  apply _check_sanity_distinct_true in Hdistinct. intros Hall.
  split; [done|]. intros key io_ Hin.
  rewrite _check_sanity_ios_Sane in Hall.
  destruct (proj1 (BaseSharedIO__check_sanity_Sane io_ w))
    as (io & key' & Hio & Hfind & Hpath & Hspecs).
  { apply Hall. by apply (list_elem_of_fmap_2 snd) in Hin. }
  rewrite (find_value_NoDup io_ (index w) key) in Hfind by done.
  injection Hfind as <-.
  exists io. split_and!; [done..|]. intros spec Hspec.
  rewrite _check_sanity_specs_Sane in Hspecs.
  destruct (Hspecs spec Hspec) as (sp & Hsp & Hsio & Hcheck).
  apply BaseIOSpec__check_sanity_Sane in Hcheck
    as (sp' & _ & _ & Hsp' & _ & _ & _ & Hm & _).
  exists sp. split_and!; [done..|]. congruence.
Qed.

End SanityFacts.

(** ** The managed states are sane *)

Section SanePreserved.
Context {V K D : Type} (hooks : Hooks V K D).
Implicit Types (w : World V K D).
Import BiDict.

Lemma managed_reachable w : managed hooks w → reachable hooks w.
Proof.
  induction 1 as [|w g p sa ia _ IH|w spec _ IH|w spec value kwargs _ IH
                  |w io_ path _ IH].
  - apply reachable_init.
  - apply (reachable_step hooks w (NewSpec g p sa ia) IH).
  - apply (reachable_step hooks w (DelSpec spec) IH).
  - apply (reachable_step hooks w (UpdateSpecValue spec value kwargs) IH).
  - apply (reachable_step hooks w (UpdatePath io_ path) IH).
Qed.

Lemma _get_io_key_resolved g p :
  _get_io_key g p = _get_io_key (_get_io_key g p).1 (_get_io_key g p).2.
Proof.
  unfold _get_io_key. destruct (is_absolute p) eqn:Habs; cbn; by rewrite Habs.
Qed.

(** How a world stays sane: the specs that existed keep their manager and
    resource, and every resource of the index has the path of its key and
    dependents that it had as a resource of the index, or that are bound to
    it now. *)
Lemma sane_transfer w w' :
  index_wf w' →
  (∀ s sp, spec_heap w !! s = Some sp →
     ∃ sp', spec_heap w' !! s = Some sp' ∧ _io sp' = _io sp
            ∧ _manager sp' = _manager sp) →
  (∀ key r, registered w' key r →
     (key = _get_io_key key.1 key.2 ∨ registered w key r)
     ∧ ∃ io', io_heap w' !! r = Some io' ∧ _path io' = key.2
        ∧ ∀ s, s ∈ _specs io' →
            (∃ key0 io, registered w key0 r ∧ io_heap w !! r = Some io
                        ∧ s ∈ _specs io)
            ∨ (∃ sp, spec_heap w' !! s = Some sp ∧ _io sp = PyIO r
                     ∧ _manager sp = PyManager)) →
  sane w → sane w'.
Proof.
  intros Hwf' Hsh Hreg [Hwf Hbound]. split; [done|].
  intros key r Hr. destruct (Hreg key r Hr) as [Hkey (io' & Hio' & Hpath & Hspecs)].
  split.
  - destruct Hkey as [|Hold]; [done|]. by apply (Hbound key r).
  - exists io'. split_and!; [done..|]. intros s Hs.
    destruct (Hspecs s Hs) as [(key0 & io & Hr0 & Hio & Hin)|]; [|done].
    destruct (Hbound key0 r Hr0) as (_ & io0 & Hio0 & _ & Hdeps).
    assert (io0 = io) as -> by congruence.
    destruct (Hdeps s Hin) as (sp & Hsp & Hsio & Hm).
    destruct (Hsh s sp Hsp) as (sp' & Hsp' & Hsio' & Hm').
    exists sp'. split_and!; congruence.
Qed.

(** The index is the same, and the resources and specs have their paths,
    dependents, managers and resources. *)
Lemma sane_frame w w' :
  ios (manager w') = ios (manager w) →
  (∀ r io, io_heap w !! r = Some io →
     ∃ io', io_heap w' !! r = Some io' ∧ _path io' = _path io
            ∧ ∀ s, s ∈ _specs io' →
                s ∈ _specs io
                ∨ (∃ sp, spec_heap w' !! s = Some sp ∧ _io sp = PyIO r
                         ∧ _manager sp = PyManager)) →
  (∀ s sp, spec_heap w !! s = Some sp →
     ∃ sp', spec_heap w' !! s = Some sp' ∧ _io sp' = _io sp
            ∧ _manager sp' = _manager sp) →
  sane w → sane w'.
Proof.
  intros Hios Hheap Hsh Hsane. pose proof Hsane as [Hwf Hbound].
  assert (∀ key r, registered w' key r → registered w key r) as Hsame.
  { intros key r. unfold registered, index. by rewrite Hios. }
  apply (sane_transfer w); [|done| |done].
  - apply (index_wf_ext w); [done| |done].
    intros r [io Hio]. destruct (Hheap r io Hio) as (io' & -> & _). by eexists.
  - intros key r Hr%Hsame. split; [by right|].
    destruct (Hbound key r Hr) as (_ & io & Hio & Hpath & _).
    destruct (Hheap r io Hio) as (io' & Hio' & Hpath' & Hspecs).
    exists io'. split_and!; [done|congruence|]. intros s Hs.
    destruct (Hspecs s Hs) as [Hin|Hnew]; [left|by right].
    by exists key, io.
Qed.

(** One resource replaced by one with the same path and no dependent that
    it did not have. *)
Lemma io_heap_update (h : gmap nat (BaseSharedIO D)) r io io' :
  h !! r = Some io → _path io' = _path io → _specs io' ⊆ _specs io →
  ∀ r0 io0, h !! r0 = Some io0 →
    ∃ io1, <[r := io']> h !! r0 = Some io1 ∧ _path io1 = _path io0
           ∧ ∀ s, s ∈ _specs io1 → s ∈ _specs io0.
Proof.
  intros Hio Hpath Hspecs r0 io0 Hio0. destruct (decide (r = r0)) as [<-|Hne].
  - exists io'. rewrite lookup_insert_eq.
    assert (io0 = io) as -> by congruence. split_and!; [done..|].
    intros s Hs. by apply Hspecs.
  - exists io0. by rewrite lookup_insert_ne.
Qed.

Lemma spec_heap_update (h : gmap nat (BaseIOSpec V)) s sp sp' :
  h !! s = Some sp → _io sp' = _io sp → _manager sp' = _manager sp →
  ∀ s0 sp0, h !! s0 = Some sp0 →
    ∃ sp1, <[s := sp']> h !! s0 = Some sp1 ∧ _io sp1 = _io sp0
           ∧ _manager sp1 = _manager sp0.
Proof.
  intros Hsp Hsio Hm s0 sp0 Hsp0. destruct (decide (s = s0)) as [<-|Hne].
  - exists sp'. rewrite lookup_insert_eq.
    assert (sp0 = sp) as -> by congruence. done.
  - exists sp0. by rewrite lookup_insert_ne.
Qed.

Lemma spec_heap_fresh (h : gmap nat (BaseIOSpec V)) sp :
  ∀ s0 sp0, h !! s0 = Some sp0 →
    ∃ sp1, <[fresh (dom h) := sp]> h !! s0 = Some sp1 ∧ _io sp1 = _io sp0
           ∧ _manager sp1 = _manager sp0.
Proof.
  intros s0 sp0 Hsp0. exists sp0. rewrite lookup_insert_ne; [done|].
  intros <-. apply elem_of_dom_2 in Hsp0. by apply is_fresh in Hsp0.
Qed.

(** The index is the same; at most one resource and one spec have been
    replaced, the resource keeping its path and gaining no dependent, the
    spec keeping its manager and resource. *)
Lemma sane_updated w w' :
  ios (manager w') = ios (manager w) →
  io_heap w' = io_heap w
  ∨ (∃ r io io', io_heap w !! r = Some io
                 ∧ io_heap w' = <[r := io']> (io_heap w)
                 ∧ _path io' = _path io ∧ _specs io' ⊆ _specs io) →
  spec_heap w' = spec_heap w
  ∨ (∃ s sp sp', spec_heap w !! s = Some sp
                 ∧ spec_heap w' = <[s := sp']> (spec_heap w)
                 ∧ _io sp' = _io sp ∧ _manager sp' = _manager sp) →
  sane w → sane w'.
Proof.
  intros Hios Hheap Hsh. apply sane_frame; [done| |].
  - intros r0 io0 Hio0.
    destruct Hheap as [->|(r & io & io' & Hio & -> & Hpath & Hspecs)].
    { exists io0. split_and!; [done..|]. by left. }
    destruct (io_heap_update _ r io io' Hio Hpath Hspecs r0 io0 Hio0)
      as (io1 & Hio1 & Hpath1 & Hspecs1).
    exists io1. split_and!; [done..|]. intros s Hs. left. by apply Hspecs1.
  - intros s0 sp0 Hsp0.
    destruct Hsh as [->|(s & sp & sp' & Hsp & -> & Hsio & Hm)].
    { by exists sp0. }
    by apply (spec_heap_update _ s sp sp').
Qed.

Lemma update_spec_value_sane spec value kwargs w :
  sane w → sane (update_spec_value hooks spec value kwargs w).2.
Proof.
  intros Hsane. unfold update_spec_value. m_step.
  destruct (spec_heap w !! spec) as [sp|] eqn:Hsp; cbn; [|done].
  destruct (can_update_value _ _ _ _); cbn; [|done].
  unfold io__on_update_value, _on_update_value.
  destruct (_io sp) as [| | |io_|]; m_step; try done.
  destruct (io_heap w !! io_) as [io|] eqn:Hio; m_step.
  2:{ apply (sane_updated w); auto. }
  destruct (io_on_update_value _ _ _ _) as [what|d]; m_step.
  { apply (sane_updated w); auto. }
  rewrite Hsp. cbn.
  destruct (on_update_value _ _ _ _) as [what|v]; cbn.
  - apply (sane_updated w); [done| |by left|done].
    right. by eexists io_, io, _.
  - apply (sane_updated w); [done| | |done].
    + right. by eexists io_, io, _.
    + right. by eexists spec, sp, _.
Qed.

(** A resource of the index that an operation has left alone. *)
Lemma sane_kept w (h : gmap nat (BaseSharedIO D))
    (sh : gmap nat (BaseIOSpec V)) key r :
  sane w → registered w key r → h !! r = io_heap w !! r →
  ∃ io', h !! r = Some io' ∧ _path io' = key.2
         ∧ ∀ s, s ∈ _specs io' →
             (∃ key0 io, registered w key0 r ∧ io_heap w !! r = Some io
                         ∧ s ∈ _specs io)
             ∨ (∃ sp, sh !! s = Some sp ∧ _io sp = PyIO r
                      ∧ _manager sp = PyManager).
Proof.
  intros [_ Hbound] Hr ->.
  destruct (Hbound key r Hr) as (_ & io & Hio & Hpath & _).
  exists io. split_and!; [done..|]. intros s Hs. left. by exists key, io.
Qed.

Lemma update_path_sane io_ path w :
  sane w → no_orphan w → sane (update_path io_ path w).2.
Proof.
  intros Hsane Hno. pose proof Hsane as [Hwf Hbound].
  pose proof (proj1 (update_path_preserves io_ path w Hwf Hno)) as Hwf'.
  destruct (inverse (ios (manager w)) !! io_) as [[group path_old]|] eqn:Hinv.
  2:{ unfold update_path. m_step. by rewrite Hinv. }
  destruct (decide (path = path_old)) as [->|Hne].
  { by rewrite (update_path_same io_ group path_old). }
  destruct (dict_get (_get_io_key group path) (index w)) as [other|] eqn:Hget.
  { by rewrite (update_path_occupied io_ group path_old path other). }
  pose proof Hwf as (Hnd & Hc & Hobj).
  assert (registered w (group, path_old) io_) as Hold by by apply Hc.
  destruct (Hobj (group, path_old) io_ Hold) as [io Hio].
  rewrite (update_path_moves io_ io group path_old path) in Hwf' |- * by done.
  apply (sane_transfer w); [done|by intros s sp; exists sp| |done].
  intros key r. unfold registered, index.
  lazy beta iota delta [snd manager ios items io_heap spec_heap].
  rewrite dict_get_set, dict_get_del.
  destruct (decide (_get_io_key group path = key)) as [<-|Hk].
  - intros [= <-]. split; [left; apply _get_io_key_resolved|].
    rewrite lookup_insert_eq. eexists.
    split_and!; [done|symmetry; apply _get_io_key_path|].
    cbn. intros s Hs. left. by exists (group, path_old), io.
  - destruct (decide ((group, path_old) = key)) as [<-|Hk']; [done|].
    intros Hr. split; [by right|].
    apply (sane_kept w); [done|done|].
    rewrite lookup_insert_ne; [done|].
    intros <-. apply Hc in Hr. congruence.
Qed.

Lemma del_spec_sane spec w :
  sane w → no_orphan w → sane (del_spec spec w).2.
Proof.
  intros Hsane Hno. pose proof Hsane as [Hwf Hbound].
  pose proof (proj1 (del_spec_preserves spec w Hwf Hno)) as Hwf'.
  destruct (del_spec_cases spec w)
    as [->|[[-> _]|(sp & io_ & io & Hsp & Hsio & Hio & Hin & _)]];
    [done|done|].
  destruct (filter (λ c, c ≠ spec) (_specs io)) as [|c cs] eqn:Hrest.
  - destruct (find (λ kv, bool_decide (kv.2 = io_)) (index w))
      as [[key v]|] eqn:Hfind.
    + pose proof Hwf as (Hnd & Hc & _).
      apply find_value_Some in Hfind as [-> Hkey].
      apply elem_of_dict_get in Hkey; [|done].
      rewrite (del_spec_last spec sp io_ io key) in Hwf' |- * by done.
      apply (sane_transfer w); [done|by intros s0 sp0; exists sp0| |done].
      intros k r. unfold registered, index.
      lazy beta iota delta [snd manager ios items io_heap spec_heap].
      rewrite dict_get_del.
      destruct (decide (key = k)) as [<-|Hk]; [done|]. intros Hr.
      split; [by right|].
      apply (sane_kept w); [done|done|].
      rewrite lookup_insert_ne; [done|].
      intros <-. apply Hc in Hr, Hkey. congruence.
    + rewrite (del_spec_last_unregistered spec sp io_ io) by done.
      apply (sane_updated w); [done| |by left|done].
      right. exists io_, io, (mkIO (_path io) [] (_load_from io) (io_data io)).
      split_and!; [done..|].
      intros s Hs. by apply not_elem_of_nil in Hs.
  - rewrite (del_spec_remaining spec sp io_ io) by (done || by rewrite Hrest).
    apply (sane_updated w); [done| |by left|done].
    right. exists io_, io,
      (mkIO (_path io) (filter (λ c, c ≠ spec) (_specs io))
            (_load_from io) (io_data io)).
    split_and!; [done..|].
    by intros s [_ Hs]%list_elem_of_filter.
Qed.

(** A call of [new_spec] that finds its resource in the index adds the new
    spec, bound to that resource, to the specs, and changes no other spec. *)
Lemma new_spec_existing_spec_heap g p sa ia io_ io w :
  registered w (_get_io_key g p) io_ → io_heap w !! io_ = Some io →
  ∃ v, spec_heap (new_spec hooks g p sa ia w).2
       = <[fresh (dom (spec_heap w)) := mkSpec PyManager (PyIO io_) None v]>
           (spec_heap w).
Proof.
  intros Hreg Hio. unfold new_spec. m_step.
  rewrite !lookup_insert_eq. cbn.
  rewrite (get_or_create_io_existing g p None ia _ io_) by exact Hreg. cbn.
  rewrite !lookup_insert_eq. cbn.
  unfold _on_load_value. m_step.
  repeat (rewrite lookup_insert_eq; cbn). rewrite Hio. cbn.
  destruct (on_load_value hooks (io_data io) sa) as [what|v]; cbn;
    repeat (rewrite lookup_insert_eq; cbn).
  - rewrite Hio. cbn. destruct (_specs io) as [|c cs]; cbn.
    + match goal with
      | |- context [ios_delitem ?k ?W] =>
          destruct (ios_delitem_cases k W) as [[e ->]|(r & _ & ->)]
      end; cbn; rewrite !insert_insert_eq; by eexists.
    + rewrite !insert_insert_eq. by eexists.
  - match goal with
    | |- context [add_spec hooks ?a ?b ?W] =>
        destruct (add_spec_cases hooks a b W) as [Hsame|(io' & Hio' & _ & Hrun)]
    end.
    + destruct (add_spec hooks _ _ _) as [[[]|e] w4]; simpl in Hsame;
        subst w4; cbn; repeat (rewrite lookup_insert_eq; cbn).
      * rewrite !insert_insert_eq. by eexists.
      * rewrite Hio. cbn. destruct (_specs io) as [|c cs]; cbn.
        -- match goal with
           | |- context [ios_delitem ?k ?W] =>
               destruct (ios_delitem_cases k W) as [[e' ->]|(r & _ & ->)]
           end; cbn; rewrite !insert_insert_eq; by eexists.
        -- rewrite !insert_insert_eq. by eexists.
    + rewrite Hrun. cbn. rewrite !insert_insert_eq. by eexists.
Qed.

Lemma new_spec_sane g p sa ia w :
  sane w → no_orphan w → sane (new_spec hooks g p sa ia w).2.
Proof.
  intros Hsane Hno. pose proof Hsane as [Hwf Hbound].
  pose proof (proj1 (new_spec_preserves hooks g p sa ia w Hwf Hno)) as Hwf'.
  destruct (dict_get (_get_io_key g p) (index w)) as [io_|] eqn:Hget.
  - pose proof Hwf as (Hnd & Hc & Hobj).
    destruct (Hobj _ _ Hget) as [io Hio].
    pose proof (Hno _ _ _ Hget Hio) as Hspecs.
    destruct (new_spec_existing_spec_heap g p sa ia io_ io w Hget Hio)
      as [v Hsh].
    assert (∀ r io0, io_heap w !! r = Some io0 →
              ∃ io', io_heap w !! r = Some io' ∧ _path io' = _path io0
                ∧ ∀ s, s ∈ _specs io' →
                    s ∈ _specs io0
                    ∨ (∃ sp, spec_heap (new_spec hooks g p sa ia w).2 !! s
                             = Some sp
                             ∧ _io sp = PyIO r ∧ _manager sp = PyManager))
      as Hsameheap.
    { intros r io0 Hio0. exists io0. split_and!; [done..|]. by left. }
    destruct (new_spec_existing hooks g p sa ia io_ io w Hget Hio)
      as [(_ & Hm & Hheap & _)|[_ Hsame]].
    + apply (sane_frame w); [by rewrite Hm| |rewrite Hsh; apply spec_heap_fresh
                            |done].
      destruct Hheap as [->| ->]; [done|].
      intros r io0 Hio0. destruct (decide (r = io_)) as [->|Hne].
      * rewrite lookup_insert_eq. eexists. split_and!; [done|cbn; congruence|].
        cbn. assert (io0 = io) as -> by congruence.
        intros s [Hs| ->%list_elem_of_singleton]%elem_of_app; [by left|].
        right. rewrite Hsh, lookup_insert_eq. by eexists.
      * rewrite lookup_insert_ne by done.
        exists io0. split_and!; [done..|]. by left.
    + destruct (Hsame Hspecs) as [Hm Hheap].
      apply (sane_frame w); [by rewrite Hm| |rewrite Hsh; apply spec_heap_fresh
                            |done].
      by rewrite Hheap.
  - destruct (on_load_value hooks ia sa) as [what|v] eqn:Hload.
    + rewrite (new_spec_load_fails_fresh hooks g p sa ia what) in Hwf' |- *
        by done.
      apply (sane_transfer w); [done|apply spec_heap_fresh| |done].
      intros k r. unfold registered, index.
      lazy beta iota delta [snd manager ios items io_heap spec_heap].
      rewrite dict_get_del, dict_get_set.
      destruct (decide (_get_io_key g p = k)) as [<-|Hk]; [done|]. intros Hr.
      split; [by right|].
      apply (sane_kept w); [done|done|].
      rewrite lookup_insert_ne; [done|].
      intros <-. by apply (fresh_not_registered w k).
    + rewrite (new_spec_load_ok_fresh hooks g p sa ia v) in Hwf' |- * by done.
      apply (sane_transfer w); [done|apply spec_heap_fresh| |done].
      intros k r. unfold registered, index.
      lazy beta iota delta [snd manager ios items io_heap spec_heap].
      rewrite dict_get_set.
      destruct (decide (_get_io_key g p = k)) as [<-|Hk].
      * intros [= <-]. split; [left; apply _get_io_key_resolved|].
        rewrite lookup_insert_eq. eexists.
        split_and!; [done|symmetry; apply _get_io_key_path|].
        cbn. intros s ->%list_elem_of_singleton. right.
        rewrite lookup_insert_eq. by eexists.
      * intros Hr. split; [by right|].
        apply (sane_kept w); [done|done|].
        rewrite lookup_insert_ne; [done|].
        intros <-. by apply (fresh_not_registered w k).
Qed.

Lemma sane_initial : sane (initial_world (V := V) (K := K) (D := D)).
Proof. split; [apply index_wf_initial|]. intros key io_ Hreg. done. Qed.

Lemma managed_no_orphan w : managed hooks w → no_orphan w.
Proof. intros Hm. by apply (reachable_invariants hooks), managed_reachable. Qed.

(** Every managed state is sane. *)
Lemma managed_sane w : managed hooks w → sane w.
Proof.
  induction 1 as [|w g p sa ia Hm IH|w spec Hm IH|w spec value kwargs Hm IH
                  |w io_ path Hm IH].
  - apply sane_initial.
  - apply new_spec_sane; [done|by apply managed_no_orphan].
  - apply del_spec_sane; [done|by apply managed_no_orphan].
  - by apply update_spec_value_sane.
  - apply update_path_sane; [done|by apply managed_no_orphan].
Qed.

End SanePreserved.

(** X17.  In every state that the manager reaches from its creation through
    [new_spec], [del_spec], [update_spec_value] and [update_path], whether
    the calls return or raise, [IOManager._check_sanity] passes: none of its
    assertions fails, the [next(...)] of the resource check finds its item,
    and no attribute or item access fails. *)
Theorem X17_check_sanity_passes_in_managed_states {V K D : Type}
    (hooks : Hooks V K D) (w : World V K D) :
  managed hooks w → IOManager__check_sanity w = Sane.
Proof. intros Hm. by apply sane_check_sanity, (managed_sane hooks). Qed.

Lemma X17_check_sanity_passes_in_managed_states_witness :
  IOManager__check_sanity
    (update_path 0 "z.dat" (del_spec 0 Example.two_specs).2).2 = Sane.
Proof.
  apply (X17_check_sanity_passes_in_managed_states Example.hooks).
  apply managed_update_path, managed_del_spec.
  apply (managed_new_spec Example.hooks Example.one_spec (Some 1) "x.dat"
           "range" tt).
  apply (managed_new_spec Example.hooks initial_world (Some 1) "x.dat"
           "table" tt).
  apply managed_init.
Defined.

(** X18.  What a passing [IOManager._check_sanity] establishes: the
    resources of the index are pairwise different objects, each has the path
    of the key it is stored under, and each of its dependents is a spec bound
    to it that knows the manager. *)
Theorem X18_check_sanity_sound {V K D : Type} (w : World V K D) :
  IOManager__check_sanity w = Sane →
  NoDup (BiDict.values (ios (manager w)))
  ∧ ∀ key io_, (key, io_) ∈ index w →
      ∃ io, io_heap w !! io_ = Some io ∧ _path io = key.2
            ∧ ∀ spec, spec ∈ _specs io →
                ∃ sp, spec_heap w !! spec = Some sp ∧ _io sp = PyIO io_
                      ∧ _manager sp = PyManager.
Proof. apply check_sanity_Sane. Qed.

Lemma X18_check_sanity_sound_witness :
  NoDup (BiDict.values (ios (manager Example.two_files))).
Proof.
  refine (proj1 (X18_check_sanity_sound Example.two_files _)).
  vm_compute. reflexivity.
Defined.

(** X19.  In a managed state a resource stored under the key of a group has
    the path of that key, and the path is relative: an external resource is
    never keyed by a group. *)
Theorem X19_group_key_is_relative {V K D : Type} (hooks : Hooks V K D)
    (w : World V K D) (g io_ : nat) (p : Path) (io : BaseSharedIO D) :
  managed hooks w →
  registered w (Some g, p) io_ → io_heap w !! io_ = Some io →
  _path io = p ∧ is_external io = false.
Proof.
  intros [_ Hbound]%managed_sane Hreg Hio.
  destruct (Hbound _ _ Hreg) as (Hkey & io' & Hio' & Hpath & _).
  assert (io' = io) as -> by congruence. cbn in Hkey, Hpath.
  split; [done|]. unfold is_external. rewrite Hpath.
  unfold _get_io_key in Hkey. by destruct (is_absolute p).
Qed.

Lemma X19_group_key_is_relative_witness :
  _path (mkIO (D := unit) "x.dat" [0] None tt) = "x.dat"
  ∧ is_external (mkIO (D := unit) "x.dat" [0] None tt) = false.
Proof.
  apply (X19_group_key_is_relative Example.hooks Example.one_spec 1 0 "x.dat").
  - apply (managed_new_spec Example.hooks initial_world (Some 1) "x.dat"
             "table" tt).
    apply managed_init.
  - reflexivity.
  - reflexivity.
Defined.

(** ** Queries and restoring *)

Section GetIos.
Context {V K D : Type}.
Implicit Types (w : World V K D).
Import BiDict.

(** The loop of the dict comprehension of [get_ios], from any dict built so
    far. *)
Lemma get_ios_loop (g : option nat) (path : Path) (d : list (io_key * nat))
    (acc : list (Path * nat)) :
  NoDup d.*1 →
  dict_get path
    (foldl (λ acc kv,
              if decide (kv.1.1 = g) then dict_set kv.1.2 kv.2 acc else acc)
           acc d)
  = match dict_get (g, path) d with
    | Some io_ => Some io_
    | None => dict_get path acc
    end.
Proof.
  revert acc. induction d as [|[[g0 p0] v0] d IH]; intros acc; [done|].
  rewrite fmap_cons, NoDup_cons. cbn [fst]. intros [Hk0 Hnd].
  cbn [foldl dict_get fst snd]. rewrite IH by done.
  destruct (decide ((g0, p0) = (g, path))) as [[= -> ->]|Hne].
  - apply dict_get_None_keys in Hk0. rewrite Hk0.
    rewrite decide_True by done. rewrite dict_get_set. by rewrite decide_True.
  - destruct (dict_get (g, path) d) as [io_|]; [done|].
    destruct (decide (g0 = g)) as [->|Hg]; [|done].
    rewrite dict_get_set. rewrite decide_False; [done|]. congruence.
Qed.

End GetIos.

(** X20.  [get_ios(io_group)] maps a path to the resource that the index
    holds under the key of exactly that group and path, and to nothing when
    the index has no such key.  (The keys of a dict are pairwise
    different.) *)
Theorem X20_get_ios_lookup {V K D : Type} (w : World V K D)
    (io_group : option nat) (path : Path) :
  NoDup (BiDict.keys (ios (manager w))) →
  BiDict.dict_get path (get_ios io_group w)
  = BiDict.dict_get (io_group, path) (index w).
Proof.
  intros Hnd. unfold get_ios. rewrite get_ios_loop by done.
  by destruct (BiDict.dict_get _ _).
Qed.

Lemma X20_get_ios_lookup_witness :
  BiDict.dict_get "y.dat" (get_ios (Some 1) Example.two_files) = Some 1.
Proof.
  refine (X20_get_ios_lookup Example.two_files (Some 1) "y.dat" _).
  by apply (bool_decide_unpack _).
Defined.

(** X21.  [restore_io] of a resource that a well-formed index does not hold
    returns and leaves the index well formed.  If the key of the resource is
    free, the resource is stored under it; if another resource has the key,
    nothing changes and no error is raised, so the resource stays outside
    the index.  A second call changes nothing in either case. *)
Theorem X21_restore_io_unregistered {V K D : Type} (w : World V K D)
    (io_group : option nat) (io_ : nat) (io : BaseSharedIO D) :
  index_wf w → io_heap w !! io_ = Some io →
  BiDict.inverse (ios (manager w)) !! io_ = None →
  (restore_io io_group io_ w).1 = Ok tt
  ∧ index_wf (restore_io io_group io_ w).2
  ∧ (BiDict.dict_get (_get_io_key io_group (_path io)) (index w) = None →
     registered (restore_io io_group io_ w).2
       (_get_io_key io_group (_path io)) io_)
  ∧ (∀ other, registered w (_get_io_key io_group (_path io)) other →
              (restore_io io_group io_ w).2 = w)
  ∧ restore_io io_group io_ (restore_io io_group io_ w).2
    = (Ok tt, (restore_io io_group io_ w).2).
Proof.
  intros Hwf Hio Hinv.
  destruct (restore_io_unregistered io_group io_ io w Hwf Hio Hinv)
    as [Hok Hwf'].
  split_and!; [done|done|..].
  - intros Hfree. unfold restore_io, _get_io. m_step. rewrite Hio. cbn.
    unfold index in Hfree. rewrite Hfree.
    rewrite ios_setitem_absent by done.
    unfold registered, index. cbn. rewrite dict_get_set.
    by rewrite decide_True.
  - intros other Hreg. unfold registered, index in Hreg.
    unfold restore_io, _get_io. m_step. rewrite Hio. cbn. by rewrite Hreg.
  - destruct (BiDict.dict_get (_get_io_key io_group (_path io)) (index w))
      as [other|] eqn:Hget; unfold index in Hget.
    + unfold restore_io, _get_io. m_step. rewrite Hio. cbn. rewrite Hget. cbn.
      rewrite Hio. cbn. by rewrite Hget.
    + unfold restore_io, _get_io. m_step. rewrite Hio. cbn. rewrite Hget.
      rewrite ios_setitem_absent by done. cbn. rewrite Hio. cbn.
      rewrite dict_get_set. by rewrite decide_True.
Qed.

Lemma X21_restore_io_unregistered_witness :
  registered (restore_io (Some 1) 0 (del_spec 0 Example.one_spec).2).2
    (Some 1, "x.dat") 0.
Proof.
  refine (proj1 (proj2 (proj2
    (X21_restore_io_unregistered (del_spec 0 Example.one_spec).2 (Some 1) 0
       (mkIO "x.dat" [] None tt) _ eq_refl eq_refl))) eq_refl).
  apply index_wfb_sound. vm_compute. reflexivity.
Defined.

(** ** Saving and restoring specs *)

(** X22.  A spec survives [__getstate__] followed by [__setstate__] in
    either mode, when the hook that finishes the state keeps the entries it
    is given: [__getstate__] returns a state and changes nothing, and
    [__setstate__] of that state leaves the spec with its manager, its
    resource and its hidden flag.  A spec that had no hidden flag has one
    afterwards. *)
Theorem X22_getstate_setstate_round_trip {V K D : Type}
    (hooks : Hooks V K D) (w : World V K D) (self : nat) (sp : BaseIOSpec V)
    (mode : bool) :
  spec_heap w !! self = Some sp → _manager sp = PyManager →
  serializing (manager w) = Some mode →
  (∀ s, ∃ s', (if mode then on_serialize hooks else on_pickle hooks)
                (spec_value sp) s = inr s' ∧ s ⊆ s') →
  ∃ st, __getstate__ hooks self w = (Ok st, w)
        ∧ ∃ sp', spec_heap (__setstate__ hooks self st w).2 !! self = Some sp'
                 ∧ _manager sp' = PyManager ∧ _io sp' = _io sp
                 ∧ (∀ h, _is_hidden sp = Some h → _is_hidden sp' = Some h)
                 ∧ is_Some (_is_hidden sp').
Proof.
  intros Hsp Hm Hmode Hhook.
  unfold __getstate__, mbind, mret, M_bind, M_ret, deref_spec, serializing_of,
    get_world, call_hook, raise.
  rewrite Hsp. lazy beta iota. rewrite Hm. lazy beta iota.
  unfold mbind, mret, M_bind, M_ret. lazy beta iota. rewrite Hmode.
  match goal with
  | |- context [on_pickle hooks (spec_value sp) ?s] => set (base := s)
  end.
  destruct (Hhook base) as (st & Hst & Hsub). exists st. split.
  { destruct mode; by rewrite Hst. }
  assert (base !! "manager" = Some PyManager) as Hbm.
  { unfold base. destruct (_is_hidden sp);
      rewrite ?(lookup_insert_ne _ "is_hidden") by done;
      rewrite lookup_insert_ne by done; apply lookup_insert_eq. }
  assert (base !! "_io" = Some (_io sp)) as Hbio.
  { unfold base. destruct (_is_hidden sp);
      rewrite ?(lookup_insert_ne _ "is_hidden") by done;
      apply lookup_insert_eq. }
  assert (∀ h, _is_hidden sp = Some h → base !! "is_hidden" = Some h) as Hbh.
  { intros h Hh. unfold base. rewrite Hh. apply lookup_insert_eq. }
  destruct (setstate_fields hooks self st w sp PyManager (_io sp)) as [v Hv].
  - done.
  - by apply (lookup_weaken base).
  - by rewrite (lookup_weaken base st "_io" (_io sp)).
  - eexists. split; [exact Hv|]. cbn. split_and!; [done|done| |by eexists].
    intros h Hh. by rewrite (lookup_weaken base st "is_hidden" h) by auto.
Qed.

Lemma X22_getstate_setstate_round_trip_witness :
  ∃ st, __getstate__ Example.hooks 0
          (set_serializing (Some false) Example.one_spec).2
        = (Ok st, (set_serializing (Some false) Example.one_spec).2)
        ∧ ∃ sp', spec_heap
                   (__setstate__ Example.hooks 0 st
                      (set_serializing (Some false) Example.one_spec).2).2 !! 0
                 = Some sp'
                 ∧ _manager sp' = PyManager ∧ _io sp' = PyIO 0
                 ∧ (∀ h, None = Some h → _is_hidden sp' = Some h)
                 ∧ is_Some (_is_hidden sp').
Proof.
  refine (X22_getstate_setstate_round_trip Example.hooks
            (set_serializing (Some false) Example.one_spec).2 0
            (mkSpec PyManager (PyIO 0) None "table") false
            eq_refl eq_refl eq_refl _).
  intros s. exists s. split; reflexivity.
Defined.

(** X23.  In portable mode, when the hook of [__setstate__] returns, the call
    ends as [add_spec] does on the resource named by the state, in the world
    where the spec has the manager, resource, hidden flag and content that
    were restored: the spec joins the dependents of the resource, or the
    ValueError of [add_spec] leaves [__setstate__] with the fields already
    written.  In snapshot mode the call returns without touching the
    dependents of any resource. *)
Theorem X23_setstate_by_mode {V K D : Type} (hooks : Hooks V K D)
    (w : World V K D) (self io_ : nat) (sp : BaseIOSpec V)
    (state : gmap string (pyval V)) (mode : bool) (v : V) :
  spec_heap w !! self = Some sp →
  state !! "manager" = Some PyManager → state !! "_io" = Some (PyIO io_) →
  serializing (manager w) = Some mode →
  (if mode then on_unserialize hooks else on_unpickle hooks)
    (spec_value sp) state = inr v →
  __setstate__ hooks self state w
  = (if mode then add_spec hooks io_ self else mret tt)
      (mkWorld (manager w) (io_heap w)
         (<[self := mkSpec PyManager (PyIO io_)
                      (Some match state !! "is_hidden" with
                            | Some h => h
                            | None => PyBool false
                            end) v]> (spec_heap w))
         (trace w)).
Proof.
  intros Hsp Hm Hio Hmode Hhook. unfold __setstate__. m_step.
  rewrite Hsp, Hm. cbn. rewrite Hio. cbn.
  repeat (rewrite lookup_insert_eq; cbn). m_step. rewrite Hmode.
  destruct mode; rewrite Hhook; cbn; by rewrite !insert_insert_eq.
Qed.

Lemma X23_setstate_by_mode_witness :
  __setstate__ Example.hooks 1
    (<["_io" := PyIO 0]> (<["manager" := PyManager]> ∅))
    (set_serializing (Some true) Example.two_files).2
  = add_spec Example.hooks 0 1
      (mkWorld (manager (set_serializing (Some true) Example.two_files).2)
         (io_heap Example.two_files)
         (<[1 := mkSpec PyManager (PyIO 0) (Some (PyBool false)) "table"]>
            (spec_heap Example.two_files))
         (trace Example.two_files)).
Proof.
  exact (X23_setstate_by_mode Example.hooks
           (set_serializing (Some true) Example.two_files).2 1 0
           (mkSpec PyManager (PyIO 1) None "table")
           (<["_io" := PyIO 0]> (<["manager" := PyManager]> ∅)) true "table"
           eq_refl eq_refl eq_refl eq_refl eq_refl).
Defined.

(** ** Path safety *)

Section PathSafetyMore.
Import PathSafety.

Lemma is_in_root_loop_no_dotdot segs (level : Z) :
  (0 ≤ level)%Z → ".." ∉ segs → is_in_root_loop segs level = true.
Proof.
  revert level.
  induction segs as [|item segs IH]; intros level Hlevel Hno; [done|].
  apply not_elem_of_cons in Hno as [Hne Hno]. cbn [is_in_root_loop].
  destruct (String.eqb_spec item "..") as [->|_]; [done|].
  destruct (String.eqb item ".").
  - destruct (Z.ltb_spec level 0); [lia|]. by apply IH.
  - destruct (Z.ltb_spec (level + 1) 0); [lia|]. apply IH; [lia|done].
Qed.

Lemma is_in_root_loop_app a b (level : Z) :
  is_in_root_loop a level = false → is_in_root_loop (a ++ b) level = false.
Proof.
  revert level. induction a as [|item a IH]; intros level; [done|].
  cbn [is_in_root_loop app].
  destruct (Z.ltb _ 0); [done|]. apply IH.
Qed.

(** The segments of [p/q] are those of [p] followed by those of [q]. *)
Lemma split_append sep p q :
  split sep (String.append p (String sep q)) = split sep p ++ split sep q.
Proof.
  induction p as [|c p IH].
  - change (split sep (String sep q) = [EmptyString] ++ split sep q).
    cbn [split]. by rewrite Ascii.eqb_refl.
  - change (split sep (String c (String.append p (String sep q)))
            = split sep (String c p) ++ split sep q).
    cbn [split]. destruct (Ascii.eqb c sep); [by rewrite IH|].
    rewrite IH. pose proof (split_nonempty sep p) as Hne.
    by destruct (split sep p).
Qed.

End PathSafetyMore.

(** X24.  A path without a ".." segment is in the root: [is_in_root] returns
    True for it, whatever its other segments are. *)
Theorem X24_is_in_root_without_parent_segment (pos : string) :
  ".." ∉ split "/" pos → PathSafety.is_in_root pos = true.
Proof.
  intros Hno. unfold PathSafety.is_in_root.
  by apply is_in_root_loop_no_dotdot.
Qed.

Lemma X24_is_in_root_without_parent_segment_witness :
  PathSafety.is_in_root "a/./b.dat" = true.
Proof.
  apply X24_is_in_root_without_parent_segment.
  by apply (bool_decide_unpack _).
Defined.

(** X25.  The loop of [is_in_root] returns at the first segment that takes
    the level below zero, so nothing that follows brings a path back: if
    [is_in_root] returns False for [p], it returns False for [p/q]. *)
Theorem X25_is_in_root_prefix (p q : string) :
  PathSafety.is_in_root p = false →
  PathSafety.is_in_root (String.append p (String "/" q)) = false.
Proof.
  unfold PathSafety.is_in_root. intros Hp.
  rewrite split_append. by apply is_in_root_loop_app.
Qed.

Lemma X25_is_in_root_prefix_witness :
  PathSafety.is_in_root (String.append "a/../.." (String "/" "b/c")) = false.
Proof. apply X25_is_in_root_prefix. reflexivity. Defined.

(** ** More on the index and on updates *)

(** X26.  In every state reached from the new manager through [new_spec],
    [add_spec], [del_spec], [update_spec_value] and [update_path], whether
    the calls return or raise, the index reads back in both directions: a key
    leads to a resource exactly when the inverse map leads from the resource
    to the key, no resource sits under two keys, and the first assertion of
    [IOManager._check_sanity] holds. *)
Theorem X26_reachable_index_consistent {V K D : Type} (hooks : Hooks V K D)
    (w : World V K D) :
  reachable hooks w →
  BiDict.consistent (ios (manager w))
  ∧ BiDict.one_key_per_value (ios (manager w))
  ∧ _check_sanity_distinct w = true.
Proof.
  intros [Hwf _]%reachable_invariants. pose proof Hwf as (_ & Hc & _).
  split_and!; [done|by apply consistent_one_key|].
  by apply _check_sanity_distinct_true, index_values_NoDup.
Qed.

Lemma X26_reachable_index_consistent_witness :
  _check_sanity_distinct (add_spec Example.hooks 0 1 Example.two_files).2
  = true.
Proof.
  refine (proj2 (proj2 (X26_reachable_index_consistent Example.hooks
                          (add_spec Example.hooks 0 1 Example.two_files).2 _))).
  apply (reachable_step Example.hooks Example.two_files (AddSpec 0 1)).
  apply (reachable_step Example.hooks Example.one_spec
           (NewSpec (Some 1) "y.dat" "table" tt)).
  apply (reachable_step Example.hooks initial_world
           (NewSpec (Some 1) "x.dat" "table" tt)).
  apply reachable_init.
Defined.

(** X27.  [update_spec_value] does not undo the update of the resource when
    the hook of the spec raises afterwards: the exception of the spec's hook
    leaves the call, the resource has the content that its own hook gave it,
    and the spec, the index and the dependents are as before. *)
Theorem X27_update_spec_value_no_rollback {V K D : Type}
    (hooks : Hooks V K D) (w : World V K D) (spec io_ : nat)
    (sp : BaseIOSpec V) (io : BaseSharedIO D) (value : V) (kwargs : K)
    (d : D) (what : string) :
  spec_heap w !! spec = Some sp → _io sp = PyIO io_ →
  io_heap w !! io_ = Some io →
  can_update_value hooks (spec_value sp) value kwargs = true →
  io_on_update_value hooks (io_data io) value kwargs = inr d →
  on_update_value hooks (spec_value sp) value kwargs = inl what →
  (update_spec_value hooks spec value kwargs w).1 = Raise (HookError what)
  ∧ io_heap (update_spec_value hooks spec value kwargs w).2
    = <[io_ := mkIO (_path io) (_specs io) (_load_from io) d]> (io_heap w)
  ∧ spec_heap (update_spec_value hooks spec value kwargs w).2 = spec_heap w
  ∧ manager (update_spec_value hooks spec value kwargs w).2 = manager w.
Proof.
  intros Hsp Hsio Hio Hcan Hioh Hsph. unfold update_spec_value. m_step.
  rewrite Hsp. cbn. rewrite Hcan, Hsio. m_step.
  unfold io__on_update_value, _on_update_value. m_step.
  rewrite Hio. cbn. rewrite Hioh. cbn. rewrite Hsp. cbn. by rewrite Hsph.
Qed.

Lemma X27_update_spec_value_no_rollback_witness :
  let hooks : Hooks string unit nat :=
    mkHooks (λ _ v, inr v) (λ _ _ _, true) (λ _ _ _, inl "read-only")
            (λ d _ _, inr (S d)) (λ _ _, true)
            (λ _ s, inr s) (λ _ s, inr s) (λ v _, inr v) (λ v _, inr v) in
  let w := (new_spec hooks (Some 1) "x.dat" "table" 0 initial_world).2 in
  (update_spec_value hooks 0 "range" tt w).1 = Raise (HookError "read-only")
  ∧ io_heap (update_spec_value hooks 0 "range" tt w).2
    = <[0 := mkIO "x.dat" [0] None 1]> (io_heap w)
  ∧ spec_heap (update_spec_value hooks 0 "range" tt w).2 = spec_heap w
  ∧ manager (update_spec_value hooks 0 "range" tt w).2 = manager w.
Proof.
  intros hooks w.
  exact (X27_update_spec_value_no_rollback hooks w 0 0
           (mkSpec PyManager (PyIO 0) None "table") (mkIO "x.dat" [0] None 0)
           "range" tt 1 "read-only"
           eq_refl eq_refl eq_refl eq_refl eq_refl eq_refl).
Defined.

(** X28.  A resource that has lost its last dependent is out of the index,
    and with it out of reach of a rename: after [del_spec] of the only
    dependent of a resource of a well-formed index, [update_path] on the
    resource raises KeyError and changes nothing, and so does the path
    setter of the spec, while the path getter of the spec still answers with
    the path of the resource. *)
Theorem X28_retired_resource_cannot_be_renamed {V K D : Type}
    (w : World V K D) (spec io_ : nat) (sp : BaseIOSpec V)
    (io : BaseSharedIO D) (key : io_key) (path : Path) :
  index_wf w →
  spec_heap w !! spec = Some sp → _io sp = PyIO io_ →
  io_heap w !! io_ = Some io → spec ∈ _specs io →
  filter (λ c, c ≠ spec) (_specs io) = [] →
  registered w key io_ →
  update_path io_ path (del_spec spec w).2
    = (Raise KeyError, (del_spec spec w).2)
  ∧ BaseIOSpec_set_path spec path (del_spec spec w).2
    = (Raise KeyError, (del_spec spec w).2)
  ∧ BaseIOSpec_path spec (del_spec spec w).2
    = (Ok (_path io), (del_spec spec w).2).
Proof.
  intros Hwf Hsp Hsio Hio Hin Hrest Hreg.
  rewrite (del_spec_last spec sp io_ io key) by done.
  assert (∀ w' : World V K D,
            BiDict.inverse (ios (manager w')) !! io_ = None →
            update_path io_ path w' = (Raise KeyError, w')) as Hkey.
  { intros w' Hinv. unfold update_path. m_step. by rewrite Hinv. }
  split_and!.
  - apply Hkey. lazy beta iota delta [manager ios BiDict.inverse].
    apply lookup_delete_eq.
  - unfold BaseIOSpec_set_path, BaseSharedIO_set_path. m_step.
    rewrite Hsp. cbn. rewrite Hsio. m_step.
    apply Hkey. lazy beta iota delta [manager ios BiDict.inverse].
    apply lookup_delete_eq.
  - unfold BaseIOSpec_path. m_step. rewrite Hsp. cbn. rewrite Hsio. m_step.
    by rewrite lookup_insert_eq.
Qed.

Lemma X28_retired_resource_cannot_be_renamed_witness :
  update_path 0 "z.dat" (del_spec 0 Example.one_spec).2
  = (Raise KeyError, (del_spec 0 Example.one_spec).2).
Proof.
  refine (proj1 (X28_retired_resource_cannot_be_renamed Example.one_spec 0 0
                   (mkSpec PyManager (PyIO 0) None "table")
                   (mkIO "x.dat" [0] None tt) (Some 1, "x.dat") "z.dat"
                   _ eq_refl eq_refl eq_refl _ eq_refl eq_refl)).
  - apply index_wfb_sound. vm_compute. reflexivity.
  - by apply (bool_decide_unpack _).
Defined.
